(** * seller-apis: stock and price synchronisation with two marketplaces

    A shallow embedding of [seller.py] (marketplace A, the Ozon seller API)
    and [market.py] (marketplace B, the Yandex Market partner API), and the
    properties of the reconciliation and batching code.

    Layout: the Python values and built-ins the code relies on, the payload
    shapes, the world the programs run in (a heap of list objects, the
    network and its log), the two modules [Seller] and [Market], and then
    the theorems. *)

From Stdlib Require Import ZArith Lia Ascii.
From stdpp Require Import gmap strings list pretty.

Open Scope string_scope.
Open Scope list_scope.

(** ** Python values and built-ins *)

Module Py.

(** The exceptions that the modelled code can meet.  [ValueError] is what
    [int] raises on a malformed literal and [range] on a zero step;
    [EnvError] is [environs.EnvError], raised by [env.str] for a variable
    that is not set. *)
Inductive exn :=
| ValueError
| TypeError
| AttributeError
| HTTPError
| ConnectionError
| ReadTimeout
| EnvError.

Inductive result (A : Type) :=
| Ok (a : A)
| Raise (e : exn).
Arguments Ok {A} a.
Arguments Raise {A} e.

(** A cell of the parsed spreadsheet: a string, an integer, or [None] (what
    [dict.get] returns for a missing column).  Strings are sequences of
    UTF-8 bytes.  Floating-point cells are left out. *)
Inductive value :=
| VStr (s : string)
| VInt (z : Z)
| VNone.

(** [str(v)].  The bound that an interpreter may put on the digits of an
    integer turned into text is not modelled: the integers of a spreadsheet
    are far below it. *)
Definition str (v : value) : string :=
  match v with
  | VStr s => s
  | VInt z => pretty z
  | VNone => "None"
  end.

(** The interpreter that runs the code: the bound it puts on the digits of
    an integer literal, and the two tables of its Unicode database that
    [int] consults for a character outside ASCII. *)
Class Interpreter := {
  (** [sys.get_int_max_str_digits()], 0 where the conversion is unbounded
      (the setting 0, and every version older than the bound) *)
  int_max_str_digits : nat;
  (** [Py_UNICODE_ISSPACE] on a code point *)
  unicode_isspace : N -> bool;
  (** [Py_UNICODE_TODECIMAL] on a code point: the value of a decimal
      digit, [None] for any other character *)
  unicode_todecimal : N -> option N;
}.

(** [Py_ISSPACE], the blanks that [PyLong_FromString] skips around a
    literal: TAB, LF, VT, FF, CR and the space. *)
Definition is_space (c : ascii) : bool :=
  let n := nat_of_ascii c in
  ((9 <=? n)%nat && (n <=? 13)%nat) || (n =? 32)%nat.

(** The class [[0-9]]. *)
Definition is_digit (c : ascii) : bool :=
  let n := nat_of_ascii c in
  (48 <=? n)%nat && (n <=? 57)%nat.

Definition digit_value (c : ascii) : Z :=
  (Z.of_nat (nat_of_ascii c) - 48)%Z.

Fixpoint lstrip (s : string) : string :=
  match s with
  | String c s' => if is_space c then lstrip s' else s
  | EmptyString => EmptyString
  end.

Fixpoint rstrip (s : string) : string :=
  match s with
  | EmptyString => EmptyString
  | String c s' =>
      match rstrip s' with
      | EmptyString => if is_space c then EmptyString else String c EmptyString
      | r => String c r
      end
  end.

(** The digits of a decimal literal, read left to right.  A single
    underscore is allowed between two digits. *)
Fixpoint int_digits (s : string) (acc : Z) (after_digit : bool) : option Z :=
  match s with
  | EmptyString => if after_digit then Some acc else None
  | String c s' =>
      if is_digit c then int_digits s' (10 * acc + digit_value c) true
      else if Ascii.eqb c "_" && after_digit then int_digits s' acc false
      else None
  end.

(** How many digits a literal has; its underscores do not count. *)
Fixpoint count_digits (s : string) : nat :=
  match s with
  | EmptyString => O
  | String c s' => if is_digit c then S (count_digits s') else count_digits s'
  end.

(** The test of [PyLong_FromString] on the number of digits:
    [digits > _PY_LONG_MAX_STR_DIGITS_THRESHOLD], which is 640, and then
    [max_str_digits > 0 && digits > max_str_digits]. *)
Definition over_limit `{Interpreter} (digits : nat) : bool :=
  (640 <? digits)%nat && (0 <? int_max_str_digits)%nat
  && (int_max_str_digits <? digits)%nat.

(** [PyLong_FromString] in base 10, on ASCII text: surrounding blanks, an
    optional sign, then the digits, no more of them than the interpreter
    allows.  Every failure is a [ValueError]. *)
Definition long_from_string `{Interpreter} (s : string) : result Z :=
  let body := rstrip (lstrip s) in
  let '(sign, digits) :=
    match body with
    | String "+" r => (1%Z, r)
    | String "-" r => ((-1)%Z, r)
    | _ => (1%Z, body)
    end in
  match int_digits digits 0 false with
  | Some z =>
      if over_limit (count_digits digits) then Raise ValueError
      else Ok (sign * z)%Z
  | None => Raise ValueError
  end.

(** [PyUnicode_IS_ASCII]: no byte above 127. *)
Fixpoint is_ascii (s : string) : bool :=
  match s with
  | EmptyString => true
  | String c s' => (nat_of_ascii c <? 128)%nat && is_ascii s'
  end.

(** The characters of a string, decoded from its UTF-8 bytes: [pending]
    continuation bytes are still to come for the character whose leading
    bits are [acc].  [None] for bytes that are the encoding of no string. *)
Fixpoint code_points (s : string) (pending : nat) (acc : N) : option (list N) :=
  match s with
  | EmptyString =>
      match pending with
      | O => Some []
      | S _ => None
      end
  | String c s' =>
      let b := N_of_ascii c in
      match pending with
      | O =>
          if (b <? 128)%N then cons b <$> code_points s' 0 0
          else if (b <? 192)%N then None
          else if (b <? 224)%N then code_points s' 1 (b - 192)
          else if (b <? 240)%N then code_points s' 2 (b - 224)
          else if (b <? 248)%N then code_points s' 3 (b - 240)
          else None
      | S pending' =>
          if (128 <=? b)%N && (b <? 192)%N then
            let acc := (64 * acc + (b - 128))%N in
            match pending' with
            | O => cons acc <$> code_points s' 0 0
            | S _ => code_points s' pending' acc
            end
          else None
      end
  end.

(** [_PyUnicode_TransformDecimalAndSpaceToASCII] on a string that is not
    ASCII: a character below 127 is kept, a blank becomes a space, a
    decimal digit its ASCII digit, and the text is cut, with a question
    mark, at the first character that is none of these. *)
Fixpoint transform_decimal_and_space `{Interpreter} (chars : list N) : string :=
  match chars with
  | [] => EmptyString
  | ch :: rest =>
      if (ch <? 127)%N then
        String (ascii_of_N ch) (transform_decimal_and_space rest)
      else if unicode_isspace ch then
        String " " (transform_decimal_and_space rest)
      else
        match unicode_todecimal ch with
        | Some decimal =>
            String (ascii_of_N (48 + decimal)) (transform_decimal_and_space rest)
        | None => String "?" EmptyString
        end
  end.

(** [int(s)] for a string [s], as [PyLong_FromUnicodeObject] computes it in
    base 10: an ASCII string is parsed as it is, any other string after
    its blanks and decimal digits are brought to ASCII.  Bytes that encode
    no string are no Python value; the model answers [ValueError] there. *)
Definition int_of_str `{Interpreter} (s : string) : result Z :=
  if is_ascii s then long_from_string s
  else
    match code_points s 0 0 with
    | Some chars => long_from_string (transform_decimal_and_space chars)
    | None => Raise ValueError
    end.

(** [int(v)] *)
Definition int `{Interpreter} (v : value) : result Z :=
  match v with
  | VStr s => int_of_str s
  | VInt z => Ok z
  | VNone => Raise TypeError
  end.

(** [s.split(sep)[0]] for a one-character separator: the text before the
    first [sep], or all of [s] when there is none. *)
Fixpoint split_head (sep : ascii) (s : string) : string :=
  match s with
  | EmptyString => EmptyString
  | String c s' =>
      if Ascii.eqb c sep then EmptyString else String c (split_head sep s')
  end.

(** [re.sub("[^0-9]", "", s)]: a byte of a multi-byte UTF-8 character is
    never an ASCII digit, so dropping the non-digit bytes drops exactly the
    non-digit characters. *)
Fixpoint sub_non_digits (s : string) : string :=
  match s with
  | EmptyString => EmptyString
  | String c s' =>
      if is_digit c then String c (sub_non_digits s') else sub_non_digits s'
  end.

(** [len(range(start, stop, step))] for a non-zero step. *)
Definition range_length (start stop step : Z) : Z :=
  if (0 <? step)%Z then
    if (start <? stop)%Z then ((stop - start - 1) / step + 1)%Z else 0%Z
  else
    if (stop <? start)%Z then ((start - stop - 1) / (- step) + 1)%Z else 0%Z.

(** [range(start, stop, step)], as the list of the integers it yields. *)
Definition range (start stop step : Z) : result (list Z) :=
  if (step =? 0)%Z then Raise ValueError
  else
    Ok (map (fun k => (start + Z.of_nat k * step)%Z)
            (seq 0 (Z.to_nat (range_length start stop step)))).

(** How a slice bound is brought into [0 .. len]. *)
Definition slice_index (len i : Z) : Z :=
  let i := if (i <? 0)%Z then (i + len)%Z else i in
  if (i <? 0)%Z then 0%Z else if (len <? i)%Z then len else i.

(** [lst[lo:hi]] *)
Definition slice {A : Type} (lst : list A) (lo hi : Z) : list A :=
  let len := Z.of_nat (length lst) in
  let lo := slice_index len lo in
  let hi := slice_index len hi in
  take (Z.to_nat (hi - lo)) (drop (Z.to_nat lo) lst).

(** [lst.remove(x)]: the list without the first occurrence of [x];
    [None] stands for the [ValueError] raised when [x] is not in [lst]. *)
Fixpoint remove (x : string) (lst : list string) : option (list string) :=
  match lst with
  | [] => None
  | y :: lst' =>
      if decide (x = y) then Some lst'
      else match remove x lst' with
           | Some r => Some (y :: r)
           | None => None
           end
  end.

End Py.

Import Py.

(** ** The feed and the payloads *)

(** A row of the spreadsheet as [download_stock] returns it; the fields are
    the columns "Код", "Количество" and "Цена", read with [watch.get]. *)
Record Watch := {
  Kod : value;
  Kolichestvo : value;
  Tsena : value;
}.

(** An entry of the stock list of seller.py. *)
Module SellerStock.
Record t := {
  offer_id : string;
  stock : Z;
}.
End SellerStock.

(** An entry of the price list of seller.py. *)
Module SellerPrice.
Record t := {
  auto_action_enabled : string;
  currency_code : string;
  offer_id : string;
  old_price : string;
  price : string;
}.
End SellerPrice.

(** The ["result"] of a page of [/v2/product/list]. *)
Module SellerPage.
Record item := {
  product_id : Z;
  offer_id : string;
}.
Record t := {
  items : list item;
  total : Z;
  last_id : string;
}.
End SellerPage.

(** An entry of the stock list of market.py. *)
Module MarketStock.
Record item := {
  count : Z;
  type : string;
  updatedAt : string;
}.
Record t := {
  sku : string;
  warehouseId : string;
  items : list item;
}.
End MarketStock.

(** An entry of the price list of market.py. *)
Module MarketPrice.
Record money := {
  value : Z;
  currencyId : string;
}.
Record t := {
  id : string;
  price : money;
}.
End MarketPrice.

(** The ["result"] of a page of [offer-mapping-entries]: [shopSku] is
    [entry["offer"]["shopSku"]] and [nextPageToken] is
    [result["paging"]["nextPageToken"]], [None] when the key is absent. *)
Module MarketPage.
Record entry := {
  shopSku : string;
}.
Record t := {
  offerMappingEntries : list entry;
  nextPageToken : option string;
}.
End MarketPage.

(** ** The world: network, clock, heap *)

(** The HTTP requests that the two files issue. *)
Inductive Request :=
| OzonProductList (last_id client_id seller_token : string)
| OzonUpdatePrices (prices : list SellerPrice.t) (client_id seller_token : string)
| OzonUpdateStocks (stocks : list SellerStock.t) (client_id seller_token : string)
| CasioOstatki
| MarketOfferMappingEntries (page campaign_id access_token : string)
| MarketUpdateStocks (stocks : list MarketStock.t) (campaign_id access_token : string)
| MarketUpdatePrices (prices : list MarketPrice.t) (campaign_id access_token : string).

(** What comes back, decoded: a catalog page of either marketplace, the
    parsed spreadsheet, or a body that no caller looks into. *)
Inductive Response :=
| ProductList (result : SellerPage.t)
| OfferMappingEntries (result : MarketPage.t)
| Ostatki (watch_remnants : list Watch)
| Body.

(** Everything outside the program: the interpreter, the process
    environment as [environs.Env] reads it ([getenv name] is the value it
    finds for the variable [name], [None] when it finds none), the
    servers, which answer a request or make [requests] raise, and the clock
    read by [datetime.utcnow], already cut to the second and in ISO
    format. *)
Class Environment := {
  interpreter :: Interpreter;
  getenv : string -> option string;
  Outside : Type;
  http : Request -> Outside -> result Response * Outside;
  utcnow : Outside -> string;
}.

(** A list object lives in the heap at a location; two names for the same
    object are the same location. *)
Abbreviation loc := nat.

Inductive Outcome (A : Type) :=
| Returns (a : A)
| Raises (e : exn)
| OutOfFuel.
Arguments Returns {A} a.
Arguments Raises {A} e.
Arguments OutOfFuel {A}.

Section World.
Context `{Environment}.

Record World := {
  heap : gmap loc (list string);
  outside : Outside;
  sent : list Request;
}.

(** A computation: runs in a world, ends with a value, an exception or
    no answer within the fuel given, and leaves a world behind. *)
Definition M (A : Type) : Type := World -> Outcome A * World.

Definition ret {A : Type} (a : A) : M A :=
  fun w => (Returns a, w).

Definition bind {A B : Type} (m : M A) (k : A -> M B) : M B :=
  fun w =>
    match m w with
    | (Returns a, w') => k a w'
    | (Raises e, w') => (Raises e, w')
    | (OutOfFuel, w') => (OutOfFuel, w')
    end.

Definition raise {A : Type} (e : exn) : M A :=
  fun w => (Raises e, w).

Definition out_of_fuel {A : Type} : M A :=
  fun w => (OutOfFuel, w).

Definition lift {A : Type} (r : result A) : M A :=
  match r with
  | Ok a => ret a
  | Raise e => raise e
  end.

(** The content of the list object at [l].  Locations come from [alloc],
    so the default is never used. *)
Definition read (l : loc) : M (list string) :=
  fun w => (Returns (default [] (heap w !! l)), w).

Definition write (l : loc) (content : list string) : M unit :=
  fun w =>
    (Returns tt,
     {| heap := <[l := content]> (heap w); outside := outside w; sent := sent w |}).

(** A new list object. *)
Definition alloc (content : list string) : M loc :=
  fun w =>
    let l := fresh (dom (heap w)) in
    (Returns l,
     {| heap := <[l := content]> (heap w); outside := outside w; sent := sent w |}).

(** [lst.remove(x)] on the list object at [l]. *)
Definition list_remove (l : loc) (x : string) : M unit :=
  fun w =>
    match remove x (default [] (heap w !! l)) with
    | Some content => write l content w
    | None => (Raises ValueError, w)
    end.

(** One HTTP exchange, [raise_for_status] and decoding included. *)
Definition request (q : Request) : M Response :=
  fun w =>
    let '(answer, o) := http q (outside w) in
    let w' := {| heap := heap w; outside := o; sent := sent w ++ [q] |} in
    match answer with
    | Ok r => (Returns r, w')
    | Raise e => (Raises e, w')
    end.

(** [datetime.datetime.utcnow().replace(microsecond=0).isoformat()] *)
Definition clock : M string :=
  fun w => (Returns (utcnow (outside w)), w).

(** [env.str(name)] on an [Env()]: the variable, or [EnvError] when it is
    not set. *)
Definition env_str (name : string) : M string :=
  fun w =>
    match getenv name with
    | Some v => (Returns v, w)
    | None => (Raises EnvError, w)
    end.

(** [try: body / except ...: print(...)] with handlers for every exception:
    the exception is reported and dropped. *)
Definition try_except (body : M unit) : M unit :=
  fun w =>
    match body w with
    | (Raises _, w') => (Returns tt, w')
    | r => r
    end.

End World.

Declare Scope py_scope.
Delimit Scope py_scope with py.
Notation "x <- c1 ;; c2" := (bind c1 (fun x => c2))
  (at level 100, c1 at next level, right associativity) : py_scope.
Notation "c1 ;; c2" := (bind c1 (fun _ => c2))
  (at level 100, right associativity) : py_scope.
Open Scope py_scope.

(** [for x in lst: body(x)] *)
Fixpoint for_each `{Environment} {A : Type} (lst : list A) (body : A -> M unit) : M unit :=
  match lst with
  | [] => ret tt
  | x :: lst' => body x ;; for_each lst' body
  end.

(** The quantity rule, the same lines in both files (seller.py 294-300,
    market.py 198-204):
    [count = str(watch.get("Количество"))], then 100 for [">10"], 0 for
    ["1"], and [int(watch.get("Количество"))] otherwise. *)
Definition stock_count `{Interpreter} (watch : Watch) : result Z :=
  let count := str (Kolichestvo watch) in
  if decide (count = ">10") then Ok 100%Z
  else if decide (count = "1") then Ok 0%Z
  else int (Kolichestvo watch).

(** ** seller.py *)

Module Seller.
Section Seller.
Context `{Environment}.

Definition get_product_list (last_id client_id seller_token : string) : M SellerPage.t :=
  response_object <- request (OzonProductList last_id client_id seller_token) ;;
  match response_object with
  | ProductList result => ret result
  | _ => raise AttributeError
  end.

(** The [while True] loop of [get_offer_ids]; every request takes one unit
    of fuel. *)
Fixpoint get_offer_ids_loop (fuel : nat) (last_id : string)
    (product_list : list SellerPage.item) (client_id seller_token : string)
    : M (list SellerPage.item) :=
  match fuel with
  | O => out_of_fuel
  | S fuel' =>
      some_prod <- get_product_list last_id client_id seller_token ;;
      let product_list := product_list ++ SellerPage.items some_prod in
      let total := SellerPage.total some_prod in
      let last_id := SellerPage.last_id some_prod in
      if decide (total = Z.of_nat (length product_list)) then ret product_list
      else get_offer_ids_loop fuel' last_id product_list client_id seller_token
  end.

(** The list returned is a new object. *)
Definition get_offer_ids (fuel : nat) (client_id seller_token : string) : M loc :=
  product_list <- get_offer_ids_loop fuel "" [] client_id seller_token ;;
  alloc (map SellerPage.offer_id product_list).

Definition update_price (prices : list SellerPrice.t) (client_id seller_token : string)
    : M unit :=
  request (OzonUpdatePrices prices client_id seller_token) ;; ret tt.

Definition update_stocks (stocks : list SellerStock.t) (client_id seller_token : string)
    : M unit :=
  request (OzonUpdateStocks stocks client_id seller_token) ;; ret tt.

(** Download, unpacking and parsing are one exchange with the outside. *)
Definition download_stock : M (list Watch) :=
  response <- request CasioOstatki ;;
  match response with
  | Ostatki watch_remnants => ret watch_remnants
  | _ => raise TypeError
  end.

(** The first loop of [create_stocks]: [offer_ids] is the caller's list
    object, shrunk in place by [offer_ids.remove]. *)
Fixpoint create_stocks_feed (watch_remnants : list Watch) (offer_ids : loc)
    (stocks : list SellerStock.t) : M (list SellerStock.t) :=
  match watch_remnants with
  | [] => ret stocks
  | watch :: rest =>
      ids <- read offer_ids ;;
      if decide (str (Kod watch) ∈ ids) then
        stock <- lift (stock_count watch) ;;
        let stocks :=
          stocks ++ [{| SellerStock.offer_id := str (Kod watch);
                        SellerStock.stock := stock |}] in
        list_remove offer_ids (str (Kod watch)) ;;
        create_stocks_feed rest offer_ids stocks
      else create_stocks_feed rest offer_ids stocks
  end.

Definition create_stocks (watch_remnants : list Watch) (offer_ids : loc)
    : M (list SellerStock.t) :=
  stocks <- create_stocks_feed watch_remnants offer_ids [] ;;
  ids <- read offer_ids ;;
  ret (stocks ++
       map (fun offer_id => {| SellerStock.offer_id := offer_id;
                               SellerStock.stock := 0 |}) ids).

Definition price_conversion (price : value) : result string :=
  match price with
  | VStr price => Ok (sub_non_digits (split_head "." price))
  | _ => Raise AttributeError
  end.

(** The loop of [create_prices]; [offer_ids] is only read. *)
Fixpoint create_prices_feed (watch_remnants : list Watch) (offer_ids : loc)
    (prices : list SellerPrice.t) : M (list SellerPrice.t) :=
  match watch_remnants with
  | [] => ret prices
  | watch :: rest =>
      ids <- read offer_ids ;;
      if decide (str (Kod watch) ∈ ids) then
        converted <- lift (price_conversion (Tsena watch)) ;;
        let price :=
          {| SellerPrice.auto_action_enabled := "UNKNOWN";
             SellerPrice.currency_code := "RUB";
             SellerPrice.offer_id := str (Kod watch);
             SellerPrice.old_price := "0";
             SellerPrice.price := converted |} in
        create_prices_feed rest offer_ids (prices ++ [price])
      else create_prices_feed rest offer_ids prices
  end.

Definition create_prices (watch_remnants : list Watch) (offer_ids : loc)
    : M (list SellerPrice.t) :=
  create_prices_feed watch_remnants offer_ids [].

(** [divide(lst, n)], run to the end as [list(divide(lst, n))] does: the
    chunks, or the exception of the first step. *)
Definition divide {A : Type} (lst : list A) (n : Z) : result (list (list A)) :=
  match range 0 (Z.of_nat (length lst)) n with
  | Ok indices => Ok (map (fun i => slice lst i (i + n)) indices)
  | Raise e => Raise e
  end.

(** The bodies of the two coroutines, as they run once awaited. *)
Definition upload_prices (fuel : nat) (watch_remnants : list Watch)
    (client_id seller_token : string) : M (list SellerPrice.t) :=
  offer_ids <- get_offer_ids fuel client_id seller_token ;;
  prices <- create_prices watch_remnants offer_ids ;;
  chunks <- lift (divide prices 1000) ;;
  for_each chunks (fun some_price => update_price some_price client_id seller_token) ;;
  ret prices.

Definition upload_stocks (fuel : nat) (watch_remnants : list Watch)
    (client_id seller_token : string)
    : M (list SellerStock.t * list SellerStock.t) :=
  offer_ids <- get_offer_ids fuel client_id seller_token ;;
  stocks <- create_stocks watch_remnants offer_ids ;;
  chunks <- lift (divide stocks 100) ;;
  for_each chunks (fun some_stock => update_stocks some_stock client_id seller_token) ;;
  let not_empty :=
    filter (fun stock => SellerStock.stock stock ≠ 0%Z) stocks in
  ret (not_empty, stocks).

(** Lines 434-441 of [main]: both computations and both push loops, on the
    one list object [offer_ids]. *)
Definition main_update (watch_remnants : list Watch) (offer_ids : loc)
    (client_id seller_token : string) : M unit :=
  stocks <- create_stocks watch_remnants offer_ids ;;
  chunks <- lift (divide stocks 100) ;;
  for_each chunks (fun some_stock => update_stocks some_stock client_id seller_token) ;;
  prices <- create_prices watch_remnants offer_ids ;;
  chunks <- lift (divide prices 900) ;;
  for_each chunks (fun some_price => update_price some_price client_id seller_token).

(** Lines 431-447 of [main]: the [try] statement, which runs once the two
    variables are read. *)
Definition main_try (fuel : nat) (seller_token client_id : string) : M unit :=
  try_except (
    offer_ids <- get_offer_ids fuel client_id seller_token ;;
    watch_remnants <- download_stock ;;
    main_update watch_remnants offer_ids client_id seller_token).

(** [main]: the two variables are read before the [try], so that the
    exception of a variable that is not set leaves [main]. *)
Definition main (fuel : nat) : M unit :=
  seller_token <- env_str "SELLER_TOKEN" ;;
  client_id <- env_str "CLIENT_ID" ;;
  main_try fuel seller_token client_id.

End Seller.
End Seller.

(** ** market.py *)

Module Market.
Section Market.
Context `{Environment}.

Definition get_product_list (page campaign_id access_token : string) : M MarketPage.t :=
  response_object <- request (MarketOfferMappingEntries page campaign_id access_token) ;;
  match response_object with
  | OfferMappingEntries result => ret result
  | _ => raise AttributeError
  end.

(** [not page] for the value of [paging.get("nextPageToken")]. *)
Definition not_page (page : option string) : bool :=
  match page with
  | None => true
  | Some page => bool_decide (page = "")
  end.

(** The [while True] loop of [get_offer_ids]; every request takes one unit
    of fuel. *)
Fixpoint get_offer_ids_loop (fuel : nat) (page : string)
    (product_list : list MarketPage.entry) (campaign_id market_token : string)
    : M (list MarketPage.entry) :=
  match fuel with
  | O => out_of_fuel
  | S fuel' =>
      some_prod <- get_product_list page campaign_id market_token ;;
      let product_list := product_list ++ MarketPage.offerMappingEntries some_prod in
      let page := MarketPage.nextPageToken some_prod in
      if not_page page then ret product_list
      else get_offer_ids_loop fuel' (default "" page) product_list campaign_id market_token
  end.

Definition get_offer_ids (fuel : nat) (campaign_id market_token : string) : M loc :=
  product_list <- get_offer_ids_loop fuel "" [] campaign_id market_token ;;
  alloc (map MarketPage.shopSku product_list).

Definition update_stocks (stocks : list MarketStock.t) (campaign_id access_token : string)
    : M unit :=
  request (MarketUpdateStocks stocks campaign_id access_token) ;; ret tt.

Definition update_price (prices : list MarketPrice.t) (campaign_id access_token : string)
    : M unit :=
  request (MarketUpdatePrices prices campaign_id access_token) ;; ret tt.

Definition stock_entry (sku warehouse_id : string) (stock : Z) (date : string)
    : MarketStock.t :=
  {| MarketStock.sku := sku;
     MarketStock.warehouseId := warehouse_id;
     MarketStock.items :=
       [{| MarketStock.count := stock;
           MarketStock.type := "FIT";
           MarketStock.updatedAt := date |}] |}.

(** The first loop of [create_stocks]. *)
Fixpoint create_stocks_feed (watch_remnants : list Watch) (offer_ids : loc)
    (warehouse_id date : string) (stocks : list MarketStock.t)
    : M (list MarketStock.t) :=
  match watch_remnants with
  | [] => ret stocks
  | watch :: rest =>
      ids <- read offer_ids ;;
      if decide (str (Kod watch) ∈ ids) then
        stock <- lift (stock_count watch) ;;
        let stocks :=
          stocks ++ [stock_entry (str (Kod watch)) warehouse_id stock date] in
        list_remove offer_ids (str (Kod watch)) ;;
        create_stocks_feed rest offer_ids warehouse_id date stocks
      else create_stocks_feed rest offer_ids warehouse_id date stocks
  end.

Definition create_stocks (watch_remnants : list Watch) (offer_ids : loc)
    (warehouse_id : string) : M (list MarketStock.t) :=
  now <- clock ;;
  let date := now +:+ "Z" in
  stocks <- create_stocks_feed watch_remnants offer_ids warehouse_id date [] ;;
  ids <- read offer_ids ;;
  ret (stocks ++ map (fun offer_id => stock_entry offer_id warehouse_id 0 date) ids).

(** The loop of [create_prices]: the converted price goes through [int]. *)
Fixpoint create_prices_feed (watch_remnants : list Watch) (offer_ids : loc)
    (prices : list MarketPrice.t) : M (list MarketPrice.t) :=
  match watch_remnants with
  | [] => ret prices
  | watch :: rest =>
      ids <- read offer_ids ;;
      if decide (str (Kod watch) ∈ ids) then
        converted <- lift (Seller.price_conversion (Tsena watch)) ;;
        value <- lift (int_of_str converted) ;;
        let price :=
          {| MarketPrice.id := str (Kod watch);
             MarketPrice.price :=
               {| MarketPrice.value := value;
                  MarketPrice.currencyId := "RUR" |} |} in
        create_prices_feed rest offer_ids (prices ++ [price])
      else create_prices_feed rest offer_ids prices
  end.

Definition create_prices (watch_remnants : list Watch) (offer_ids : loc)
    : M (list MarketPrice.t) :=
  create_prices_feed watch_remnants offer_ids [].

(** The bodies of the two coroutines, as they run once awaited. *)
Definition upload_prices (fuel : nat) (watch_remnants : list Watch)
    (campaign_id market_token : string) : M (list MarketPrice.t) :=
  offer_ids <- get_offer_ids fuel campaign_id market_token ;;
  prices <- create_prices watch_remnants offer_ids ;;
  chunks <- lift (Seller.divide prices 500) ;;
  for_each chunks (fun some_prices => update_price some_prices campaign_id market_token) ;;
  ret prices.

Definition upload_stocks (fuel : nat) (watch_remnants : list Watch)
    (campaign_id market_token warehouse_id : string)
    : M (list MarketStock.t * list MarketStock.t) :=
  offer_ids <- get_offer_ids fuel campaign_id market_token ;;
  stocks <- create_stocks watch_remnants offer_ids warehouse_id ;;
  chunks <- lift (Seller.divide stocks 2000) ;;
  for_each chunks (fun some_stock => update_stocks some_stock campaign_id market_token) ;;
  let not_empty :=
    filter (fun stock =>
              MarketStock.count <$> head (MarketStock.items stock) ≠ Some 0%Z)
           stocks in
  ret (not_empty, stocks).

(** One half of [main]: the catalog, the stocks and their push loop.  The
    call [upload_prices(...)] that follows in the source only creates a
    coroutine, which [main] never awaits: nothing of its body runs. *)
Definition main_campaign (fuel : nat) (watch_remnants : list Watch)
    (campaign_id market_token warehouse_id : string) : M unit :=
  offer_ids <- get_offer_ids fuel campaign_id market_token ;;
  stocks <- create_stocks watch_remnants offer_ids warehouse_id ;;
  chunks <- lift (Seller.divide stocks 2000) ;;
  for_each chunks (fun some_stock => update_stocks some_stock campaign_id market_token).

(** Lines 342-366 of [main]: the download, which is outside the [try], and
    the [try] statement with the two halves. *)
Definition main_download (fuel : nat)
    (market_token campaign_fbs_id campaign_dbs_id warehouse_fbs_id warehouse_dbs_id : string)
    : M unit :=
  watch_remnants <- Seller.download_stock ;;
  try_except (
    main_campaign fuel watch_remnants campaign_fbs_id market_token warehouse_fbs_id ;;
    main_campaign fuel watch_remnants campaign_dbs_id market_token warehouse_dbs_id).

(** [main]: the five variables are read first, outside the [try] as the
    download is. *)
Definition main (fuel : nat) : M unit :=
  market_token <- env_str "MARKET_TOKEN" ;;
  campaign_fbs_id <- env_str "FBS_ID" ;;
  campaign_dbs_id <- env_str "DBS_ID" ;;
  warehouse_fbs_id <- env_str "WAREHOUSE_FBS_ID" ;;
  warehouse_dbs_id <- env_str "WAREHOUSE_DBS_ID" ;;
  main_download fuel market_token campaign_fbs_id campaign_dbs_id
    warehouse_fbs_id warehouse_dbs_id.

End Market.
End Market.

(** ** Vocabulary of the statements *)

(** The key under which a feed record is matched: [str(watch.get("Код"))]. *)
Definition code (watch : Watch) : string := str (Kod watch).

Definition codes (watch_remnants : list Watch) : list string :=
  map code watch_remnants.

(** [lst] without the first occurrence of [x], if any. *)
Definition without_first (x : string) (lst : list string) : list string :=
  default lst (remove x lst).

(** The feed records that find their code in the offer-id list when the
    feed is walked in order and every match uses up one occurrence. *)
Fixpoint matched (watch_remnants : list Watch) (ids : list string) : list Watch :=
  match watch_remnants with
  | [] => []
  | watch :: rest =>
      if decide (code watch ∈ ids)
      then watch :: matched rest (without_first (code watch) ids)
      else matched rest ids
  end.

(** The offer ids left over by that walk. *)
Fixpoint unmatched (watch_remnants : list Watch) (ids : list string) : list string :=
  match watch_remnants with
  | [] => ids
  | watch :: rest =>
      if decide (code watch ∈ ids)
      then unmatched rest (without_first (code watch) ids)
      else unmatched rest ids
  end.

(** [f] over a list, left to right, stopping at the first exception. *)
Fixpoint traverse {A B : Type} (f : A -> result B) (lst : list A) : result (list B) :=
  match lst with
  | [] => Ok []
  | x :: lst' =>
      match f x with
      | Ok y =>
          match traverse f lst' with
          | Ok ys => Ok (y :: ys)
          | Raise e => Raise e
          end
      | Raise e => Raise e
      end
  end.

Definition outcome_of {A : Type} (r : result A) : Outcome A :=
  match r with
  | Ok a => Returns a
  | Raise e => Raises e
  end.

Definition outcome_map {A B : Type} (f : A -> B) (o : Outcome A) : Outcome B :=
  match o with
  | Returns a => Returns (f a)
  | Raises e => Raises e
  | OutOfFuel => OutOfFuel
  end.

(** The stock entry that seller.py builds for a matched record. *)
Definition seller_stock `{Interpreter} (watch : Watch) : result SellerStock.t :=
  match stock_count watch with
  | Ok stock => Ok {| SellerStock.offer_id := code watch; SellerStock.stock := stock |}
  | Raise e => Raise e
  end.

Definition seller_zero (offer_id : string) : SellerStock.t :=
  {| SellerStock.offer_id := offer_id; SellerStock.stock := 0 |}.

(** The price entry that seller.py builds for a record. *)
Definition seller_price (watch : Watch) : result SellerPrice.t :=
  match Seller.price_conversion (Tsena watch) with
  | Ok converted =>
      Ok {| SellerPrice.auto_action_enabled := "UNKNOWN";
            SellerPrice.currency_code := "RUB";
            SellerPrice.offer_id := code watch;
            SellerPrice.old_price := "0";
            SellerPrice.price := converted |}
  | Raise e => Raise e
  end.

(** The stock entry that market.py builds for a matched record. *)
Definition market_stock `{Interpreter} (warehouse_id date : string) (watch : Watch)
    : result MarketStock.t :=
  match stock_count watch with
  | Ok stock => Ok (Market.stock_entry (code watch) warehouse_id stock date)
  | Raise e => Raise e
  end.

(** The price entry that market.py builds for a record. *)
Definition market_price `{Interpreter} (watch : Watch) : result MarketPrice.t :=
  match Seller.price_conversion (Tsena watch) with
  | Ok converted =>
      match int_of_str converted with
      | Ok value =>
          Ok {| MarketPrice.id := code watch;
                MarketPrice.price :=
                  {| MarketPrice.value := value; MarketPrice.currencyId := "RUR" |} |}
      | Raise e => Raise e
      end
  | Raise e => Raise e
  end.

(** What the two computations of each file amount to, as functions of the
    feed and of the content of the offer-id list: the entries of the matched
    records in feed order, then (for stocks) a zero entry for every id left
    over. *)
Definition seller_stocks `{Interpreter} (watch_remnants : list Watch) (ids : list string)
    : result (list SellerStock.t) :=
  match traverse seller_stock (matched watch_remnants ids) with
  | Ok entries => Ok (entries ++ map seller_zero (unmatched watch_remnants ids))
  | Raise e => Raise e
  end.

Definition seller_prices (watch_remnants : list Watch) (ids : list string)
    : result (list SellerPrice.t) :=
  traverse seller_price (filter (fun watch => code watch ∈ ids) watch_remnants).

Definition market_stocks `{Interpreter} (warehouse_id date : string)
    (watch_remnants : list Watch) (ids : list string) : result (list MarketStock.t) :=
  match traverse (market_stock warehouse_id date) (matched watch_remnants ids) with
  | Ok entries =>
      Ok (entries ++
          map (fun offer_id => Market.stock_entry offer_id warehouse_id 0 date)
              (unmatched watch_remnants ids))
  | Raise e => Raise e
  end.

Definition market_prices `{Interpreter} (watch_remnants : list Watch) (ids : list string)
    : result (list MarketPrice.t) :=
  traverse market_price (filter (fun watch => code watch ∈ ids) watch_remnants).

(** A stock entry of market.py with its timestamp blanked. *)
Definition without_timestamp (entry : MarketStock.t) : MarketStock.t :=
  {| MarketStock.sku := MarketStock.sku entry;
     MarketStock.warehouseId := MarketStock.warehouseId entry;
     MarketStock.items :=
       map (fun item => {| MarketStock.count := MarketStock.count item;
                           MarketStock.type := MarketStock.type item;
                           MarketStock.updatedAt := "" |})
           (MarketStock.items entry) |}.

(** The world [w] with the list object at [l] holding [content]. *)
Definition with_content `{Environment} (l : loc) (content : list string) (w : World)
    : World :=
  {| heap := <[l := content]> (heap w); outside := outside w; sent := sent w |}.

(** How many entries of a list carry a given key. *)
Definition occurrences {A : Type} (key : A -> string) (k : string) (lst : list A) : nat :=
  length (filter (fun x => key x = k) lst).

(** A string made of decimal digits only, and the number it denotes. *)
Fixpoint all_digits (s : string) : bool :=
  match s with
  | EmptyString => true
  | String c s' => is_digit c && all_digits s'
  end.

Fixpoint decimal (s : string) : Z :=
  match s with
  | EmptyString => 0
  | String c s' => (digit_value c * 10 ^ Z.of_nat (String.length s') + decimal s')%Z
  end.

(** A string of blanks. *)
Fixpoint all_blank (s : string) : bool :=
  match s with
  | EmptyString => true
  | String c s' => is_space c && all_blank s'
  end.

(** The digits of an integer literal as the language reference gives them,
    [digit (["_"] digit)*]: [digitpart body digits] when [body] is such a
    text and [digits] are its digits, without the underscores. *)
Inductive digitpart : string -> string -> Prop :=
| digitpart_last c :
    is_digit c = true ->
    digitpart (String c EmptyString) (String c EmptyString)
| digitpart_digit c body digits :
    is_digit c = true ->
    digitpart body digits ->
    digitpart (String c body) (String c digits)
| digitpart_underscore c body digits :
    is_digit c = true ->
    digitpart body digits ->
    digitpart (String c (String "_" body)) (String c digits).

(** [int_literal s z n]: [s] is an integer literal in base 10 with [n]
    digits that denotes [z]: blanks, an optional sign, the digits, blanks. *)
Definition int_literal (s : string) (z : Z) (n : nat) : Prop :=
  ∃ lead sign body digits trail,
    s = lead +:+ sign +:+ body +:+ trail ∧
    all_blank lead = true ∧ all_blank trail = true ∧
    digitpart body digits ∧
    n = String.length digits ∧
    ((sign = "" ∧ z = decimal digits) ∨
     (sign = "+" ∧ z = decimal digits) ∨
     (sign = "-" ∧ z = (- decimal digits)%Z)).

(** The characters that an integer literal is made of: blanks, signs,
    digits and the underscore. *)
Definition literal_char (c : ascii) : bool :=
  is_space c || is_digit c || bool_decide (c ∈ ["+"; "-"; "_"]%char).

(** The string of [n] nines. *)
Fixpoint nines (n : nat) : string :=
  match n with
  | O => EmptyString
  | S n' => String "9" (nines n')
  end.

(** [a / b] rounded up, for a positive [b]. *)
Definition ceil_div (a b : Z) : Z := ((a + b - 1) / b)%Z.

(** The characters of a string. *)
Fixpoint chars (s : string) : list ascii :=
  match s with
  | EmptyString => []
  | String c s' => c :: chars s'
  end.

(** The requests that a computation issues when run in [w]. *)
Definition issued `{Environment} {A : Type} (m : M A) (w : World) : list Request :=
  drop (length (sent w)) (sent (snd (m w))).

(** [m] issues only requests that satisfy [P], in whatever world it runs;
    what was sent before stays in the log. *)
Definition only_issues `{Environment} {A : Type} (P : Request -> Prop) (m : M A) : Prop :=
  ∀ w, ∃ new, sent (snd (m w)) = sent w ++ new ∧ Forall P new.

(** [m] leaves every list object as it was. *)
Definition keeps_heap `{Environment} {A : Type} (m : M A) : Prop :=
  ∀ w, heap (snd (m w)) = heap w.

(** The size limit of an update request: [stock_cap] entries for a stock
    update of either marketplace, [price_cap] for a price update. *)
Definition within_caps (stock_cap price_cap : nat) (q : Request) : Prop :=
  match q with
  | OzonUpdateStocks stocks _ _ => length stocks <= stock_cap
  | MarketUpdateStocks stocks _ _ => length stocks <= stock_cap
  | OzonUpdatePrices prices _ _ => length prices <= price_cap
  | MarketUpdatePrices prices _ _ => length prices <= price_cap
  | _ => True
  end.

Definition is_price_update (q : Request) : bool :=
  match q with
  | OzonUpdatePrices _ _ _ | MarketUpdatePrices _ _ _ => true
  | _ => false
  end.

(** Successive catalog pages of marketplace A: each request carries the
    [last_id] of the page before; [w'] is the world after the last one. *)
Inductive seller_pages `{Environment} (client_id seller_token : string)
    : string -> World -> list SellerPage.t -> World -> Prop :=
| seller_pages_nil last_id w :
    seller_pages client_id seller_token last_id w [] w
| seller_pages_cons last_id w page w1 pages w2 :
    Seller.get_product_list last_id client_id seller_token w = (Returns page, w1) ->
    seller_pages client_id seller_token (SellerPage.last_id page) w1 pages w2 ->
    seller_pages client_id seller_token last_id w (page :: pages) w2.

(** Successive catalog pages of marketplace B: each request carries the
    [nextPageToken] of the page before. *)
Inductive market_pages `{Environment} (campaign_id market_token : string)
    : string -> World -> list MarketPage.t -> World -> Prop :=
| market_pages_nil page_token w :
    market_pages campaign_id market_token page_token w [] w
| market_pages_cons page_token w page w1 pages w2 :
    Market.get_product_list page_token campaign_id market_token w = (Returns page, w1) ->
    market_pages campaign_id market_token
      (default "" (MarketPage.nextPageToken page)) w1 pages w2 ->
    market_pages campaign_id market_token page_token w (page :: pages) w2.

(** The entries gathered from a run of pages. *)
Definition seller_items (pages : list SellerPage.t) : list SellerPage.item :=
  concat (map SellerPage.items pages).

Definition market_entries (pages : list MarketPage.t) : list MarketPage.entry :=
  concat (map MarketPage.offerMappingEntries pages).

(** The test that ends the loop of seller.py after the pages [pages ++ [page]]. *)
Definition seller_stop (pages : list SellerPage.t) (page : SellerPage.t) : Prop :=
  SellerPage.total page = Z.of_nat (length (seller_items (pages ++ [page]))).

(** ** Worlds for the examples *)

(** The first code point of every run of ten decimal digits in Unicode 14,
    the database of CPython 3.11. *)
Definition decimal_zeros : list N :=
  [0x30; 0x660; 0x6f0; 0x7c0; 0x966; 0x9e6; 0xa66; 0xae6; 0xb66; 0xbe6;
   0xc66; 0xce6; 0xd66; 0xde6; 0xe50; 0xed0; 0xf20; 0x1040; 0x1090; 0x17e0;
   0x1810; 0x1946; 0x19d0; 0x1a80; 0x1a90; 0x1b50; 0x1bb0; 0x1c40; 0x1c50;
   0xa620; 0xa8d0; 0xa900; 0xa9d0; 0xa9f0; 0xaa50; 0xabf0; 0xff10; 0x104a0;
   0x10d30; 0x11066; 0x110f0; 0x11136; 0x111d0; 0x112f0; 0x11450; 0x114d0;
   0x11650; 0x116c0; 0x11730; 0x118e0; 0x11950; 0x11c50; 0x11d50; 0x11da0;
   0x16a60; 0x16ac0; 0x16b50; 0x1d7ce; 0x1d7d8; 0x1d7e2; 0x1d7ec; 0x1d7f6;
   0x1e140; 0x1e2f0; 0x1e950; 0x1fbf0]%N.

(** The code points that are blanks in that database. *)
Definition blanks : list N :=
  [0x9; 0xa; 0xb; 0xc; 0xd; 0x1c; 0x1d; 0x1e; 0x1f; 0x20; 0x85; 0xa0; 0x1680;
   0x2000; 0x2001; 0x2002; 0x2003; 0x2004; 0x2005; 0x2006; 0x2007; 0x2008;
   0x2009; 0x200a; 0x2028; 0x2029; 0x202f; 0x205f; 0x3000]%N.

(** CPython 3.11 as it starts: at most 4300 digits in an integer literal. *)
Definition cpython_3_11 : Interpreter :=
  {| int_max_str_digits := 4300;
     unicode_isspace := fun ch => bool_decide (ch ∈ blanks);
     unicode_todecimal := fun ch =>
       (fun zero => (ch - zero)%N) <$>
       find (fun zero => (zero <=? ch)%N && (ch <? zero + 10)%N) decimal_zeros |}.

(** Servers that answer the [n]-th request by [answers n], whatever it asks,
    and a clock that shows [time n] after [n] requests; the interpreter is
    CPython 3.11, and every environment variable is set, to its own name. *)
Definition scripted (answers : nat -> result Response) (time : nat -> string)
    : Environment :=
  {| interpreter := cpython_3_11;
     getenv := fun name => Some name;
     Outside := nat; http := fun _ n => (answers n, S n); utcnow := time |}.


Definition world_of (E : Environment) (h : gmap loc (list string)) (o : @Outside E)
    : @World E :=
  @Build_World E h o [].

Definition feed_row (code quantity price : string) : Watch :=
  {| Kod := VStr code; Kolichestvo := VStr quantity; Tsena := VStr price |}.

Definition seller_page (offer_ids : list string) (total : Z) (last_id : string)
    : SellerPage.t :=
  {| SellerPage.items :=
       map (fun offer_id => {| SellerPage.product_id := 0;
                               SellerPage.offer_id := offer_id |}) offer_ids;
     SellerPage.total := total;
     SellerPage.last_id := last_id |}.

Definition market_page (skus : list string) (next : option string) : MarketPage.t :=
  {| MarketPage.offerMappingEntries :=
       map (fun sku => {| MarketPage.shopSku := sku |}) skus;
     MarketPage.nextPageToken := next |}.

(** Servers that accept every update, with a clock that ticks with every
    request. *)
Definition quiet : Environment :=
  scripted (fun _ => Ok Body) (fun n => "2024-01-01T00:00:0" +:+ pretty n).

(** A catalog of marketplace A in two pages, [["A1"; "A2"]] then [["A3"]],
    each reporting a total of 3 and a non-empty [last_id]. *)
Definition two_seller_pages : Environment :=
  scripted (fun n =>
              match n with
              | 0 => Ok (ProductList (seller_page ["A1"; "A2"] 3 "p1"))
              | 1 => Ok (ProductList (seller_page ["A3"] 3 "p2"))
              | _ => Ok Body
              end)
           (fun _ => "2024-01-01T00:00:00").

(** A catalog of marketplace B in two pages, the second without a
    [nextPageToken]. *)
Definition two_market_pages : Environment :=
  scripted (fun n =>
              match n with
              | 0 => Ok (OfferMappingEntries (market_page ["A1"; "A2"] (Some "p1")))
              | 1 => Ok (OfferMappingEntries (market_page ["A3"] None))
              | _ => Ok Body
              end)
           (fun _ => "2024-01-01T00:00:00").

(** A server of marketplace A whose every page is empty, with an empty
    [last_id] and a reported total of 1. *)
Definition no_cursor_wrong_total : Environment :=
  scripted (fun _ => Ok (ProductList (seller_page [] 1 "")))
           (fun _ => "2024-01-01T00:00:00").

(** A server of marketplace A whose first page has one item, a total of 1
    and a non-empty [last_id]. *)
Definition cursor_and_total_reached : Environment :=
  scripted (fun _ => Ok (ProductList (seller_page ["A1"] 1 "more")))
           (fun _ => "2024-01-01T00:00:00").

(** ** Push loops and the environment *)

(** The outside once the requests [mk chunk] of a list of chunks have been
    answered, one after the other. *)
Definition outside_after `{Environment} {A : Type} (mk : A -> Request)
    (chunks : list A) (o : Outside) : Outside :=
  fold_left (fun o chunk => snd (http (mk chunk) o)) chunks o.

(** The answer to the request of the [i]-th chunk, counted from 0, when the
    requests of the chunks before it have been answered. *)
Definition answer_at `{Environment} {A : Type} (mk : A -> Request)
    (chunks : list A) (o : Outside) (i : nat) : option (result Response) :=
  (fun chunk => fst (http (mk chunk) (outside_after mk (take i chunks) o)))
  <$> chunks !! i.

(** [m], a loop over [chunks] run in [w], sends the requests [mk chunk] in
    the order of the chunks, each one after the one before it has been
    answered, and stops at the first one that the servers or the network
    fail: the first [k] requests are answered; then either these are all
    and [m] returns, or the next one raises [e], [m] raises [e] too, and
    the chunks after that one are never sent.  The log of earlier requests
    and every list object stay as they were. *)
Definition pushed_in_order `{Environment} {A : Type} (mk : A -> Request)
    (chunks : list A) (m : M unit) (w : World) : Prop :=
  ∃ k,
    (∀ i, i < k -> ∃ r, answer_at mk chunks (outside w) i = Some (Ok r)) ∧
    heap (snd (m w)) = heap w ∧
    ((k = length chunks ∧
      fst (m w) = Returns tt ∧
      sent (snd (m w)) = sent w ++ map mk chunks ∧
      outside (snd (m w)) = outside_after mk chunks (outside w)) ∨
     (∃ e,
        answer_at mk chunks (outside w) k = Some (Raise e) ∧
        fst (m w) = Raises e ∧
        sent (snd (m w)) = sent w ++ map mk (take (S k) chunks) ∧
        outside (snd (m w)) = outside_after mk (take (S k) chunks) (outside w))).



(** Servers whose second answer is an HTTP error. *)
Definition second_request_fails : Environment :=
  scripted (fun n =>
              match n with
              | 1 => Raise HTTPError
              | _ => Ok Body
              end)
           (fun _ => "2024-01-01T00:00:00").



(** * Properties *)

(** ** The built-ins *)

Section Builtins.
Context `{Interpreter}.

Ltac by_bits c :=
  destruct c as [[] [] [] [] [] [] [] []]; vm_compute in *; congruence.

Lemma digit_not_space (c : ascii) : is_digit c = true -> is_space c = false.
Proof. intros Hc. by_bits c. Qed.

Lemma digit_cases (c : ascii) :
  is_digit c = true ->
  c ∈ ["0"; "1"; "2"; "3"; "4"; "5"; "6"; "7"; "8"; "9"]%char.
Proof.
  intros Hc.
  destruct c as [[] [] [] [] [] [] [] []]; vm_compute in Hc; try discriminate;
    repeat first [by left | right].
Qed.

Lemma lstrip_digit (c : ascii) (s : string) :
  is_digit c = true -> lstrip (String c s) = String c s.
Proof. intros Hc. simpl. by rewrite digit_not_space. Qed.

Lemma rstrip_digits (s : string) : all_digits s = true -> rstrip s = s.
Proof.
  induction s as [|c s IH]; [done|].
  simpl. intros [Hc Hs]%andb_prop. rewrite IH by done.
  destruct s; [by rewrite digit_not_space | done].
Qed.

Lemma int_digits_all_digits (s : string) (acc : Z) (after_digit : bool) :
  all_digits s = true ->
  s ≠ EmptyString ∨ after_digit = true ->
  int_digits s acc after_digit
  = Some (acc * 10 ^ Z.of_nat (String.length s) + decimal s)%Z.
Proof.
  revert acc after_digit.
  induction s as [|c s IH]; intros acc after_digit Hs Hne.
  - destruct Hne as [ ? | -> ]; [done|]. simpl. f_equal. lia.
  - simpl in Hs. apply andb_prop in Hs as [Hc Hs].
    cbn [int_digits]. rewrite Hc. rewrite IH by auto.
    f_equal. cbn [String.length decimal].
    rewrite Nat2Z.inj_succ, Z.pow_succ_r by lia. ring.
Qed.

Lemma count_digits_all_digits (s : string) :
  all_digits s = true -> count_digits s = String.length s.
Proof.
  induction s as [|c s IH]; [done|].
  simpl. intros [Hc Hs]%andb_prop. rewrite Hc. by rewrite IH.
Qed.

Lemma is_ascii_digit (c : ascii) :
  is_digit c = true -> (nat_of_ascii c <? 128)%nat = true.
Proof. intros Hc. by_bits c. Qed.

Lemma is_ascii_all_digits (s : string) : all_digits s = true -> is_ascii s = true.
Proof.
  induction s as [|c s IH]; [done|].
  simpl. intros [Hc Hs]%andb_prop. by rewrite is_ascii_digit, IH.
Qed.

Lemma sign_of_digit {A : Type} (c : ascii) (s : string) (plus minus : string -> A)
    (other : A) :
  is_digit c = true ->
  match String c s with
  | String "+" r => plus r
  | String "-" r => minus r
  | _ => other
  end = other.
Proof.
  intros Hc. pose proof (digit_cases c Hc) as Hin.
  repeat (apply elem_of_cons in Hin as [->|Hin]; [reflexivity|]).
  by apply elem_of_nil in Hin.
Qed.

(** A string of digits is read as the number it denotes, unless it has
    more digits than the interpreter allows. *)
Lemma long_from_string_digits (s : string) :
  s ≠ EmptyString -> all_digits s = true ->
  long_from_string s
  = if over_limit (String.length s) then Raise ValueError else Ok (decimal s).
Proof.
  intros Hne Hs. destruct s as [|c s]; [done|].
  pose proof Hs as Hcs. simpl in Hcs. apply andb_prop in Hcs as [Hc Hs'].
  unfold long_from_string. rewrite lstrip_digit, rstrip_digits by done.
  rewrite (sign_of_digit c s (fun r => (1%Z, r)) (fun r => ((-1)%Z, r))) by done.
  rewrite int_digits_all_digits by auto.
  rewrite count_digits_all_digits by done.
  destruct (over_limit _); [done|]. f_equal. lia.
Qed.

Lemma int_of_str_digits (s : string) :
  s ≠ EmptyString -> all_digits s = true ->
  int_of_str s
  = if over_limit (String.length s) then Raise ValueError else Ok (decimal s).
Proof.
  intros Hne Hs. unfold int_of_str. rewrite is_ascii_all_digits by done.
  by apply long_from_string_digits.
Qed.

Lemma long_from_string_raises (s : string) (e : exn) :
  long_from_string s = Raise e -> e = ValueError.
Proof.
  unfold long_from_string.
  destruct (match rstrip (lstrip s) with
            | String "+" r => (1%Z, r)
            | String "-" r => ((-1)%Z, r)
            | _ => (1%Z, rstrip (lstrip s))
            end) as [sign digits].
  destruct (int_digits digits 0 false); [|congruence].
  destruct (over_limit _); congruence.
Qed.

(** Whatever the string, [int] fails with a [ValueError] or not at all. *)
Lemma int_of_str_raises (s : string) (e : exn) :
  int_of_str s = Raise e -> e = ValueError.
Proof.
  unfold int_of_str. destruct (is_ascii s).
  - apply long_from_string_raises.
  - destruct (code_points s 0 0); [apply long_from_string_raises | congruence].
Qed.

(** *** Integer literals *)

Lemma append_assoc (a b c : string) : (a +:+ b) +:+ c = a +:+ b +:+ c.
Proof.
  induction a as [|x a IH]; [done|].
  change (String x ((a +:+ b) +:+ c) = String x (a +:+ b +:+ c)). by rewrite IH.
Qed.

Lemma chars_append (a b : string) : chars (a +:+ b) = chars a ++ chars b.
Proof.
  induction a as [|x a IH]; [done|].
  change (x :: chars (a +:+ b) = x :: (chars a ++ chars b)). by rewrite IH.
Qed.

Lemma lstrip_lead (s : string) :
  ∃ lead, s = lead +:+ lstrip s ∧ all_blank lead = true.
Proof.
  induction s as [|c s (lead & Heq & Hlead)].
  - by exists "".
  - simpl. destruct (is_space c) eqn:Hc.
    + exists (String c lead). split.
      * change (String c s = String c (lead +:+ lstrip s)). congruence.
      * simpl. by rewrite Hc.
    + by exists "".
Qed.

Lemma rstrip_trail (s : string) :
  ∃ trail, s = rstrip s +:+ trail ∧ all_blank trail = true.
Proof.
  induction s as [|c s (trail & Heq & Htrail)].
  - by exists "".
  - simpl. destruct (rstrip s) as [|c' r] eqn:Hr.
    + change (s = trail) in Heq. destruct (is_space c) eqn:Hc.
      * exists (String c trail). split; [by rewrite Heq at 1|].
        simpl. by rewrite Hc.
      * exists trail. split; [|done].
        change (String c s = String c trail). congruence.
    + exists trail. split; [|done].
      change (String c s = String c (String c' r +:+ trail)). congruence.
Qed.

Lemma lstrip_blank (lead s : string) :
  all_blank lead = true -> lstrip (lead +:+ s) = lstrip s.
Proof.
  induction lead as [|c lead IH]; [done|].
  simpl. intros [Hc Hlead]%andb_prop.
  change (lstrip (String c (lead +:+ s)) = lstrip s).
  simpl. rewrite Hc. by apply IH.
Qed.

Lemma rstrip_all_blank (trail : string) :
  all_blank trail = true -> rstrip trail = "".
Proof.
  induction trail as [|c trail IH]; [done|].
  simpl. intros [Hc Htrail]%andb_prop. by rewrite IH, Hc.
Qed.

Lemma rstrip_blank (s trail : string) :
  all_blank trail = true -> rstrip (s +:+ trail) = rstrip s.
Proof.
  intros Htrail. induction s as [|c s IH].
  - by apply rstrip_all_blank.
  - change (rstrip (String c (s +:+ trail)) = rstrip (String c s)).
    simpl. by rewrite IH.
Qed.

Lemma rstrip_cons (c : ascii) (s : string) :
  s ≠ EmptyString -> rstrip s = s -> rstrip (String c s) = String c s.
Proof. intros Hne Heq. simpl. rewrite Heq. by destruct s. Qed.

Lemma digitpart_not_empty (body digits : string) :
  digitpart body digits -> body ≠ EmptyString.
Proof. by intros []. Qed.

Lemma digitpart_rstrip (body digits : string) :
  digitpart body digits -> rstrip body = body.
Proof.
  induction 1 as [c Hc | c body digits Hc Hbody IH | c body digits Hc Hbody IH].
  - simpl. by rewrite digit_not_space.
  - apply rstrip_cons; [by eapply digitpart_not_empty | done].
  - apply rstrip_cons; [done|].
    apply rstrip_cons; [by eapply digitpart_not_empty | done].
Qed.

Lemma digitpart_first (body digits : string) :
  digitpart body digits -> ∃ c r, body = String c r ∧ is_digit c = true.
Proof. intros []; eauto. Qed.

Lemma underscore_is_no_digit : is_digit "_" = false.
Proof. reflexivity. Qed.

(** The loop over the digits accepts what the grammar describes... *)
Lemma digitpart_int_digits (body digits : string) :
  digitpart body digits ->
  ∀ acc after_digit,
    int_digits body acc after_digit
    = Some (acc * 10 ^ Z.of_nat (String.length digits) + decimal digits)%Z ∧
    count_digits body = String.length digits.
Proof.
  induction 1 as [c Hc | c body digits Hc Hbody IH | c body digits Hc Hbody IH];
    intros acc after_digit.
  - cbn [int_digits count_digits]. rewrite Hc. split; [|done].
    cbn [String.length decimal]. f_equal.
    change (Z.of_nat 1) with 1%Z. change (Z.of_nat 0) with 0%Z. lia.
  - cbn [int_digits count_digits]. rewrite Hc.
    destruct (IH (10 * acc + digit_value c)%Z true) as [-> ->]. split; [|done].
    f_equal. cbn [String.length decimal].
    rewrite Nat2Z.inj_succ, Z.pow_succ_r by lia. ring.
  - cbn [int_digits count_digits]. rewrite Hc, underscore_is_no_digit.
    change (Ascii.eqb "_" "_" && true) with true. cbv iota.
    destruct (IH (10 * acc + digit_value c)%Z false) as [-> ->]. split; [|done].
    f_equal. cbn [String.length decimal].
    rewrite Nat2Z.inj_succ, Z.pow_succ_r by lia. ring.
Qed.

(** ... and nothing else. *)
Lemma int_digits_digitpart (body : string) :
  ∀ acc z,
    (int_digits body acc false = Some z -> ∃ digits, digitpart body digits) ∧
    (int_digits body acc true = Some z ->
       body = EmptyString ∨ (∃ digits, digitpart body digits) ∨
       (∃ rest digits, body = String "_" rest ∧ digitpart rest digits)).
Proof.
  induction body as [|c body IH]; intros acc z.
  - split; [done | by left].
  - cbn [int_digits]. destruct (is_digit c) eqn:Hc.
    + assert (Hstep : int_digits body (10 * acc + digit_value c) true = Some z ->
                      ∃ digits, digitpart (String c body) digits).
      { intros Hrun.
        destruct (proj2 (IH _ _) Hrun)
          as [-> | [[digits Hd] | (rest & digits & -> & Hd)]].
        - eexists. by apply digitpart_last.
        - eexists. by apply digitpart_digit.
        - eexists. by apply digitpart_underscore. }
      split; [done | by right; left; apply Hstep].
    + split; [by rewrite andb_false_r|].
      rewrite andb_true_r. destruct (Ascii.eqb_spec c "_") as [->|?]; [|done].
      intros Hrun. right. right.
      destruct (proj1 (IH _ _) Hrun) as [digits Hd]. by exists body, digits.
Qed.

Lemma sign_cases (body : string) :
  ∃ sign digits,
    body = sign +:+ digits ∧
    ((sign = "" ∧
      match body with
      | String "+" r => (1%Z, r)
      | String "-" r => ((-1)%Z, r)
      | _ => (1%Z, body)
      end = (1%Z, digits)) ∨
     (sign = "+" ∧
      match body with
      | String "+" r => (1%Z, r)
      | String "-" r => ((-1)%Z, r)
      | _ => (1%Z, body)
      end = (1%Z, digits)) ∨
     (sign = "-" ∧
      match body with
      | String "+" r => (1%Z, r)
      | String "-" r => ((-1)%Z, r)
      | _ => (1%Z, body)
      end = ((-1)%Z, digits))).
Proof.
  destruct body as [|c r].
  - exists "", "". split; [done | by left].
  - destruct (decide (c = "+"%char)) as [->|Hplus].
    { exists "+", r. split; [done | right; by left]. }
    destruct (decide (c = "-"%char)) as [->|Hminus].
    { exists "-", r. split; [done | right; by right]. }
    exists "", (String c r). split; [done|]. left. split; [done|].
    destruct c as [[] [] [] [] [] [] [] []]; done.
Qed.

(** [PyLong_FromString] accepts exactly the integer literals that are
    within the bound on the digits, and gives the number they denote. *)
Lemma long_from_string_literal (s : string) (z : Z) :
  long_from_string s = Ok z <-> ∃ n, int_literal s z n ∧ over_limit n = false.
Proof.
  split.
  - unfold long_from_string. intros Hrun.
    destruct (lstrip_lead s) as (lead & Hs & Hlead).
    destruct (rstrip_trail (lstrip s)) as (trail & Ht & Htrail).
    destruct (sign_cases (rstrip (lstrip s))) as (sign & digits & Hbody & Hsign).
    assert (Hparse : ∃ factor,
      match int_digits digits 0 false with
      | Some z0 =>
          if over_limit (count_digits digits) then Raise ValueError
          else Ok (factor * z0)%Z
      | None => Raise ValueError
      end = Ok z ∧
      ((sign = "" ∧ factor = 1%Z) ∨ (sign = "+" ∧ factor = 1%Z) ∨
       (sign = "-" ∧ factor = (-1)%Z))).
    { destruct Hsign as [[-> Heq] | [[-> Heq] | [-> Heq]]];
        rewrite Heq in Hrun; eexists; (split; [exact Hrun|]); auto. }
    destruct Hparse as (factor & Hparse & Hfactor).
    destruct (int_digits digits 0 false) as [z0|] eqn:Hdigits; [|done].
    destruct (over_limit (count_digits digits)) eqn:Hlimit; [done|].
    injection Hparse as <-.
    destruct (proj1 (int_digits_digitpart digits 0 z0) Hdigits) as [ds Hds].
    destruct (digitpart_int_digits _ _ Hds 0%Z false) as [Hvalue Hcount].
    rewrite Hdigits in Hvalue. injection Hvalue as ->.
    exists (String.length ds). split; [|by rewrite <- Hcount].
    exists lead, sign, digits, ds, trail. split.
    { rewrite Hs at 1. rewrite Ht at 1. rewrite Hbody. by rewrite append_assoc. }
    repeat split; try done.
    destruct Hfactor as [[-> ->] | [[-> ->] | [-> ->]]];
      [left | right; left | right; right]; (split; [done | lia]).
  - intros (n & (lead & sign & body & digits & trail & -> & Hlead & Htrail
                 & Hbody & -> & Hsign) & Hlimit).
    unfold long_from_string.
    destruct (digitpart_first _ _ Hbody) as (c & r & Hc & Hdigit).
    destruct (digitpart_int_digits _ _ Hbody 0%Z false) as [Hvalue Hcount].
    rewrite lstrip_blank by done.
    assert (Hstripped : rstrip (lstrip (sign +:+ body +:+ trail)) = sign +:+ body).
    { rewrite <- append_assoc.
      assert (Hl : lstrip ((sign +:+ body) +:+ trail) = (sign +:+ body) +:+ trail).
      { destruct Hsign as [[-> _] | [[-> _] | [-> _]]]; [|done..].
        rewrite Hc. change (("" +:+ String c r) +:+ trail) with (String c (r +:+ trail)).
        by apply lstrip_digit. }
      rewrite Hl, rstrip_blank by done.
      destruct Hsign as [[-> _] | [[-> _] | [-> _]]].
      - by eapply digitpart_rstrip.
      - apply rstrip_cons; [by eapply digitpart_not_empty | by eapply digitpart_rstrip].
      - apply rstrip_cons; [by eapply digitpart_not_empty | by eapply digitpart_rstrip]. }
    rewrite Hstripped.
    destruct Hsign as [[-> ->] | [[-> ->] | [-> ->]]].
    + change ("" +:+ body) with body.
      assert (Hunsigned :
        match body with
        | String "+" r => (1%Z, r)
        | String "-" r => ((-1)%Z, r)
        | _ => (1%Z, body)
        end = (1%Z, body)).
      { rewrite Hc.
        by apply (sign_of_digit c r (fun r => (1%Z, r)) (fun r => ((-1)%Z, r))). }
      rewrite Hunsigned, Hvalue, Hcount, Hlimit. f_equal; lia.
    + change ("+" +:+ body) with (String "+" body). cbv iota.
      rewrite Hvalue, Hcount, Hlimit. f_equal; lia.
    + change ("-" +:+ body) with (String "-" body). cbv iota.
      rewrite Hvalue, Hcount, Hlimit. f_equal; lia.
Qed.

Lemma all_blank_chars (s : string) :
  all_blank s = true -> Forall (fun c => is_space c = true) (chars s).
Proof.
  induction s as [|c s IH]; [constructor|].
  simpl. intros [Hc Hs]%andb_prop. constructor; auto.
Qed.

Lemma digitpart_chars (body digits : string) :
  digitpart body digits ->
  Forall (fun c => is_digit c = true ∨ c = "_"%char) (chars body).
Proof.
  induction 1 as [c Hc | c body digits Hc Hbody IH | c body digits Hc Hbody IH];
    simpl.
  - apply Forall_cons. split; [by left | constructor].
  - apply Forall_cons. split; [by left | done].
  - apply Forall_cons. split; [by left|].
    apply Forall_cons. split; [by right | done].
Qed.

(** A literal is made of blanks, signs, digits and underscores. *)
Lemma int_literal_chars (s : string) (z : Z) (n : nat) :
  int_literal s z n -> Forall (fun c => literal_char c = true) (chars s).
Proof.
  intros (lead & sign & body & digits & trail & -> & Hlead & Htrail
          & Hbody & _ & Hsign).
  rewrite !chars_append, !Forall_app. repeat split.
  - eapply Forall_impl; [by apply all_blank_chars|].
    intros c Hc. unfold literal_char. by rewrite Hc.
  - destruct Hsign as [[-> _] | [[-> _] | [-> _]]]; simpl; by repeat constructor.
  - eapply Forall_impl; [by eapply digitpart_chars|].
    intros c [Hc | ->]; [|done]. unfold literal_char. by rewrite Hc, orb_true_r.
  - eapply Forall_impl; [by apply all_blank_chars|].
    intros c Hc. unfold literal_char. by rewrite Hc.
Qed.

(** A literal has a digit. *)
Lemma int_literal_digit (s : string) (z : Z) (n : nat) :
  int_literal s z n -> ∃ c, c ∈ chars s ∧ is_digit c = true.
Proof.
  intros (lead & sign & body & digits & trail & -> & _ & _ & Hbody & _).
  destruct (digitpart_first _ _ Hbody) as (c & r & -> & Hc).
  exists c. split; [|done].
  rewrite !chars_append, !elem_of_app. right. right. left. simpl. left.
Qed.

Lemma int_of_str_ascii (s : string) :
  is_ascii s = true -> int_of_str s = long_from_string s.
Proof. intros Hs. unfold int_of_str. by rewrite Hs. Qed.

Lemma long_from_string_not_literal (s : string) :
  (∀ z n, ¬ int_literal s z n) -> long_from_string s = Raise ValueError.
Proof.
  intros Hnot. destruct (long_from_string s) as [z|e] eqn:Hrun.
  - apply long_from_string_literal in Hrun as (n & Hlit & _). by destruct (Hnot z n).
  - by rewrite (long_from_string_raises _ _ Hrun).
Qed.

Lemma int_of_str_bad_char (s : string) (c : ascii) :
  is_ascii s = true -> c ∈ chars s -> literal_char c = false ->
  int_of_str s = Raise ValueError.
Proof.
  intros Hs Hc Hbad. rewrite int_of_str_ascii by done.
  apply long_from_string_not_literal. intros z n Hlit.
  apply int_literal_chars in Hlit. rewrite Forall_forall in Hlit.
  apply Hlit in Hc. congruence.
Qed.

Lemma int_of_str_no_digit (s : string) :
  is_ascii s = true ->
  Forall (fun c => is_digit c = false) (chars s) -> int_of_str s = Raise ValueError.
Proof.
  intros Hs Hall. rewrite int_of_str_ascii by done.
  apply long_from_string_not_literal. intros z n Hlit.
  apply int_literal_digit in Hlit as (c & Hc & Hdigit).
  rewrite Forall_forall in Hall. apply Hall in Hc. congruence.
Qed.

Lemma chars_sub_non_digits (s : string) :
  chars (sub_non_digits s) = List.filter is_digit (chars s).
Proof.
  induction s as [|c s IH]; [done|].
  simpl. destruct (is_digit c); simpl; by rewrite IH.
Qed.

Lemma split_head_prefix (sep : ascii) (s : string) :
  (sep ∉ chars (split_head sep s)) ∧
  (s = split_head sep s ∨
   (∃ rest, s = split_head sep s +:+ String sep rest)).
Proof.
  induction s as [|c s [IHnot IHeq]]; simpl.
  - split; [apply not_elem_of_nil | by left].
  - destruct (Ascii.eqb_spec c sep) as [->|Hne]; simpl.
    + split; [apply not_elem_of_nil | right; by exists s].
    + split.
      * apply not_elem_of_cons. split; [congruence | done].
      * destruct IHeq as [Heq | [rest Heq]].
        -- left. congruence.
        -- right. exists rest.
           change (String c s = String c (split_head sep s +:+ String sep rest)).
           congruence.
Qed.

Lemma chars_empty (s : string) : chars s = [] -> s = EmptyString.
Proof. by destruct s. Qed.

End Builtins.

(** ** Lists *)

Section Lists.

Lemma remove_elem_of (x : string) (lst : list string) :
  x ∈ lst -> remove x lst = Some (without_first x lst).
Proof.
  unfold without_first. induction lst as [|y lst IH]; intros Hin.
  - by apply elem_of_nil in Hin.
  - simpl. destruct (decide (x = y)) as [->|Hne]; [done|].
    apply elem_of_cons in Hin as [->|Hin]; [done|].
    by rewrite IH.
Qed.

Lemma remove_not_elem_of (x : string) (lst : list string) :
  x ∉ lst -> remove x lst = None.
Proof.
  induction lst as [|y lst IH]; intros Hnot; [done|].
  apply not_elem_of_cons in Hnot as [Hne Hnot].
  simpl. rewrite decide_False by done. by rewrite IH.
Qed.

Lemma without_first_cons (x y : string) (lst : list string) :
  without_first x (y :: lst)
  = if decide (x = y) then lst
    else if decide (x ∈ lst) then y :: without_first x lst else y :: lst.
Proof.
  unfold without_first. simpl.
  destruct (decide (x = y)); [done|].
  destruct (decide (x ∈ lst)) as [Hin|Hnot].
  - by rewrite (remove_elem_of _ _ Hin).
  - by rewrite (remove_not_elem_of _ _ Hnot).
Qed.

Lemma without_first_perm (x : string) (lst : list string) :
  x ∈ lst -> lst ≡ₚ x :: without_first x lst.
Proof.
  induction lst as [|y lst IH]; intros Hin.
  - by apply elem_of_nil in Hin.
  - rewrite without_first_cons.
    destruct (decide (x = y)) as [->|Hne]; [done|].
    apply elem_of_cons in Hin as [->|Hin]; [done|].
    rewrite decide_True by done.
    rewrite (IH Hin) at 1. apply Permutation_swap.
Qed.

Lemma without_first_other (x y : string) (lst : list string) :
  y ∈ lst -> y ≠ x -> y ∈ without_first x lst.
Proof.
  intros Hy Hne. destruct (decide (x ∈ lst)) as [Hx|Hx].
  - rewrite (without_first_perm x lst Hx) in Hy.
    apply elem_of_cons in Hy as [->|Hy]; done.
  - unfold without_first. by rewrite remove_not_elem_of.
Qed.

Lemma filter_ext_elem_of {A : Type} (P Q : A -> Prop)
    `{!∀ x, Decision (P x)} `{!∀ x, Decision (Q x)} (lst : list A) :
  (∀ x, x ∈ lst -> P x ↔ Q x) -> filter P lst = filter Q lst.
Proof.
  induction lst as [|x lst IH]; intros Hext; [done|].
  rewrite !filter_cons.
  rewrite IH by (intros y Hy; apply Hext; by right).
  destruct (decide (P x)) as [HP|HP], (decide (Q x)) as [HQ|HQ]; try done.
  - exfalso. apply HQ, Hext; [left | done].
  - exfalso. apply HP, Hext; [left | done].
Qed.

Lemma filter_all {A : Type} (P : A -> Prop) `{!∀ x, Decision (P x)} (lst : list A) :
  (∀ x, x ∈ lst -> P x) -> filter P lst = lst.
Proof.
  induction lst as [|x lst IH]; intros Hall; [done|].
  rewrite filter_cons_True by (apply Hall; left).
  f_equal. apply IH. intros y Hy. apply Hall. by right.
Qed.

Lemma filter_none {A : Type} (P : A -> Prop) `{!∀ x, Decision (P x)} (lst : list A) :
  (∀ x, x ∈ lst -> ¬ P x) -> filter P lst = [].
Proof.
  induction lst as [|x lst IH]; intros Hall; [done|].
  rewrite filter_cons_False by (apply Hall; left).
  apply IH. intros y Hy. apply Hall. by right.
Qed.

Lemma without_first_NoDup (x : string) (lst : list string) :
  NoDup lst -> without_first x lst = filter (fun y => y ≠ x) lst.
Proof.
  induction 1 as [|y lst Hy Hnd IH]; [done|].
  rewrite without_first_cons, filter_cons.
  destruct (decide (x = y)) as [->|Hne].
  - rewrite decide_False by (intros Hc; by apply Hc).
    symmetry. apply filter_all. intros z Hz ->. done.
  - rewrite (decide_True (P := y ≠ x)) by congruence.
    destruct (decide (x ∈ lst)) as [Hin|Hnot]; [by rewrite IH|].
    f_equal. symmetry. apply filter_all. intros z Hz ->. done.
Qed.

Lemma NoDup_without_first (x : string) (lst : list string) :
  NoDup lst -> NoDup (without_first x lst).
Proof.
  intros Hnd. rewrite without_first_NoDup by done. by apply NoDup_filter.
Qed.

Lemma occurrences_cons {A : Type} (key : A -> string) (k : string) (x : A) (lst : list A) :
  occurrences key k (x :: lst)
  = if decide (key x = k) then S (occurrences key k lst) else occurrences key k lst.
Proof. unfold occurrences. rewrite filter_cons. by destruct (decide (key x = k)). Qed.

Lemma occurrences_app {A : Type} (key : A -> string) (k : string) (l1 l2 : list A) :
  occurrences key k (l1 ++ l2) = occurrences key k l1 + occurrences key k l2.
Proof. unfold occurrences. by rewrite filter_app, length_app. Qed.

Lemma occurrences_map {A B : Type} (f : A -> B) (key : B -> string) (k : string)
    (lst : list A) :
  occurrences key k (map f lst) = occurrences (fun x => key (f x)) k lst.
Proof.
  induction lst as [|x lst IH]; [done|].
  simpl. rewrite !occurrences_cons. by rewrite IH.
Qed.

Lemma occurrences_keys {A : Type} (key : A -> string) (k : string) (lst : list A) :
  occurrences key k lst = occurrences (fun x => x) k (map key lst).
Proof. by rewrite occurrences_map. Qed.

Lemma occurrences_zero {A : Type} (key : A -> string) (k : string) (lst : list A) :
  occurrences key k lst = 0 <-> ∀ x, x ∈ lst -> key x ≠ k.
Proof.
  induction lst as [|x lst IH].
  - split; [|done]. intros _ y Hy. by apply elem_of_nil in Hy.
  - rewrite occurrences_cons. destruct (decide (key x = k)) as [Heq|Hne].
    + split; [done|]. intros Hall. exfalso. by apply (Hall x); [left|].
    + rewrite IH. split.
      * intros Hall y Hy. apply elem_of_cons in Hy as [->|Hy]; auto.
      * intros Hall y Hy. apply Hall. by right.
Qed.

Lemma occurrences_pos {A : Type} (key : A -> string) (k : string) (lst : list A) :
  0 < occurrences key k lst <-> ∃ x, x ∈ lst ∧ key x = k.
Proof.
  split.
  - intros Hpos. destruct (occurrences key k lst) as [|n] eqn:Hocc; [lia|].
    unfold occurrences in Hocc.
    destruct (filter (fun x => key x = k) lst) as [|x l'] eqn:Hf; [done|].
    assert (Hx : x ∈ filter (fun x => key x = k) lst) by (rewrite Hf; left).
    apply list_elem_of_filter in Hx as [Hkey Hin]. eauto.
  - intros (x & Hin & Hkey).
    destruct (occurrences key k lst) eqn:Hocc; [|lia].
    exfalso. by apply (proj1 (occurrences_zero key k lst) Hocc x).
Qed.

Lemma occurrences_perm {A : Type} (key : A -> string) (k : string) (l1 l2 : list A) :
  l1 ≡ₚ l2 -> occurrences key k l1 = occurrences key k l2.
Proof. unfold occurrences. by intros ->. Qed.


(** With one occurrence of a key, two entries carrying it are the same. *)
Lemma occurrences_one_unique {A : Type} (key : A -> string) (k : string)
    (lst : list A) (x y : A) :
  occurrences key k lst = 1 -> x ∈ lst -> y ∈ lst -> key x = k -> key y = k -> x = y.
Proof.
  induction lst as [|z lst IH]; intros Hocc Hx Hy Hkx Hky.
  - by apply elem_of_nil in Hx.
  - rewrite occurrences_cons in Hocc.
    destruct (decide (key z = k)) as [Hz|Hz].
    + assert (Hzero : occurrences key k lst = 0) by lia.
      pose proof (proj1 (occurrences_zero key k lst) Hzero) as Hnone.
      apply elem_of_cons in Hx as [->|Hx]; [|by destruct (Hnone x Hx)].
      apply elem_of_cons in Hy as [->|Hy]; [done | by destruct (Hnone y Hy)].
    + apply elem_of_cons in Hx as [->|Hx]; [done|].
      apply elem_of_cons in Hy as [->|Hy]; [done | auto].
Qed.

End Lists.

(** ** Matching the feed against the offer ids *)

Section Matching.

Lemma matched_unmatched_perm (feed : list Watch) (ids : list string) :
  codes (matched feed ids) ++ unmatched feed ids ≡ₚ ids.
Proof.
  revert ids. induction feed as [|watch rest IH]; intros ids; [done|].
  simpl. destruct (decide (code watch ∈ ids)) as [Hin|Hnot]; [|apply IH].
  simpl. rewrite IH. symmetry. by apply without_first_perm.
Qed.

Lemma matched_elem_of (feed : list Watch) (ids : list string) (watch : Watch) :
  watch ∈ matched feed ids -> watch ∈ feed.
Proof.
  revert ids. induction feed as [|first rest IH]; intros ids; [done|].
  simpl. destruct (decide (code first ∈ ids)).
  - intros [->|Hin]%elem_of_cons; [left | right; eauto].
  - intros Hin. right. eauto.
Qed.


Lemma unmatched_NoDup (feed : list Watch) (ids : list string) :
  NoDup ids ->
  unmatched feed ids = filter (fun offer_id => offer_id ∉ codes feed) ids.
Proof.
  revert ids. induction feed as [|watch rest IH]; intros ids Hnd.
  - simpl. symmetry. apply filter_all. intros x _. apply not_elem_of_nil.
  - simpl. destruct (decide (code watch ∈ ids)) as [Hin|Hnot].
    + rewrite IH by by apply NoDup_without_first.
      rewrite without_first_NoDup by done.
      rewrite list_filter_filter. apply filter_ext_elem_of.
      intros x _. rewrite not_elem_of_cons. tauto.
    + rewrite IH by done. apply filter_ext_elem_of.
      intros x Hx. rewrite not_elem_of_cons.
      split; [|tauto]. intros Hrest. split; [|done]. by intros ->.
Qed.

Lemma matched_once (feed : list Watch) (ids : list string) (c : string) :
  c ∈ ids ->
  occurrences code c feed = 1 ->
  occurrences code c (matched feed ids) = 1.
Proof.
  revert ids. induction feed as [|watch rest IH]; intros ids Hin Hocc; [done|].
  rewrite occurrences_cons in Hocc. simpl.
  destruct (decide (code watch = c)) as [Hc|Hc].
  - rewrite Hc, decide_True by done.
    rewrite occurrences_cons, decide_True by done. f_equal.
    apply occurrences_zero. intros x Hx%matched_elem_of.
    assert (Hzero : occurrences code c rest = 0) by lia.
    by apply (proj1 (occurrences_zero code c rest) Hzero).
  - destruct (decide (code watch ∈ ids)).
    + rewrite occurrences_cons, decide_False by done.
      apply IH; [|done]. apply without_first_other; [done | congruence].
    + by apply IH.
Qed.

Lemma traverse_ok_keys {A B : Type} (f : A -> result B)
    (keyA : A -> string) (keyB : B -> string) (lst : list A) (ys : list B) :
  (∀ x y, f x = Ok y -> keyB y = keyA x) ->
  traverse f lst = Ok ys -> map keyB ys = map keyA lst.
Proof.
  intros Hkey. revert ys. induction lst as [|x lst IH]; intros ys; simpl.
  - by intros [= <-].
  - destruct (f x) as [y|] eqn:Hfx; [|done].
    destruct (traverse f lst) as [ys'|]; [|done].
    intros [= <-]. simpl. f_equal; [by apply Hkey | by apply IH].
Qed.

Lemma traverse_ok_elem_of {A B : Type} (f : A -> result B) (lst : list A)
    (ys : list B) (x : A) :
  traverse f lst = Ok ys -> x ∈ lst -> ∃ y, f x = Ok y ∧ y ∈ ys.
Proof.
  revert ys. induction lst as [|x' lst IH]; intros ys; simpl.
  - intros _ Hin. by apply elem_of_nil in Hin.
  - destruct (f x') as [y'|] eqn:Hfx; [|done].
    destruct (traverse f lst) as [ys'|]; [|done].
    intros [= <-] [->|Hin]%elem_of_cons.
    + exists y'. split; [done | left].
    + destruct (IH ys' eq_refl Hin) as (y & Hy & Hyin).
      exists y. split; [done | by right].
Qed.

Lemma traverse_ok_from {A B : Type} (f : A -> result B) (lst : list A)
    (ys : list B) (y : B) :
  traverse f lst = Ok ys -> y ∈ ys -> ∃ x, x ∈ lst ∧ f x = Ok y.
Proof.
  revert ys. induction lst as [|x' lst IH]; intros ys; simpl.
  - intros [= <-] Hin. by apply elem_of_nil in Hin.
  - destruct (f x') as [y'|] eqn:Hfx; [|done].
    destruct (traverse f lst) as [ys'|]; [|done].
    intros [= <-] [->|Hin]%elem_of_cons.
    + exists x'. split; [left | done].
    + destruct (IH ys' eq_refl Hin) as (x & Hx & Hfx').
      exists x. split; [by right | done].
Qed.

Lemma traverse_total {A B : Type} (f : A -> result B) (lst : list A) :
  (∀ x, x ∈ lst -> ∃ y, f x = Ok y) -> ∃ ys, traverse f lst = Ok ys.
Proof.
  induction lst as [|x lst IH]; intros Hall; simpl; [by eexists|].
  destruct (Hall x) as [y ->]; [left|].
  destruct IH as [ys ->]; [|by eexists].
  intros x' Hx'. apply Hall. by right.
Qed.

End Matching.

(** ** The computations, as functions of the list content *)

Section Runs.
Context `{Environment}.

Lemma with_content_id (l : loc) (ids : list string) (w : World) :
  heap w !! l = Some ids -> with_content l ids w = w.
Proof.
  intros Hl. destruct w as [h o s]. unfold with_content. simpl in *.
  by rewrite insert_id.
Qed.

Lemma with_content_twice (l : loc) (ids ids' : list string) (w : World) :
  with_content l ids (with_content l ids' w) = with_content l ids w.
Proof. unfold with_content. simpl. by rewrite insert_insert_eq. Qed.

Lemma heap_with_content (l : loc) (ids : list string) (w : World) :
  heap (with_content l ids w) !! l = Some ids.
Proof. unfold with_content. simpl. apply lookup_insert_eq. Qed.

Lemma seller_create_stocks_feed_cons (watch : Watch) (rest : list Watch) (l : loc)
    (stocks : list SellerStock.t) (w : World) (ids : list string) :
  heap w !! l = Some ids ->
  Seller.create_stocks_feed (watch :: rest) l stocks w
  = if decide (code watch ∈ ids) then
      match stock_count watch with
      | Ok stock =>
          Seller.create_stocks_feed rest l
            (stocks ++ [{| SellerStock.offer_id := code watch;
                           SellerStock.stock := stock |}])
            (with_content l (without_first (code watch) ids) w)
      | Raise e => (Raises e, w)
      end
    else Seller.create_stocks_feed rest l stocks w.
Proof.
  intros Hl. cbn [Seller.create_stocks_feed].
  unfold bind at 1, read. rewrite Hl. simpl. fold (code watch).
  destruct (decide (code watch ∈ ids)) as [Hin|Hnot]; [|done].
  unfold bind at 1. destruct (stock_count watch) as [stock|e]; [|done].
  simpl. unfold bind at 1, list_remove.
  rewrite Hl. simpl. by rewrite (remove_elem_of _ _ Hin).
Qed.

Lemma seller_create_stocks_feed_run (feed : list Watch) (l : loc)
    (stocks : list SellerStock.t) (w : World) (ids : list string) :
  heap w !! l = Some ids ->
  match traverse seller_stock (matched feed ids) with
  | Ok entries =>
      Seller.create_stocks_feed feed l stocks w
      = (Returns (stocks ++ entries), with_content l (unmatched feed ids) w)
  | Raise e =>
      ∃ ids', Seller.create_stocks_feed feed l stocks w
              = (Raises e, with_content l ids' w)
  end.
Proof.
  revert stocks w ids. induction feed as [|watch rest IH]; intros stocks w ids Hl.
  - simpl. unfold ret. by rewrite app_nil_r, with_content_id.
  - rewrite (seller_create_stocks_feed_cons _ _ _ _ _ _ Hl).
    cbn [matched unmatched].
    destruct (decide (code watch ∈ ids)) as [Hin|Hnot]; [|by apply IH].
    cbn [traverse]. unfold seller_stock at 1.
    destruct (stock_count watch) as [stock|e] eqn:Hstock.
    + specialize (IH (stocks ++ [{| SellerStock.offer_id := code watch;
                                    SellerStock.stock := stock |}])
                     (with_content l (without_first (code watch) ids) w)
                     (without_first (code watch) ids)
                     (heap_with_content _ _ _)).
      destruct (traverse seller_stock
                  (matched rest (without_first (code watch) ids))) as [entries|e].
      * rewrite IH, with_content_twice. by rewrite <- app_assoc.
      * destruct IH as [ids' ->]. exists ids'. by rewrite with_content_twice.
    + exists ids. by rewrite with_content_id.
Qed.

Lemma seller_create_stocks_run (feed : list Watch) (l : loc) (w : World)
    (ids : list string) :
  heap w !! l = Some ids ->
  ∃ ids',
    Seller.create_stocks feed l w
    = (outcome_of (seller_stocks feed ids), with_content l ids' w) ∧
    (∀ stocks, seller_stocks feed ids = Ok stocks -> ids' = unmatched feed ids).
Proof.
  intros Hl. unfold Seller.create_stocks, seller_stocks, bind at 1.
  pose proof (seller_create_stocks_feed_run feed l [] w ids Hl) as Hrun.
  destruct (traverse seller_stock (matched feed ids)) as [entries|e].
  - rewrite Hrun. exists (unmatched feed ids). split; [|done].
    unfold bind, read, ret. by rewrite heap_with_content.
  - destruct Hrun as [ids' ->]. exists ids'. by split.
Qed.

Lemma market_create_stocks_feed_cons (watch : Watch) (rest : list Watch) (l : loc)
    (warehouse_id date : string) (stocks : list MarketStock.t) (w : World)
    (ids : list string) :
  heap w !! l = Some ids ->
  Market.create_stocks_feed (watch :: rest) l warehouse_id date stocks w
  = if decide (code watch ∈ ids) then
      match stock_count watch with
      | Ok stock =>
          Market.create_stocks_feed rest l warehouse_id date
            (stocks ++ [Market.stock_entry (code watch) warehouse_id stock date])
            (with_content l (without_first (code watch) ids) w)
      | Raise e => (Raises e, w)
      end
    else Market.create_stocks_feed rest l warehouse_id date stocks w.
Proof.
  intros Hl. cbn [Market.create_stocks_feed].
  unfold bind at 1, read. rewrite Hl. simpl. fold (code watch).
  destruct (decide (code watch ∈ ids)) as [Hin|Hnot]; [|done].
  unfold bind at 1. destruct (stock_count watch) as [stock|e]; [|done].
  simpl. unfold bind at 1, list_remove.
  rewrite Hl. simpl. by rewrite (remove_elem_of _ _ Hin).
Qed.

Lemma market_create_stocks_feed_run (feed : list Watch) (l : loc)
    (warehouse_id date : string) (stocks : list MarketStock.t) (w : World)
    (ids : list string) :
  heap w !! l = Some ids ->
  match traverse (market_stock warehouse_id date) (matched feed ids) with
  | Ok entries =>
      Market.create_stocks_feed feed l warehouse_id date stocks w
      = (Returns (stocks ++ entries), with_content l (unmatched feed ids) w)
  | Raise e =>
      ∃ ids', Market.create_stocks_feed feed l warehouse_id date stocks w
              = (Raises e, with_content l ids' w)
  end.
Proof.
  revert stocks w ids. induction feed as [|watch rest IH]; intros stocks w ids Hl.
  - simpl. unfold ret. by rewrite app_nil_r, with_content_id.
  - rewrite (market_create_stocks_feed_cons _ _ _ _ _ _ _ _ Hl).
    cbn [matched unmatched].
    destruct (decide (code watch ∈ ids)) as [Hin|Hnot]; [|by apply IH].
    cbn [traverse]. unfold market_stock at 1.
    destruct (stock_count watch) as [stock|e] eqn:Hstock.
    + specialize (IH (stocks ++ [Market.stock_entry (code watch) warehouse_id stock date])
                     (with_content l (without_first (code watch) ids) w)
                     (without_first (code watch) ids)
                     (heap_with_content _ _ _)).
      destruct (traverse (market_stock warehouse_id date)
                  (matched rest (without_first (code watch) ids))) as [entries|e].
      * rewrite IH, with_content_twice. by rewrite <- app_assoc.
      * destruct IH as [ids' ->]. exists ids'. by rewrite with_content_twice.
    + exists ids. by rewrite with_content_id.
Qed.

Lemma market_create_stocks_run (feed : list Watch) (l : loc) (warehouse_id : string)
    (w : World) (ids : list string) :
  heap w !! l = Some ids ->
  ∃ ids',
    Market.create_stocks feed l warehouse_id w
    = (outcome_of (market_stocks warehouse_id (utcnow (outside w) +:+ "Z") feed ids),
       with_content l ids' w) ∧
    (∀ stocks,
       market_stocks warehouse_id (utcnow (outside w) +:+ "Z") feed ids = Ok stocks ->
       ids' = unmatched feed ids).
Proof.
  intros Hl. unfold Market.create_stocks, market_stocks, bind at 1, clock.
  unfold bind at 1.
  pose proof (market_create_stocks_feed_run feed l warehouse_id
                (utcnow (outside w) +:+ "Z") [] w ids Hl) as Hrun.
  destruct (traverse (market_stock warehouse_id (utcnow (outside w) +:+ "Z"))
              (matched feed ids)) as [entries|e].
  - rewrite Hrun. exists (unmatched feed ids). split; [|done].
    unfold bind, read, ret. by rewrite heap_with_content.
  - destruct Hrun as [ids' ->]. exists ids'. by split.
Qed.

Lemma seller_create_prices_feed_run (feed : list Watch) (l : loc)
    (prices : list SellerPrice.t) (w : World) :
  Seller.create_prices_feed feed l prices w
  = (match seller_prices feed (default [] (heap w !! l)) with
     | Ok entries => Returns (prices ++ entries)
     | Raise e => Raises e
     end, w).
Proof.
  revert prices. unfold seller_prices. set (ids := default [] (heap w !! l)).
  induction feed as [|watch rest IH]; intros prices.
  - simpl. unfold ret. by rewrite app_nil_r.
  - cbn [Seller.create_prices_feed]. unfold bind at 1, read. fold ids. simpl.
    fold (code watch). rewrite filter_cons.
    destruct (decide (code watch ∈ ids)) as [Hin|Hnot]; [|apply IH].
    cbn [traverse]. unfold seller_price at 1, bind at 1.
    destruct (Seller.price_conversion (Tsena watch)) as [converted|e]; [|done].
    simpl. rewrite IH.
    destruct (traverse seller_price
                (filter (fun watch => code watch ∈ ids) rest)); [|done].
    by rewrite <- app_assoc.
Qed.

Lemma seller_create_prices_run (feed : list Watch) (l : loc) (w : World) :
  Seller.create_prices feed l w
  = (outcome_of (seller_prices feed (default [] (heap w !! l))), w).
Proof.
  unfold Seller.create_prices. rewrite seller_create_prices_feed_run.
  by destruct (seller_prices feed _).
Qed.

Lemma market_create_prices_feed_run (feed : list Watch) (l : loc)
    (prices : list MarketPrice.t) (w : World) :
  Market.create_prices_feed feed l prices w
  = (match market_prices feed (default [] (heap w !! l)) with
     | Ok entries => Returns (prices ++ entries)
     | Raise e => Raises e
     end, w).
Proof.
  revert prices. unfold market_prices. set (ids := default [] (heap w !! l)).
  induction feed as [|watch rest IH]; intros prices.
  - simpl. unfold ret. by rewrite app_nil_r.
  - cbn [Market.create_prices_feed]. unfold bind at 1, read. fold ids. simpl.
    fold (code watch). rewrite filter_cons.
    destruct (decide (code watch ∈ ids)) as [Hin|Hnot]; [|apply IH].
    cbn [traverse]. unfold market_price at 1, bind at 1.
    destruct (Seller.price_conversion (Tsena watch)) as [converted|e]; [|done].
    simpl. unfold bind at 1.
    destruct (int_of_str converted) as [value|e]; [|done].
    simpl. rewrite IH.
    destruct (traverse market_price
                (filter (fun watch => code watch ∈ ids) rest)); [|done].
    by rewrite <- app_assoc.
Qed.

Lemma market_create_prices_run (feed : list Watch) (l : loc) (w : World) :
  Market.create_prices feed l w
  = (outcome_of (market_prices feed (default [] (heap w !! l))), w).
Proof.
  unfold Market.create_prices. rewrite market_create_prices_feed_run.
  by destruct (market_prices feed _).
Qed.

End Runs.

(** ** Batches *)

Section Divide.
Context {A : Type}.

Lemma ceil_div_least (a b : Z) :
  (0 < b)%Z -> (a <= ceil_div a b * b)%Z ∧ ((ceil_div a b - 1) * b < a)%Z.
Proof.
  intros Hb. unfold ceil_div.
  pose proof (Z.div_mod (a + b - 1) b ltac:(lia)) as Hdm.
  pose proof (Z.mod_pos_bound (a + b - 1) b Hb) as Hmod.
  split; nia.
Qed.

Lemma range_length_from_zero (len n : Z) :
  (0 <= len)%Z -> (0 < n)%Z -> range_length 0 len n = ceil_div len n.
Proof.
  intros Hlen Hn. unfold range_length, ceil_div.
  rewrite (proj2 (Z.ltb_lt 0 n)) by done.
  destruct (Z.ltb_spec 0 len) as [Hpos|Hzero].
  - replace (len - 0 - 1)%Z with (len - 1)%Z by lia.
    replace (len + n - 1)%Z with (len - 1 + 1 * n)%Z by lia.
    rewrite Z.div_add by lia. lia.
  - assert (len = 0%Z) as -> by lia.
    symmetry. apply Z.div_small. lia.
Qed.

Lemma slice_index_inside (len i : Z) :
  (0 <= i <= len)%Z -> slice_index len i = i.
Proof.
  intros Hi. unfold slice_index.
  destruct (Z.ltb_spec i 0) as [?|_]; [lia|]. cbv zeta.
  destruct (Z.ltb_spec i 0) as [?|_]; [lia|].
  destruct (Z.ltb_spec len i); [lia | done].
Qed.

Lemma slice_index_beyond (len i : Z) :
  (0 <= len < i)%Z -> slice_index len i = len.
Proof.
  intros Hi. unfold slice_index.
  destruct (Z.ltb_spec i 0) as [?|_]; [lia|]. cbv zeta.
  destruct (Z.ltb_spec i 0) as [?|_]; [lia|].
  destruct (Z.ltb_spec len i); [done | lia].
Qed.

Lemma slice_take_drop (lst : list A) (lo n : nat) :
  lo <= length lst -> 0 < n ->
  slice lst (Z.of_nat lo) (Z.of_nat lo + Z.of_nat n) = take n (drop lo lst).
Proof.
  intros Hlo Hn. unfold slice.
  rewrite (slice_index_inside _ (Z.of_nat lo)) by lia.
  rewrite Nat2Z.id.
  destruct (Z.le_gt_cases (Z.of_nat lo + Z.of_nat n) (Z.of_nat (length lst)))
    as [Hin|Hout].
  - rewrite slice_index_inside by lia. f_equal. lia.
  - rewrite slice_index_beyond by lia.
    rewrite !take_ge; [done | rewrite length_drop; lia | rewrite length_drop; lia].
Qed.

(** The chunks for a positive size, with natural-number indices. *)
Lemma divide_positive (lst : list A) (n : Z) :
  (1 <= n)%Z ->
  Seller.divide lst n
  = Ok (map (fun k => take (Z.to_nat n) (drop (k * Z.to_nat n) lst))
            (seq 0 (Z.to_nat (ceil_div (Z.of_nat (length lst)) n)))).
Proof.
  intros Hn. unfold Seller.divide, range.
  rewrite (proj2 (Z.eqb_neq n 0)) by lia.
  rewrite range_length_from_zero by lia.
  f_equal. rewrite map_map. apply map_ext_in. intros k Hk%in_seq.
  pose proof (ceil_div_least (Z.of_nat (length lst)) n ltac:(lia)) as [_ Hbound].
  assert (Hcount : (Z.of_nat k < ceil_div (Z.of_nat (length lst)) n)%Z) by lia.
  rewrite <- (slice_take_drop lst (k * Z.to_nat n) (Z.to_nat n)) by nia.
  f_equal; lia.
Qed.

Lemma concat_chunks (lst : list A) (n m : nat) :
  concat (map (fun k => take n (drop (k * n) lst)) (seq 0 m)) = take (m * n) lst.
Proof.
  induction m as [|m IH]; [done|].
  rewrite seq_S, map_app, concat_app, IH. simpl.
  rewrite app_nil_r, take_take_drop. f_equal. lia.
Qed.

Lemma divide_zero (lst : list A) : Seller.divide lst 0 = Raise ValueError.
Proof. reflexivity. Qed.

Lemma divide_negative (lst : list A) (n : Z) :
  (n < 0)%Z -> Seller.divide lst n = Ok [].
Proof.
  intros Hn. unfold Seller.divide, range, range_length.
  rewrite (proj2 (Z.eqb_neq n 0)) by lia.
  rewrite (proj2 (Z.ltb_ge 0 n)) by lia.
  rewrite (proj2 (Z.ltb_ge (Z.of_nat (length lst)) 0)) by lia.
  reflexivity.
Qed.

(** What [divide] yields for a size of at least 1. *)
Lemma divide_positive_chunks (lst : list A) (n : Z) :
  (1 <= n)%Z ->
  ∃ chunks,
    Seller.divide lst n = Ok chunks ∧
    Z.of_nat (length chunks) = ceil_div (Z.of_nat (length lst)) n ∧
    (∀ i chunk, chunks !! i = Some chunk ->
       (1 <= Z.of_nat (length chunk) <= n)%Z ∧
       (i + 1 < length chunks -> Z.of_nat (length chunk) = n)) ∧
    concat chunks = lst.
Proof.
  intros Hn. rewrite divide_positive by done.
  set (len := length lst). set (size := Z.to_nat n).
  pose proof (ceil_div_least (Z.of_nat len) n ltac:(lia)) as [Hup Hlow].
  assert (Hnonneg : (0 <= ceil_div (Z.of_nat len) n)%Z) by nia.
  set (count := Z.to_nat (ceil_div (Z.of_nat len) n)) in *.
  assert (Hcount : Z.of_nat count = ceil_div (Z.of_nat len) n) by lia.
  eexists. split; [reflexivity|]. split; [|split].
  - by rewrite length_map, length_seq.
  - intros i chunk Hi. rewrite length_map, length_seq.
    apply list_lookup_fmap_Some in Hi as (k & -> & Hk).
    apply lookup_seq in Hk as [-> Hlt]. simpl.
    rewrite length_take, length_drop. fold len. split; nia.
  - rewrite concat_chunks. apply take_ge. fold len. nia.
Qed.

End Divide.

(** ** The requests that a computation issues *)

Section Issues.
Context `{Environment}.

Lemma issued_only_issues {A : Type} (P : Request -> Prop) (m : M A) (w : World) :
  only_issues P m -> Forall P (issued m w).
Proof.
  intros Hm. destruct (Hm w) as (new & Hsent & Hnew).
  unfold issued. rewrite Hsent. by rewrite drop_app_length.
Qed.

Lemma only_issues_nothing {A : Type} (P : Request -> Prop) (m : M A) :
  (∀ w, sent (snd (m w)) = sent w) -> only_issues P m.
Proof. intros Hm w. exists []. rewrite app_nil_r. by split. Qed.

Lemma only_issues_ret {A : Type} (P : Request -> Prop) (a : A) :
  only_issues P (ret a).
Proof. by apply only_issues_nothing. Qed.

Lemma only_issues_raise {A : Type} (P : Request -> Prop) (e : exn) :
  only_issues P (raise (A := A) e).
Proof. by apply only_issues_nothing. Qed.

Lemma only_issues_out_of_fuel {A : Type} (P : Request -> Prop) :
  only_issues P (out_of_fuel (A := A)).
Proof. by apply only_issues_nothing. Qed.

Lemma only_issues_lift {A : Type} (P : Request -> Prop) (r : result A) :
  only_issues P (lift r).
Proof. destruct r; by apply only_issues_nothing. Qed.

Lemma only_issues_read (P : Request -> Prop) (l : loc) : only_issues P (read l).
Proof. by apply only_issues_nothing. Qed.

Lemma only_issues_alloc (P : Request -> Prop) (content : list string) :
  only_issues P (alloc content).
Proof. by apply only_issues_nothing. Qed.

Lemma only_issues_list_remove (P : Request -> Prop) (l : loc) (x : string) :
  only_issues P (list_remove l x).
Proof.
  apply only_issues_nothing. intros w. unfold list_remove.
  by destruct (remove x (default [] (heap w !! l))).
Qed.

Lemma only_issues_clock (P : Request -> Prop) : only_issues P clock.
Proof. by apply only_issues_nothing. Qed.

Lemma only_issues_request (P : Request -> Prop) (q : Request) :
  P q -> only_issues P (request q).
Proof.
  intros Hq w. exists [q]. unfold request.
  destruct (http q (outside w)) as [[r|e] o]; simpl; by split; [|constructor].
Qed.

Lemma only_issues_bind {A B : Type} (P : Request -> Prop) (m : M A) (k : A -> M B) :
  only_issues P m -> (∀ a, only_issues P (k a)) -> only_issues P (bind m k).
Proof.
  intros Hm Hk w. unfold bind.
  destruct (Hm w) as (new & Hsent & Hnew).
  destruct (m w) as [[a|e|] w1]; simpl in *; [|by eauto..].
  destruct (Hk a w1) as (new' & Hsent' & Hnew').
  exists (new ++ new'). rewrite Hsent', Hsent, app_assoc.
  split; [done | by apply Forall_app].
Qed.

Lemma only_issues_try_except (P : Request -> Prop) (body : M unit) :
  only_issues P body -> only_issues P (try_except body).
Proof.
  intros Hm w. unfold try_except.
  destruct (Hm w) as (new & Hsent & Hnew).
  destruct (body w) as [[a|e|] w1]; simpl in *; eauto.
Qed.

Lemma only_issues_for_each {A : Type} (P : Request -> Prop) (lst : list A)
    (body : A -> M unit) :
  (∀ x, x ∈ lst -> only_issues P (body x)) -> only_issues P (for_each lst body).
Proof.
  induction lst as [|x lst IH]; intros Hbody; simpl.
  - apply only_issues_ret.
  - apply only_issues_bind; [apply Hbody; left|].
    intros _. apply IH. intros y Hy. apply Hbody. by right.
Qed.

Ltac issues :=
  repeat first
    [ assumption
    | apply only_issues_ret
    | apply only_issues_raise
    | apply only_issues_out_of_fuel
    | apply only_issues_lift
    | apply only_issues_read
    | apply only_issues_alloc
    | apply only_issues_list_remove
    | apply only_issues_clock
    | apply only_issues_try_except
    | apply only_issues_bind; [|intros ?]
    | match goal with
      | |- only_issues _ (if ?c then _ else _) => destruct c
      | |- only_issues _ (match ?x with _ => _ end) => destruct x
      | IH : ∀ _, only_issues _ _ |- _ => apply IH
      end ].

Lemma seller_get_offer_ids_issues (P : Request -> Prop) (fuel : nat)
    (client_id seller_token : string) :
  (∀ last_id, P (OzonProductList last_id client_id seller_token)) ->
  only_issues P (Seller.get_offer_ids fuel client_id seller_token).
Proof.
  intros HP. unfold Seller.get_offer_ids. apply only_issues_bind; [|intros; issues].
  generalize (@nil SellerPage.item). generalize "".
  induction fuel as [|fuel IH]; intros last_id product_list; simpl; [issues|].
  unfold Seller.get_product_list. issues.
  all: try (apply only_issues_request, HP). apply IH.
Qed.

Lemma market_get_offer_ids_issues (P : Request -> Prop) (fuel : nat)
    (campaign_id market_token : string) :
  (∀ page, P (MarketOfferMappingEntries page campaign_id market_token)) ->
  only_issues P (Market.get_offer_ids fuel campaign_id market_token).
Proof.
  intros HP. unfold Market.get_offer_ids. apply only_issues_bind; [|intros; issues].
  generalize (@nil MarketPage.entry). generalize "".
  induction fuel as [|fuel IH]; intros page product_list; simpl; [issues|].
  unfold Market.get_product_list. issues.
  all: try (apply only_issues_request, HP). apply IH.
Qed.

Lemma download_stock_issues (P : Request -> Prop) :
  P CasioOstatki -> only_issues P Seller.download_stock.
Proof.
  intros HP. unfold Seller.download_stock. issues. by apply only_issues_request.
Qed.

Lemma seller_create_stocks_issues (P : Request -> Prop) (feed : list Watch) (l : loc) :
  only_issues P (Seller.create_stocks feed l).
Proof.
  unfold Seller.create_stocks. apply only_issues_bind; [|intros; issues].
  generalize (@nil SellerStock.t).
  induction feed as [|watch rest IH]; intros stocks; simpl; issues; apply IH.
Qed.

Lemma seller_create_prices_issues (P : Request -> Prop) (feed : list Watch) (l : loc) :
  only_issues P (Seller.create_prices feed l).
Proof.
  unfold Seller.create_prices. generalize (@nil SellerPrice.t).
  induction feed as [|watch rest IH]; intros prices; simpl; issues; apply IH.
Qed.

Lemma market_create_stocks_issues (P : Request -> Prop) (feed : list Watch) (l : loc)
    (warehouse_id : string) :
  only_issues P (Market.create_stocks feed l warehouse_id).
Proof.
  unfold Market.create_stocks. apply only_issues_bind; [issues|]. intros now.
  apply only_issues_bind; [|intros; issues].
  generalize (@nil MarketStock.t).
  induction feed as [|watch rest IH]; intros stocks; simpl; issues; apply IH.
Qed.

Lemma market_create_prices_issues (P : Request -> Prop) (feed : list Watch) (l : loc) :
  only_issues P (Market.create_prices feed l).
Proof.
  unfold Market.create_prices. generalize (@nil MarketPrice.t).
  induction feed as [|watch rest IH]; intros prices; simpl; issues; apply IH.
Qed.

(** A chunk that [divide] yields for a positive size has at most that many
    entries. *)
Lemma divide_chunk_size {A : Type} (lst : list A) (n : Z) (chunks : list (list A))
    (chunk : list A) :
  (1 <= n)%Z -> Seller.divide lst n = Ok chunks -> chunk ∈ chunks ->
  (Z.of_nat (length chunk) <= n)%Z.
Proof.
  intros Hn Hdiv Hin.
  destruct (divide_positive_chunks lst n Hn) as (chunks' & Hdiv' & _ & Hsize & _).
  rewrite Hdiv in Hdiv'. injection Hdiv' as <-.
  apply list_elem_of_lookup in Hin as [i Hi].
  destruct (Hsize i chunk Hi) as [Hbound _]. lia.
Qed.

Lemma only_issues_bind_lift {A B : Type} (P : Request -> Prop) (r : result A)
    (k : A -> M B) :
  (∀ a, r = Ok a -> only_issues P (k a)) -> only_issues P (bind (lift r) k).
Proof.
  intros Hk. destruct r as [a|e].
  - intros w. apply (Hk a eq_refl w).
  - by apply only_issues_nothing.
Qed.

(** A push loop: every chunk of [divide] goes out in one request. *)
Lemma push_loop_issues {A : Type} (P : Request -> Prop) (lst : list A) (n : Z)
    (push : list A -> M unit) (chunks : list (list A)) :
  (1 <= n)%Z ->
  Seller.divide lst n = Ok chunks ->
  (∀ chunk, (Z.of_nat (length chunk) <= n)%Z -> only_issues P (push chunk)) ->
  only_issues P (for_each chunks push).
Proof.
  intros Hn Hdiv Hpush. apply only_issues_for_each.
  intros chunk Hin. apply Hpush. by apply (divide_chunk_size lst n chunks).
Qed.

Lemma only_issues_env_str (P : Request -> Prop) (name : string) :
  only_issues P (env_str name).
Proof.
  intros w. exists []. unfold env_str.
  destruct (getenv name); simpl; by rewrite app_nil_r.
Qed.

Ltac pushes :=
  repeat first
    [ match goal with
      | |- only_issues _ (bind (lift (Seller.divide _ _)) _) =>
          apply only_issues_bind_lift; intros ? ?
      | Hdiv : Seller.divide ?lst ?n = Ok ?chunks
        |- only_issues _ (for_each ?chunks _) =>
          apply (push_loop_issues _ lst n _ chunks ltac:(lia) Hdiv); intros ? ?
      | |- only_issues _ (Seller.create_stocks _ _) => apply seller_create_stocks_issues
      | |- only_issues _ (Seller.create_prices _ _) => apply seller_create_prices_issues
      | |- only_issues _ (Market.create_stocks _ _ _) => apply market_create_stocks_issues
      | |- only_issues _ (Market.create_prices _ _) => apply market_create_prices_issues
      | |- only_issues _ (Seller.get_offer_ids _ _ _) =>
          apply seller_get_offer_ids_issues; intros ?; exact I
      | |- only_issues _ (Market.get_offer_ids _ _ _) =>
          apply market_get_offer_ids_issues; intros ?; exact I
      | |- only_issues _ Seller.download_stock =>
          apply download_stock_issues; exact I
      | |- only_issues _ (env_str _) => apply only_issues_env_str
      | |- only_issues _ (request _) => apply only_issues_request; simpl; lia
      end
    | apply only_issues_ret
    | apply only_issues_try_except
    | apply only_issues_bind; [|intros ?] ].

Lemma seller_main_update_issues (feed : list Watch) (l : loc)
    (client_id seller_token : string) :
  only_issues (within_caps 100 900)
    (Seller.main_update feed l client_id seller_token).
Proof.
  unfold Seller.main_update, Seller.update_stocks, Seller.update_price. pushes.
Qed.

Lemma seller_main_try_issues (fuel : nat) (seller_token client_id : string) :
  only_issues (within_caps 100 900) (Seller.main_try fuel seller_token client_id).
Proof.
  unfold Seller.main_try. pushes.
Qed.

Lemma seller_main_issues (fuel : nat) :
  only_issues (within_caps 100 900) (Seller.main fuel).
Proof.
  unfold Seller.main, Seller.main_try. pushes.
Qed.

Lemma seller_upload_prices_issues (fuel : nat) (feed : list Watch)
    (client_id seller_token : string) :
  only_issues (within_caps 100 1000)
    (Seller.upload_prices fuel feed client_id seller_token).
Proof. unfold Seller.upload_prices, Seller.update_price. pushes. Qed.

Lemma seller_upload_stocks_issues (fuel : nat) (feed : list Watch)
    (client_id seller_token : string) :
  only_issues (within_caps 100 1000)
    (Seller.upload_stocks fuel feed client_id seller_token).
Proof. unfold Seller.upload_stocks, Seller.update_stocks. pushes. Qed.

Lemma market_upload_prices_issues (fuel : nat) (feed : list Watch)
    (campaign_id market_token : string) :
  only_issues (within_caps 2000 500)
    (Market.upload_prices fuel feed campaign_id market_token).
Proof. unfold Market.upload_prices, Market.update_price. pushes. Qed.

Lemma market_upload_stocks_issues (fuel : nat) (feed : list Watch)
    (campaign_id market_token warehouse_id : string) :
  only_issues (within_caps 2000 500)
    (Market.upload_stocks fuel feed campaign_id market_token warehouse_id).
Proof. unfold Market.upload_stocks, Market.update_stocks. pushes. Qed.

Lemma market_main_download_issues (fuel : nat)
    (market_token campaign_fbs_id campaign_dbs_id warehouse_fbs_id warehouse_dbs_id
       : string) :
  only_issues (within_caps 2000 500)
    (Market.main_download fuel market_token campaign_fbs_id campaign_dbs_id
       warehouse_fbs_id warehouse_dbs_id).
Proof.
  unfold Market.main_download, Market.main_campaign, Market.update_stocks. pushes.
Qed.

Lemma market_main_issues (fuel : nat) :
  only_issues (within_caps 2000 500) (Market.main fuel).
Proof.
  unfold Market.main, Market.main_download, Market.main_campaign,
    Market.update_stocks.
  pushes.
Qed.

End Issues.

(** ** Catalog pages *)

Section Pages.
Context `{Environment}.

Lemma seller_items_cons (page : SellerPage.t) (pages : list SellerPage.t) :
  seller_items (page :: pages) = SellerPage.items page ++ seller_items pages.
Proof. reflexivity. Qed.

Lemma market_entries_cons (page : MarketPage.t) (pages : list MarketPage.t) :
  market_entries (page :: pages)
  = MarketPage.offerMappingEntries page ++ market_entries pages.
Proof. reflexivity. Qed.

Lemma seller_loop_step (fuel : nat) (last_id : string)
    (product_list : list SellerPage.item) (client_id seller_token : string)
    (w w1 : World) (page : SellerPage.t) :
  Seller.get_product_list last_id client_id seller_token w = (Returns page, w1) ->
  Seller.get_offer_ids_loop (S fuel) last_id product_list client_id seller_token w
  = if decide (SellerPage.total page
               = Z.of_nat (length (product_list ++ SellerPage.items page)))
    then (Returns (product_list ++ SellerPage.items page), w1)
    else Seller.get_offer_ids_loop fuel (SellerPage.last_id page)
           (product_list ++ SellerPage.items page) client_id seller_token w1.
Proof.
  intros Hpage. cbn [Seller.get_offer_ids_loop]. unfold bind at 1. rewrite Hpage.
  by destruct (decide _).
Qed.

(** The loop of seller.py returns at the first page after which the number
    of gathered items equals the reported total. *)
Lemma seller_loop_returns (client_id seller_token : string)
    (pages : list SellerPage.t) (page : SellerPage.t) (last_id : string)
    (product_list : list SellerPage.item) (w w' : World) (fuel : nat) :
  seller_pages client_id seller_token last_id w (pages ++ [page]) w' ->
  (∀ before p after, pages = before ++ p :: after ->
     SellerPage.total p
     ≠ Z.of_nat (length (product_list ++ seller_items (before ++ [p])))) ->
  SellerPage.total page
  = Z.of_nat (length (product_list ++ seller_items (pages ++ [page]))) ->
  length pages < fuel ->
  Seller.get_offer_ids_loop fuel last_id product_list client_id seller_token w
  = (Returns (product_list ++ seller_items (pages ++ [page])), w').
Proof.
  revert last_id product_list w fuel.
  induction pages as [|p pages IH]; intros last_id product_list w fuel Hpages Hgo Hstop Hfuel.
  - inversion Hpages as [|? ? ? w1 ? ? Hpage Hrest]; subst.
    inversion Hrest; subst.
    destruct fuel as [|fuel]; [simpl in Hfuel; lia|].
    rewrite (seller_loop_step _ _ _ _ _ _ _ _ Hpage).
    simpl in Hstop. unfold seller_items in *. simpl in *.
    rewrite app_nil_r in *. by rewrite decide_True.
  - simpl in Hpages.
    inversion Hpages as [|? ? ? w1 ? ? Hpage Hrest]; subst.
    destruct fuel as [|fuel]; [simpl in Hfuel; lia|].
    rewrite (seller_loop_step _ _ _ _ _ _ _ _ Hpage).
    rewrite decide_False.
    + simpl app. rewrite seller_items_cons, app_assoc.
      apply IH; [done | | | simpl in Hfuel; lia].
      * intros before p' after ->.
        rewrite <- app_assoc, <- seller_items_cons.
        apply (Hgo (p :: before) p' after). done.
      * by rewrite <- app_assoc, <- seller_items_cons.
    + specialize (Hgo [] p pages eq_refl).
      unfold seller_items in Hgo. simpl in Hgo. by rewrite app_nil_r in Hgo.
Qed.

(** As long as no page brings the count to the reported total, the loop of
    seller.py asks for the next page. *)
Lemma seller_loop_goes_on (client_id seller_token : string)
    (pages : list SellerPage.t) (last_id : string)
    (product_list : list SellerPage.item) (w w' : World) :
  seller_pages client_id seller_token last_id w pages w' ->
  (∀ before p after, pages = before ++ p :: after ->
     SellerPage.total p
     ≠ Z.of_nat (length (product_list ++ seller_items (before ++ [p])))) ->
  Seller.get_offer_ids_loop (length pages) last_id product_list
    client_id seller_token w
  = (OutOfFuel, w').
Proof.
  revert last_id product_list w.
  induction pages as [|p pages IH]; intros last_id product_list w Hpages Hgo.
  - by inversion Hpages; subst.
  - inversion Hpages as [|? ? ? w1 ? ? Hpage Hrest]; subst.
    cbn [length]. rewrite (seller_loop_step _ _ _ _ _ _ _ _ Hpage).
    rewrite decide_False.
    + apply IH; [done|]. intros before p' after ->.
      rewrite <- app_assoc, <- seller_items_cons.
      apply (Hgo (p :: before) p' after). done.
    + specialize (Hgo [] p pages eq_refl).
      unfold seller_items in Hgo. simpl in Hgo. by rewrite app_nil_r in Hgo.
Qed.

Lemma market_loop_step (fuel : nat) (page_token : string)
    (product_list : list MarketPage.entry) (campaign_id market_token : string)
    (w w1 : World) (page : MarketPage.t) :
  Market.get_product_list page_token campaign_id market_token w = (Returns page, w1) ->
  Market.get_offer_ids_loop (S fuel) page_token product_list campaign_id market_token w
  = if Market.not_page (MarketPage.nextPageToken page)
    then (Returns (product_list ++ MarketPage.offerMappingEntries page), w1)
    else Market.get_offer_ids_loop fuel (default "" (MarketPage.nextPageToken page))
           (product_list ++ MarketPage.offerMappingEntries page)
           campaign_id market_token w1.
Proof.
  intros Hpage. cbn [Market.get_offer_ids_loop]. unfold bind at 1. rewrite Hpage.
  by destruct (Market.not_page _).
Qed.

(** The loop of market.py returns at the first page without a
    [nextPageToken] (absent or empty). *)
Lemma market_loop_returns (campaign_id market_token : string)
    (pages : list MarketPage.t) (page : MarketPage.t) (page_token : string)
    (product_list : list MarketPage.entry) (w w' : World) (fuel : nat) :
  market_pages campaign_id market_token page_token w (pages ++ [page]) w' ->
  (∀ p, p ∈ pages -> Market.not_page (MarketPage.nextPageToken p) = false) ->
  Market.not_page (MarketPage.nextPageToken page) = true ->
  length pages < fuel ->
  Market.get_offer_ids_loop fuel page_token product_list campaign_id market_token w
  = (Returns (product_list ++ market_entries (pages ++ [page])), w').
Proof.
  revert page_token product_list w fuel.
  induction pages as [|p pages IH]; intros page_token product_list w fuel Hpages Hgo Hstop Hfuel.
  - inversion Hpages as [|? ? ? w1 ? ? Hpage Hrest]; subst.
    inversion Hrest; subst.
    destruct fuel as [|fuel]; [simpl in Hfuel; lia|].
    rewrite (market_loop_step _ _ _ _ _ _ _ _ Hpage), Hstop.
    unfold market_entries. simpl. by rewrite app_nil_r.
  - simpl in Hpages.
    inversion Hpages as [|? ? ? w1 ? ? Hpage Hrest]; subst.
    destruct fuel as [|fuel]; [simpl in Hfuel; lia|].
    rewrite (market_loop_step _ _ _ _ _ _ _ _ Hpage).
    rewrite (Hgo p) by left.
    simpl app. rewrite market_entries_cons, app_assoc.
    apply IH; [done | | done | simpl in Hfuel; lia].
    intros p' Hp'. apply Hgo. by right.
Qed.

(** As long as the pages carry a token, the loop of market.py asks for the
    next page. *)
Lemma market_loop_goes_on (campaign_id market_token : string)
    (pages : list MarketPage.t) (page_token : string)
    (product_list : list MarketPage.entry) (w w' : World) :
  market_pages campaign_id market_token page_token w pages w' ->
  (∀ p, p ∈ pages -> Market.not_page (MarketPage.nextPageToken p) = false) ->
  Market.get_offer_ids_loop (length pages) page_token product_list
    campaign_id market_token w
  = (OutOfFuel, w').
Proof.
  revert page_token product_list w.
  induction pages as [|p pages IH]; intros page_token product_list w Hpages Hgo.
  - by inversion Hpages; subst.
  - inversion Hpages as [|? ? ? w1 ? ? Hpage Hrest]; subst.
    cbn [length]. rewrite (market_loop_step _ _ _ _ _ _ _ _ Hpage).
    rewrite (Hgo p) by left.
    apply IH; [done|]. intros p' Hp'. apply Hgo. by right.
Qed.

End Pages.

(** ** Batch splitting and the push loops *)

Section Batches.

(** C6. For every list of length L and every chunk size n >= 1,
    [divide(lst, n)] yields ceil(L/n) chunks; chunk number i is the slice of
    [lst] that starts at i*n, every chunk but the last has exactly n
    elements, the last has between 1 and n, and the chunks concatenated in
    the order yielded are the list itself. *)
Theorem divide_batches {A : Type} (lst : list A) (n : Z) :
  (1 <= n)%Z ->
  ∃ chunks,
    Seller.divide lst n = Ok chunks ∧
    Z.of_nat (length chunks) = ceil_div (Z.of_nat (length lst)) n ∧
    (∀ i chunk, chunks !! i = Some chunk ->
       chunk = take (Z.to_nat n) (drop (i * Z.to_nat n) lst)) ∧
    (∀ i chunk, chunks !! i = Some chunk -> i + 1 < length chunks ->
       Z.of_nat (length chunk) = n) ∧
    (∀ chunk, last chunks = Some chunk -> (1 <= Z.of_nat (length chunk) <= n)%Z) ∧
    concat chunks = lst.
Proof.
  intros Hn.
  destruct (divide_positive_chunks lst n Hn) as (chunks & Hdiv & Hcount & Hsize & Hcat).
  exists chunks. split; [done|]. split; [done|]. split; [|split; [|split; [|done]]].
  - intros i chunk Hi. rewrite divide_positive in Hdiv by done.
    injection Hdiv as <-.
    apply list_lookup_fmap_Some in Hi as (k & -> & Hk).
    by apply lookup_seq in Hk as [-> _].
  - intros i chunk Hi Hlt. by apply (Hsize i chunk Hi).
  - intros chunk Hlast. rewrite last_lookup in Hlast.
    by apply (Hsize _ chunk Hlast).
Qed.

Lemma divide_batches_witness :
  ∃ chunks,
    Seller.divide [1; 2; 3; 4; 5] 2 = Ok chunks ∧
    Z.of_nat (length chunks) = ceil_div (Z.of_nat (length [1; 2; 3; 4; 5])) 2 ∧
    (∀ i chunk, chunks !! i = Some chunk ->
       chunk = take (Z.to_nat 2) (drop (i * Z.to_nat 2) [1; 2; 3; 4; 5])) ∧
    (∀ i chunk, chunks !! i = Some chunk -> i + 1 < length chunks ->
       Z.of_nat (length chunk) = 2%Z) ∧
    (∀ chunk, last chunks = Some chunk -> (1 <= Z.of_nat (length chunk) <= 2)%Z) ∧
    concat chunks = [1; 2; 3; 4; 5].
Proof. apply (divide_batches [1; 2; 3; 4; 5] 2). lia. Defined.

(** C10. [divide] keeps its contract only for n >= 1, where it returns
    chunks none of which is empty.  For n = 0 it raises (the [ValueError] of
    [range]) as soon as it is iterated; for n < 0 it yields no chunk at all,
    so on a non-empty list the chunks do not give the list back and a push
    loop over them returns without having sent a request. *)
Theorem divide_precondition `{Environment} {A : Type} (lst : list A) (n : Z) :
  ((1 <= n)%Z ->
     ∃ chunks, Seller.divide lst n = Ok chunks ∧
               Forall (fun chunk => chunk ≠ []) chunks ∧
               concat chunks = lst) ∧
  (n = 0%Z -> Seller.divide lst n = Raise ValueError) ∧
  ((n < 0)%Z ->
     Seller.divide lst n = Ok [] ∧
     (lst ≠ [] -> concat (@nil (list A)) ≠ lst) ∧
     ∀ (push : list A -> M unit) (w : World),
       (chunks <- lift (Seller.divide lst n) ;; for_each chunks push) w
       = (Returns tt, w)).
Proof.
  split; [|split].
  - intros Hn.
    destruct (divide_positive_chunks lst n Hn) as (chunks & Hdiv & _ & Hsize & Hcat).
    exists chunks. split; [done|]. split; [|done].
    apply Forall_forall. intros chunk Hin.
    apply list_elem_of_lookup in Hin as [i Hi].
    destruct (Hsize i chunk Hi) as [Hlen _].
    intros ->. simpl in Hlen. lia.
  - intros ->. apply divide_zero.
  - intros Hn. rewrite divide_negative by done.
    split; [done|]. split; [by intros Hne <-|]. done.
Qed.

Lemma divide_precondition_witness :
  (∃ chunks, Seller.divide [1; 2; 3] 2 = Ok chunks ∧
             Forall (fun chunk => chunk ≠ []) chunks ∧
             concat chunks = [1; 2; 3]) ∧
  Seller.divide [1; 2; 3] 0 = Raise ValueError ∧
  Seller.divide [1; 2; 3] (-2) = Ok [] ∧
  concat (@nil (list nat)) ≠ [1; 2; 3].
Proof.
  destruct (@divide_precondition quiet nat [1; 2; 3] 2) as (Hpos & _ & _).
  destruct (@divide_precondition quiet nat [1; 2; 3] 0) as (_ & Hzero & _).
  destruct (@divide_precondition quiet nat [1; 2; 3] (-2)) as (_ & _ & Hneg).
  destruct (Hneg ltac:(lia)) as (Hnone & Hlost & _).
  split; [apply Hpos; lia|]. split; [by apply Hzero|]. split; [done|].
  by apply Hlost.
Defined.

(** C7. Every request that a push loop sends to a stock-update endpoint
    carries at most 100 entries for marketplace A and 2000 for marketplace B;
    every request to a price-update endpoint carries at most 900 ([main]) or
    1000 ([upload_prices]) entries for marketplace A and 500 for
    marketplace B.  This holds for every request issued by [main],
    [upload_prices] and [upload_stocks] of both files, whatever the servers
    answer and whatever the environment variables hold. *)
Theorem update_requests_within_caps `{Environment} (fuel : nat) (feed : list Watch)
    (token id id' warehouse warehouse' : string) (w : World) :
  Forall (within_caps 100 900) (issued (Seller.main fuel) w) ∧
  Forall (within_caps 100 900) (issued (Seller.main_try fuel token id) w) ∧
  Forall (within_caps 100 1000) (issued (Seller.upload_prices fuel feed id token) w) ∧
  Forall (within_caps 100 1000) (issued (Seller.upload_stocks fuel feed id token) w) ∧
  Forall (within_caps 2000 500) (issued (Market.upload_stocks fuel feed id token warehouse) w) ∧
  Forall (within_caps 2000 500) (issued (Market.upload_prices fuel feed id token) w) ∧
  Forall (within_caps 2000 500) (issued (Market.main fuel) w) ∧
  Forall (within_caps 2000 500)
    (issued (Market.main_download fuel token id id' warehouse warehouse') w).
Proof.
  repeat split; apply issued_only_issues.
  - apply seller_main_issues.
  - apply seller_main_try_issues.
  - apply seller_upload_prices_issues.
  - apply seller_upload_stocks_issues.
  - apply market_upload_stocks_issues.
  - apply market_upload_prices_issues.
  - apply market_main_issues.
  - apply market_main_download_issues.
Qed.

End Batches.

(** ** Fetching the catalog *)

Section Catalog.

Lemma no_cursor_wrong_total_loop (fuel n : nat) (sent0 : list Request)
    (h : gmap loc (list string)) :
  fst (@Seller.get_offer_ids_loop no_cursor_wrong_total fuel "" [] "client" "key"
         (@Build_World no_cursor_wrong_total h n sent0))
  = OutOfFuel.
Proof.
  revert n sent0. induction fuel as [|fuel IH]; intros n sent0; [done|].
  cbn [Seller.get_offer_ids_loop]. unfold bind at 1.
  unfold Seller.get_product_list, bind at 1, request. simpl.
  apply IH.
Qed.

(** C5, as stated, fails for marketplace A: a server that sends an empty
    [last_id] (no continuation) with a total that the count never reaches
    keeps the loop of seller.py going for ever, and a server whose first
    page reaches the total ends it although a [last_id] is given. *)
Lemma seller_loop_ignores_cursor :
  (∀ fuel,
     fst (@Seller.get_offer_ids no_cursor_wrong_total fuel "client" "key"
            (world_of no_cursor_wrong_total ∅ 0))
     = OutOfFuel) ∧
  (let run := @Seller.get_offer_ids cursor_and_total_reached 1 "client" "key"
                (world_of cursor_and_total_reached ∅ 0) in
   fst run = Returns 0 ∧
   heap (snd run) !! 0 = Some ["A1"] ∧
   sent (snd run) = [OzonProductList "" "client" "key"]).
Proof.
  split.
  - intros fuel. unfold Seller.get_offer_ids, bind, world_of.
    pose proof (no_cursor_wrong_total_loop fuel 0 [] ∅) as Hloop.
    destruct (Seller.get_offer_ids_loop _ _ _ _ _ _) as [[?|?|] ?];
      simpl in Hloop; done.
  - vm_compute. done.
Qed.

(** C5, amended.  Both loops start with an empty token and gather the
    entries of the pages in order.  The loop of seller.py (marketplace A)
    returns after the first page with which the number of gathered items
    equals the total that the page reports, and asks for another page as
    long as that is not so; the loop of market.py (marketplace B) returns
    after the first page whose [nextPageToken] is absent or empty, and asks
    for another page as long as there is one. *)
Theorem catalog_pagination `{Environment} (id token : string) (w w' : World) :
  (∀ pages page fuel,
     seller_pages id token "" w (pages ++ [page]) w' ->
     (∀ before p after, pages = before ++ p :: after -> ¬ seller_stop before p) ->
     seller_stop pages page ->
     length pages < fuel ->
     Seller.get_offer_ids fuel id token w
     = alloc (map SellerPage.offer_id (seller_items (pages ++ [page]))) w') ∧
  (∀ pages,
     seller_pages id token "" w pages w' ->
     (∀ before p after, pages = before ++ p :: after -> ¬ seller_stop before p) ->
     Seller.get_offer_ids (length pages) id token w = (OutOfFuel, w')) ∧
  (∀ pages page fuel,
     market_pages id token "" w (pages ++ [page]) w' ->
     (∀ p, p ∈ pages -> Market.not_page (MarketPage.nextPageToken p) = false) ->
     Market.not_page (MarketPage.nextPageToken page) = true ->
     length pages < fuel ->
     Market.get_offer_ids fuel id token w
     = alloc (map MarketPage.shopSku (market_entries (pages ++ [page]))) w') ∧
  (∀ pages,
     market_pages id token "" w pages w' ->
     (∀ p, p ∈ pages -> Market.not_page (MarketPage.nextPageToken p) = false) ->
     Market.get_offer_ids (length pages) id token w = (OutOfFuel, w')).
Proof.
  repeat split.
  - intros pages page fuel Hpages Hgo Hstop Hfuel.
    unfold Seller.get_offer_ids, bind.
    by rewrite (seller_loop_returns id token pages page "" [] w w' fuel).
  - intros pages Hpages Hgo.
    unfold Seller.get_offer_ids, bind.
    by rewrite (seller_loop_goes_on id token pages "" [] w w').
  - intros pages page fuel Hpages Hgo Hstop Hfuel.
    unfold Market.get_offer_ids, bind.
    by rewrite (market_loop_returns id token pages page "" [] w w' fuel).
  - intros pages Hpages Hgo.
    unfold Market.get_offer_ids, bind.
    by rewrite (market_loop_goes_on id token pages "" [] w w').
Qed.

Lemma catalog_pagination_witness :
  fst (@Seller.get_offer_ids two_seller_pages 2 "client" "key"
         (world_of two_seller_pages ∅ 0)) = Returns 0 ∧
  fst (@Market.get_offer_ids two_market_pages 2 "campaign" "token"
         (world_of two_market_pages ∅ 0)) = Returns 0.
Proof.
  split.
  - destruct (@catalog_pagination two_seller_pages "client" "key"
                (world_of two_seller_pages ∅ 0)
                (@Build_World two_seller_pages ∅ 2
                   [OzonProductList "" "client" "key";
                    OzonProductList "p1" "client" "key"]))
      as (Hseller & _).
    rewrite (Hseller [seller_page ["A1"; "A2"] 3 "p1"] (seller_page ["A3"] 3 "p2") 2).
    + reflexivity.
    + eapply seller_pages_cons; [reflexivity|].
      eapply seller_pages_cons; [reflexivity|]. apply seller_pages_nil.
    + intros [|p0 [|p1 before]] p after Heq; simplify_eq/=.
      unfold seller_stop. simpl. lia.
    + reflexivity.
    + simpl. lia.
  - destruct (@catalog_pagination two_market_pages "campaign" "token"
                (world_of two_market_pages ∅ 0)
                (@Build_World two_market_pages ∅ 2
                   [MarketOfferMappingEntries "" "campaign" "token";
                    MarketOfferMappingEntries "p1" "campaign" "token"]))
      as (_ & _ & Hmarket & _).
    rewrite (Hmarket [market_page ["A1"; "A2"] (Some "p1")] (market_page ["A3"] None) 2).
    + reflexivity.
    + eapply market_pages_cons; [reflexivity|].
      eapply market_pages_cons; [reflexivity|]. apply market_pages_nil.
    + intros p Hp. apply list_elem_of_singleton in Hp as ->. reflexivity.
    + reflexivity.
    + simpl. lia.
Defined.

End Catalog.

(** ** Quantities and prices *)

Section Normalization.

Lemma traverse_raises {A B : Type} (f : A -> result B) (lst : list A) (x : A) (e : exn) :
  x ∈ lst -> f x = Raise e -> ∃ e', traverse f lst = Raise e'.
Proof.
  intros Hin Hfx. destruct (traverse f lst) as [ys|e'] eqn:Htr; [|by eexists].
  destruct (traverse_ok_elem_of f lst ys x Htr Hin) as (y & Hy & _). congruence.
Qed.

Lemma stock_count_other `{Interpreter} (watch : Watch) (s : string) :
  Kolichestvo watch = VStr s -> s ≠ ">10" -> s ≠ "1" ->
  stock_count watch = int_of_str s.
Proof.
  intros Hq Hmany Hone. unfold stock_count. rewrite Hq. simpl.
  by rewrite !decide_False.
Qed.

Lemma stock_count_digits `{Interpreter} (watch : Watch) (s : string) :
  Kolichestvo watch = VStr s ->
  s ≠ EmptyString -> all_digits s = true -> s ≠ "1" ->
  stock_count watch
  = if over_limit (String.length s) then Raise ValueError else Ok (decimal s).
Proof.
  intros Hq Hne Hdigits Hone.
  rewrite (stock_count_other watch s) by (done || (intros ->; discriminate)).
  by apply int_of_str_digits.
Qed.

Lemma stock_count_raises `{Interpreter} (watch : Watch) (s : string) (e : exn) :
  Kolichestvo watch = VStr s -> stock_count watch = Raise e -> e = ValueError.
Proof.
  intros Hq. unfold stock_count. rewrite Hq. simpl.
  destruct (decide (s = ">10")); [done|].
  destruct (decide (s = "1")); [done|].
  apply int_of_str_raises.
Qed.

(** [int] on CPython 3.11 reads the decimal digits and the blanks of other
    scripts as well: an Arabic-Indic three, a full-width seven, a no-break
    space after the digits.  The unit separator is no blank for it. *)
Lemma int_of_other_scripts :
  @int_of_str cpython_3_11 "٣" = Ok 3%Z ∧
  @int_of_str cpython_3_11 "７" = Ok 7%Z ∧
  @int_of_str cpython_3_11 ("12" +:+ String "194" (String "160" "")) = Ok 12%Z ∧
  @int_of_str cpython_3_11 (String "031" "7") = Raise ValueError ∧
  @int_of_str cpython_3_11 ("7" +:+ String "031" "") = Raise ValueError.
Proof. repeat split; vm_compute; reflexivity. Qed.

(** C3, as stated, fails on an interpreter that bounds the digits of an
    integer literal, as CPython does from 3.11 on: a quantity of 4301
    nines is a numeric string, and [int] refuses it, so that neither
    [create_stocks] returns. *)
Lemma numeral_beyond_digit_limit :
  all_digits (nines 4301) = true ∧
  @stock_count cpython_3_11 (feed_row "A1" (nines 4301) "100.00")
  = Raise ValueError ∧
  fst (@Seller.create_stocks quiet [feed_row "A1" (nines 4301) "100.00"] 0
         (world_of quiet {[0 := ["A1"]]} 0))
  = Raises ValueError ∧
  fst (@Market.create_stocks quiet [feed_row "A1" (nines 4301) "100.00"] 0 "w"
         (world_of quiet {[0 := ["A1"]]} 0))
  = Raises ValueError.
Proof. repeat split; vm_compute; reflexivity. Qed.

(** C3, amended.  The quantity of a matched feed record is normalised so:
    [">10"] gives 100, ["1"] gives 0, and any other string goes to [int].
    A string of decimal digits that is within the interpreter's bound on
    the digits of a literal gives the number it denotes (["7"] gives 7);
    beyond the bound [int] fails.  For an ASCII string in general, [int]
    returns exactly when the string is an integer literal within the
    bound (blanks, an optional sign, digits with single underscores
    between them, blanks), and then gives the number the literal denotes;
    so a string with a character that cannot occur in a literal, or
    without any digit, such as ["abc"], makes it fail.  The only failure
    of the rule on a string is a ValueError (the ParseError of the
    specification).  Both [create_stocks] put exactly the number of the
    rule in the entry of every matched record, and neither returns when
    the rule fails on a matched record. *)
Theorem quantity_normalization `{Environment} (feed : list Watch) (l : loc)
    (warehouse_id : string) (w : World) (ids : list string) (watch : Watch) (s : string) :
  heap w !! l = Some ids ->
  watch ∈ matched feed ids ->
  Kolichestvo watch = VStr s ->
  (s = ">10" -> stock_count watch = Ok 100%Z) ∧
  (s = "1" -> stock_count watch = Ok 0%Z) ∧
  (s = "7" -> stock_count watch = Ok 7%Z) ∧
  (s ≠ EmptyString -> all_digits s = true -> s ≠ "1" ->
   over_limit (String.length s) = false ->
     stock_count watch = Ok (decimal s)) ∧
  (s ≠ EmptyString -> all_digits s = true ->
   over_limit (String.length s) = true ->
     stock_count watch = Raise ValueError) ∧
  (s = "abc" -> stock_count watch = Raise ValueError) ∧
  (is_ascii s = true -> s ≠ ">10" -> s ≠ "1" ->
   ∀ z, stock_count watch = Ok z <->
        ∃ n, int_literal s z n ∧ over_limit n = false) ∧
  (is_ascii s = true -> s ≠ ">10" ->
   ∀ c, c ∈ chars s -> literal_char c = false ->
        stock_count watch = Raise ValueError) ∧
  (is_ascii s = true -> Forall (fun c => is_digit c = false) (chars s) ->
     stock_count watch = Raise ValueError) ∧
  (∀ e, stock_count watch = Raise e -> e = ValueError) ∧
  (∀ stocks w', Seller.create_stocks feed l w = (Returns stocks, w') ->
     ∃ stock, stock_count watch = Ok stock ∧
              {| SellerStock.offer_id := code watch; SellerStock.stock := stock |}
              ∈ stocks) ∧
  (∀ stocks w', Market.create_stocks feed l warehouse_id w = (Returns stocks, w') ->
     ∃ stock, stock_count watch = Ok stock ∧
              Market.stock_entry (code watch) warehouse_id stock
                (utcnow (outside w) +:+ "Z")
              ∈ stocks).
Proof.
  intros Hl Hmatched Hq.
  split; [intros ->; unfold stock_count; by rewrite Hq|].
  split; [intros ->; unfold stock_count; by rewrite Hq|].
  split; [intros ->; unfold stock_count; by rewrite Hq|].
  split.
  { intros Hne Hdigits Hone Hlimit.
    by rewrite (stock_count_digits watch s), Hlimit. }
  split.
  { intros Hne Hdigits Hlimit.
    rewrite (stock_count_digits watch s), Hlimit; try done.
    intros ->. by vm_compute in Hlimit. }
  split; [intros ->; unfold stock_count; by rewrite Hq|].
  split.
  { intros Hascii Hmany Hone z. rewrite (stock_count_other watch s) by done.
    rewrite int_of_str_ascii by done. apply long_from_string_literal. }
  split.
  { intros Hascii Hmany c Hc Hbad.
    rewrite (stock_count_other watch s); try done.
    - by apply (int_of_str_bad_char s c).
    - intros ->. apply list_elem_of_singleton in Hc as ->. by vm_compute in Hbad. }
  split.
  { intros Hascii Hnone.
    rewrite (stock_count_other watch s); try done.
    - by apply int_of_str_no_digit.
    - intros ->. simpl in Hnone.
      apply Forall_cons in Hnone as [_ Hnone].
      by apply Forall_cons in Hnone as [? _].
    - intros ->. simpl in Hnone. by apply Forall_cons in Hnone as [? _]. }
  split; [intros e; by apply (stock_count_raises watch s)|].
  split.
  - intros stocks w' Hrun.
    destruct (seller_create_stocks_run feed l w ids Hl) as (ids' & Heq & _).
    rewrite Heq in Hrun. unfold seller_stocks in Hrun.
    destruct (traverse seller_stock (matched feed ids)) as [entries|e] eqn:Htr;
      [|done].
    injection Hrun as <- _.
    destruct (traverse_ok_elem_of _ _ _ _ Htr Hmatched) as (entry & Hentry & Hin).
    unfold seller_stock in Hentry.
    destruct (stock_count watch) as [stock|e]; [|done].
    injection Hentry as <-. exists stock. split; [done|].
    apply elem_of_app. by left.
  - intros stocks w' Hrun.
    destruct (market_create_stocks_run feed l warehouse_id w ids Hl) as (ids' & Heq & _).
    rewrite Heq in Hrun. unfold market_stocks in Hrun.
    destruct (traverse (market_stock warehouse_id (utcnow (outside w) +:+ "Z"))
                (matched feed ids)) as [entries|e] eqn:Htr; [|done].
    injection Hrun as <- _.
    destruct (traverse_ok_elem_of _ _ _ _ Htr Hmatched) as (entry & Hentry & Hin).
    unfold market_stock in Hentry.
    destruct (stock_count watch) as [stock|e]; [|done].
    injection Hentry as <-. exists stock. split; [done|].
    apply elem_of_app. by left.
Qed.

Lemma quantity_normalization_witness :
  @stock_count cpython_3_11 (feed_row "A1" "42" "100.00") = Ok 42%Z ∧
  @stock_count cpython_3_11 (feed_row "A1" " -1_000 " "100.00") = Ok (-1000)%Z ∧
  @stock_count cpython_3_11 (feed_row "A1" "12 pcs" "100.00") = Raise ValueError ∧
  @stock_count cpython_3_11 (feed_row "A1" "n/a" "100.00") = Raise ValueError.
Proof.
  split; [|split; [|split]].
  - destruct (@quantity_normalization quiet [feed_row "A1" "42" "100.00"] 0 "w"
                (world_of quiet {[0 := ["A1"]]} 0) ["A1"]
                (feed_row "A1" "42" "100.00") "42")
      as (_ & _ & _ & Hdigits & _).
    + reflexivity.
    + vm_compute. left.
    + reflexivity.
    + by apply Hdigits.
  - destruct (@quantity_normalization quiet [feed_row "A1" " -1_000 " "100.00"] 0 "w"
                (world_of quiet {[0 := ["A1"]]} 0) ["A1"]
                (feed_row "A1" " -1_000 " "100.00") " -1_000 ")
      as (_ & _ & _ & _ & _ & _ & Hliteral & _).
    + reflexivity.
    + vm_compute. left.
    + reflexivity.
    + apply Hliteral; [done..|].
      exists 4. split; [|reflexivity].
      exists " ", "-", "1_000", "1000", " ".
      repeat split; [|by right; right].
      apply digitpart_underscore; [done|].
      do 2 (apply digitpart_digit; [done|]). by apply digitpart_last.
  - destruct (@quantity_normalization quiet [feed_row "A1" "12 pcs" "100.00"] 0 "w"
                (world_of quiet {[0 := ["A1"]]} 0) ["A1"]
                (feed_row "A1" "12 pcs" "100.00") "12 pcs")
      as (_ & _ & _ & _ & _ & _ & _ & Hbad & _).
    + reflexivity.
    + vm_compute. left.
    + reflexivity.
    + apply (Hbad eq_refl ltac:(done) "p"%char); [|reflexivity].
      simpl. do 3 right. left.
  - destruct (@quantity_normalization quiet [feed_row "A1" "n/a" "100.00"] 0 "w"
                (world_of quiet {[0 := ["A1"]]} 0) ["A1"]
                (feed_row "A1" "n/a" "100.00") "n/a")
      as (_ & _ & _ & _ & _ & _ & _ & _ & Hnone & _).
    + reflexivity.
    + vm_compute. left.
    + reflexivity.
    + apply Hnone; [reflexivity|]. by repeat constructor.
Defined.

(** C4, as stated, fails: with no digit before the dot [price_conversion]
    returns the empty string, and [create_prices] of seller.py passes it on
    as the price. *)
Lemma empty_price_is_no_error :
  Seller.price_conversion (VStr ".50") = Ok "" ∧
  @Seller.create_prices quiet [feed_row "A1" "7" ".50"] 0
    (world_of quiet {[0 := ["A1"]]} 0)
  = (Returns [{| SellerPrice.auto_action_enabled := "UNKNOWN";
                 SellerPrice.currency_code := "RUB";
                 SellerPrice.offer_id := "A1";
                 SellerPrice.old_price := "0";
                 SellerPrice.price := "" |}],
     world_of quiet {[0 := ["A1"]]} 0).
Proof. split; reflexivity. Qed.

(** C4, amended.  [price_conversion] keeps the digits of the text before
    the first dot, in order, and nothing else (["5'990.00 руб."] gives
    ["5990"], ["1234"] gives ["1234"]); on a string it never fails.  When no
    digit comes before the dot the result is the empty string:
    [create_prices] of seller.py then emits the entry with the price [""],
    and [create_prices] of market.py, which passes the result to [int],
    does not return but raises (a ValueError when the record is the only
    one). *)
Theorem price_normalization `{Environment} (s : string) :
  Seller.price_conversion (VStr "5'990.00 руб.") = Ok "5990" ∧
  Seller.price_conversion (VStr "1234") = Ok "1234" ∧
  (∃ integer_part digits,
     ("."%char ∉ chars integer_part) ∧
     (s = integer_part ∨ (∃ rest, s = integer_part +:+ String "." rest)) ∧
     Seller.price_conversion (VStr s) = Ok digits ∧
     chars digits = List.filter is_digit (chars integer_part)) ∧
  (Seller.price_conversion (VStr s) = Ok "" ->
   ∀ (feed : list Watch) (l : loc) (w : World) (watch : Watch),
     watch ∈ feed -> Tsena watch = VStr s -> code watch ∈ default [] (heap w !! l) ->
     (∀ prices w', Seller.create_prices feed l w = (Returns prices, w') ->
        {| SellerPrice.auto_action_enabled := "UNKNOWN";
           SellerPrice.currency_code := "RUB";
           SellerPrice.offer_id := code watch;
           SellerPrice.old_price := "0";
           SellerPrice.price := "" |} ∈ prices) ∧
     Seller.create_prices [watch] l w
     = (Returns [{| SellerPrice.auto_action_enabled := "UNKNOWN";
                    SellerPrice.currency_code := "RUB";
                    SellerPrice.offer_id := code watch;
                    SellerPrice.old_price := "0";
                    SellerPrice.price := "" |}], w) ∧
     (∃ e, Market.create_prices feed l w = (Raises e, w)) ∧
     Market.create_prices [watch] l w = (Raises ValueError, w)).
Proof.
  split; [reflexivity|]. split; [reflexivity|]. split.
  - exists (split_head "." s), (sub_non_digits (split_head "." s)).
    destruct (split_head_prefix "." s) as [Hdot Hsplit].
    repeat split; try done. apply chars_sub_non_digits.
  - intros Hempty feed l w watch Hin Hprice Hcode.
    assert (Hseller : seller_price watch
                      = Ok {| SellerPrice.auto_action_enabled := "UNKNOWN";
                              SellerPrice.currency_code := "RUB";
                              SellerPrice.offer_id := code watch;
                              SellerPrice.old_price := "0";
                              SellerPrice.price := "" |}).
    { unfold seller_price. by rewrite Hprice, Hempty. }
    assert (Hmarket : market_price watch = Raise ValueError).
    { unfold market_price. by rewrite Hprice, Hempty. }
    assert (Hfiltered : watch ∈ filter (fun watch => code watch ∈ default [] (heap w !! l)) feed).
    { by apply list_elem_of_filter. }
    repeat split.
    + intros prices w'. rewrite seller_create_prices_run. unfold seller_prices.
      destruct (traverse seller_price _) as [entries|e] eqn:Htr; [|done].
      intros [= <- _].
      destruct (traverse_ok_elem_of _ _ _ _ Htr Hfiltered) as (entry & Hentry & Hin').
      congruence.
    + rewrite seller_create_prices_run. unfold seller_prices.
      rewrite filter_cons_True by done. simpl. by rewrite Hseller.
    + rewrite market_create_prices_run. unfold market_prices.
      destruct (traverse_raises market_price _ watch ValueError Hfiltered Hmarket)
        as [e ->].
      by exists e.
    + rewrite market_create_prices_run. unfold market_prices.
      rewrite filter_cons_True by done. simpl. by rewrite Hmarket.
Qed.

Lemma price_normalization_witness :
  @Market.create_prices quiet [feed_row "A1" "7" ".50"] 0
    (world_of quiet {[0 := ["A1"]]} 0)
  = (Raises ValueError, world_of quiet {[0 := ["A1"]]} 0).
Proof.
  destruct (@price_normalization quiet ".50") as (_ & _ & _ & Hempty).
  destruct (Hempty eq_refl [feed_row "A1" "7" ".50"] 0
              (world_of quiet {[0 := ["A1"]]} 0) (feed_row "A1" "7" ".50"))
    as (_ & _ & _ & Hmarket).
  - left.
  - reflexivity.
  - vm_compute. left.
  - exact Hmarket.
Defined.

End Normalization.

(** ** Reconciliation *)

Section Reconciliation.
Context `{Environment}.


Lemma matched_codes (feed : list Watch) (ids : list string) (watch : Watch) :
  watch ∈ matched feed ids -> code watch ∈ codes feed.
Proof.
  intros Hin%matched_elem_of. unfold codes. apply list_elem_of_fmap. eauto.
Qed.

Lemma seller_stock_key (watch : Watch) (entry : SellerStock.t) :
  seller_stock watch = Ok entry -> SellerStock.offer_id entry = code watch.
Proof.
  unfold seller_stock. destruct (stock_count watch); [|done]. by intros [= <-].
Qed.

Lemma market_stock_key (warehouse_id date : string) (watch : Watch)
    (entry : MarketStock.t) :
  market_stock warehouse_id date watch = Ok entry -> MarketStock.sku entry = code watch.
Proof.
  unfold market_stock. destruct (stock_count watch); [|done]. by intros [= <-].
Qed.

Lemma seller_price_key (watch : Watch) (entry : SellerPrice.t) :
  seller_price watch = Ok entry -> SellerPrice.offer_id entry = code watch.
Proof.
  unfold seller_price. destruct (Seller.price_conversion _); [|done].
  by intros [= <-].
Qed.


(** What a run of [create_stocks] that returns has done. *)
Lemma seller_create_stocks_returns (feed : list Watch) (l : loc) (w w' : World)
    (ids : list string) (stocks : list SellerStock.t) :
  heap w !! l = Some ids ->
  Seller.create_stocks feed l w = (Returns stocks, w') ->
  w' = with_content l (unmatched feed ids) w ∧
  ∃ entries,
    traverse seller_stock (matched feed ids) = Ok entries ∧
    stocks = entries ++ map seller_zero (unmatched feed ids).
Proof.
  intros Hl Hrun.
  destruct (seller_create_stocks_run feed l w ids Hl) as (ids' & Heq & Hids').
  rewrite Heq in Hrun. unfold seller_stocks in *.
  destruct (traverse seller_stock (matched feed ids)) as [entries|e]; [|done].
  injection Hrun as <- <-. split; [by rewrite (Hids' _ eq_refl) | by exists entries].
Qed.

Lemma market_create_stocks_returns (feed : list Watch) (l : loc)
    (warehouse_id : string) (w w' : World) (ids : list string)
    (stocks : list MarketStock.t) :
  heap w !! l = Some ids ->
  Market.create_stocks feed l warehouse_id w = (Returns stocks, w') ->
  w' = with_content l (unmatched feed ids) w ∧
  ∃ entries,
    traverse (market_stock warehouse_id (utcnow (outside w) +:+ "Z"))
      (matched feed ids) = Ok entries ∧
    stocks = entries ++
             map (fun offer_id =>
                    Market.stock_entry offer_id warehouse_id 0
                      (utcnow (outside w) +:+ "Z"))
                 (unmatched feed ids).
Proof.
  intros Hl Hrun.
  destruct (market_create_stocks_run feed l warehouse_id w ids Hl)
    as (ids' & Heq & Hids').
  rewrite Heq in Hrun. unfold market_stocks in *.
  destruct (traverse _ (matched feed ids)) as [entries|e]; [|done].
  injection Hrun as <- <-. split; [by rewrite (Hids' _ eq_refl) | by exists entries].
Qed.

(** The keys of a stock list: those of the matched records, then the ids
    left over; together, the offer ids of the catalog. *)
Lemma stock_keys_perm {B : Type} (f : Watch -> result B) (zero : string -> B)
    (key : B -> string) (feed : list Watch) (ids : list string) (entries : list B) :
  (∀ watch entry, f watch = Ok entry -> key entry = code watch) ->
  (∀ offer_id, key (zero offer_id) = offer_id) ->
  traverse f (matched feed ids) = Ok entries ->
  map key (entries ++ map zero (unmatched feed ids)) ≡ₚ ids.
Proof.
  intros Hkey Hzero Htr.
  rewrite map_app, map_map, (traverse_ok_keys f code key _ _ Hkey Htr).
  rewrite (map_ext _ (fun x => x)) by done. rewrite map_id.
  apply matched_unmatched_perm.
Qed.



(** One price entry per feed record whose code is in the list. *)
Lemma price_keys_count {B : Type} (f : Watch -> result B) (key : B -> string)
    (feed : list Watch) (ids : list string) (entries : list B) (c : string) :
  (∀ watch entry, f watch = Ok entry -> key entry = code watch) ->
  traverse f (filter (fun watch => code watch ∈ ids) feed) = Ok entries ->
  c ∈ ids ->
  occurrences key c entries = occurrences code c feed.
Proof.
  intros Hkey Htr Hin.
  rewrite occurrences_keys, (traverse_ok_keys f code key _ _ Hkey Htr).
  rewrite <- occurrences_keys. unfold occurrences.
  rewrite list_filter_filter. f_equal. apply filter_ext_elem_of.
  intros watch _. split; [tauto|]. intros Hc. split; [done | by rewrite Hc].
Qed.

Lemma seller_prices_after_stocks (feed : list Watch) (ids : list string) :
  NoDup ids -> seller_prices feed (unmatched feed ids) = Ok [].
Proof.
  intros Hnd. unfold seller_prices. rewrite filter_none; [done|].
  intros watch Hwatch. rewrite unmatched_NoDup by done.
  intros [Hnot _]%list_elem_of_filter. apply Hnot.
  unfold codes. apply list_elem_of_fmap. eauto.
Qed.

Lemma traverse_market_stock_blank (warehouse_id date : string) (lst : list Watch) :
  match traverse (market_stock warehouse_id date) lst with
  | Ok entries =>
      traverse (market_stock warehouse_id "") lst = Ok (map without_timestamp entries)
  | Raise e => traverse (market_stock warehouse_id "") lst = Raise e
  end.
Proof.
  assert (Hone : ∀ watch,
            match market_stock warehouse_id date watch with
            | Ok entry => market_stock warehouse_id "" watch = Ok (without_timestamp entry)
            | Raise e => market_stock warehouse_id "" watch = Raise e
            end).
  { intros watch. unfold market_stock. by destruct (stock_count watch). }
  induction lst as [|watch lst IH]; [done|].
  cbn [traverse]. specialize (Hone watch).
  destruct (market_stock warehouse_id date watch) as [entry|e]; rewrite Hone; [|done].
  destruct (traverse (market_stock warehouse_id date) lst) as [entries|e];
    by rewrite IH.
Qed.

Lemma market_stocks_blank (warehouse_id date : string) (feed : list Watch)
    (ids : list string) :
  outcome_map (map without_timestamp)
    (outcome_of (market_stocks warehouse_id date feed ids))
  = outcome_of (market_stocks warehouse_id "" feed ids).
Proof.
  unfold market_stocks.
  pose proof (traverse_market_stock_blank warehouse_id date (matched feed ids)) as Hb.
  destruct (traverse (market_stock warehouse_id date) (matched feed ids))
    as [entries|e]; rewrite Hb; [|done].
  simpl. f_equal. by rewrite map_app, !map_map.
Qed.

End Reconciliation.

(** ** The claims on reconciliation *)

Section ReconciliationClaims.

(** C1, as stated, fails on a feed with a duplicate code: of two records
    with the code ["A1"] only the first gets a stock entry, since it uses up
    the only ["A1"] of the catalog, while [create_prices], which removes
    nothing, emits a price entry for each of them. *)
Lemma duplicate_feed_code :
  let feed := [feed_row "A1" "5" "10.00"; feed_row "A1" "7" "20.00"] in
  let w := world_of quiet {[0 := ["A1"]]} 0 in
  fst (@Seller.create_stocks quiet feed 0 w)
  = Returns [{| SellerStock.offer_id := "A1"; SellerStock.stock := 5 |}] ∧
  (∃ prices,
     fst (@Seller.create_prices quiet feed 0 w) = Returns prices ∧
     occurrences SellerPrice.offer_id "A1" prices = 2).
Proof. split; [reflexivity|]. eexists. split; reflexivity. Qed.

(** C1, amended.  A feed record whose code occurs once in the feed and is
    in the catalog contributes exactly one stock entry, the one with its
    normalised quantity, to the entries that [create_stocks] builds from the
    feed, and exactly one price entry, the one with its converted price, to
    [create_prices] run on the catalog as fetched.  [create_stocks] leaves in
    [offer_ids] the ids that the feed has not used up; [create_prices]
    leaves [offer_ids] as it was. *)
Theorem matched_record_contributes_once `{Environment} (feed : list Watch) (l : loc)
    (w : World) (ids : list string) (watch : Watch) :
  heap w !! l = Some ids ->
  watch ∈ feed ->
  occurrences code (code watch) feed = 1 ->
  code watch ∈ ids ->
  (∀ stocks w', Seller.create_stocks feed l w = (Returns stocks, w') ->
     w' = with_content l (unmatched feed ids) w ∧
     ∃ stock from_feed,
       stocks = from_feed ++ map seller_zero (unmatched feed ids) ∧
       stock_count watch = Ok stock ∧
       {| SellerStock.offer_id := code watch; SellerStock.stock := stock |} ∈ from_feed ∧
       occurrences SellerStock.offer_id (code watch) from_feed = 1) ∧
  (∀ prices w', Seller.create_prices feed l w = (Returns prices, w') ->
     w' = w ∧
     ∃ converted,
       Seller.price_conversion (Tsena watch) = Ok converted ∧
       {| SellerPrice.auto_action_enabled := "UNKNOWN";
          SellerPrice.currency_code := "RUB";
          SellerPrice.offer_id := code watch;
          SellerPrice.old_price := "0";
          SellerPrice.price := converted |} ∈ prices ∧
       occurrences SellerPrice.offer_id (code watch) prices = 1).
Proof.
  intros Hl Hwatch Honce Hcode. split.
  - intros stocks w' Hrun.
    destruct (seller_create_stocks_returns feed l w w' ids stocks Hl Hrun)
      as (Hw' & entries & Htr & Hstocks).
    split; [done|].
    pose proof (matched_once feed ids (code watch) Hcode Honce) as Hmatched.
    assert (Hin : watch ∈ matched feed ids).
    { destruct (proj1 (occurrences_pos code (code watch) (matched feed ids)))
        as (other & Hother & Hkey); [lia|].
      rewrite (occurrences_one_unique code (code watch) feed watch other);
        try done.
      by apply (matched_elem_of feed ids). }
    destruct (traverse_ok_elem_of _ _ _ _ Htr Hin) as (entry & Hentry & Hentries).
    unfold seller_stock in Hentry.
    destruct (stock_count watch) as [stock|e]; [|done].
    injection Hentry as <-.
    exists stock, entries. repeat split; try done.
    rewrite occurrences_keys.
    rewrite (traverse_ok_keys seller_stock code SellerStock.offer_id _ _
               seller_stock_key Htr).
    by rewrite <- occurrences_keys.
  - intros prices w'. rewrite seller_create_prices_run, Hl. simpl.
    unfold seller_prices.
    destruct (traverse seller_price _) as [entries|e] eqn:Htr; [|done].
    intros [= <- <-]. split; [done|].
    assert (Hin : watch ∈ filter (fun watch => code watch ∈ ids) feed)
      by by apply list_elem_of_filter.
    destruct (traverse_ok_elem_of _ _ _ _ Htr Hin) as (entry & Hentry & Hentries).
    unfold seller_price in Hentry.
    destruct (Seller.price_conversion (Tsena watch)) as [converted|e]; [|done].
    injection Hentry as <-.
    exists converted. repeat split; try done.
    by rewrite (price_keys_count seller_price SellerPrice.offer_id feed ids entries
                  (code watch) seller_price_key Htr Hcode).
Qed.

Lemma matched_record_contributes_once_witness :
  ∃ prices,
    fst (@Seller.create_prices quiet
           [feed_row "A1" ">10" "100.00"; feed_row "A2" "1" "50.00"] 0
           (world_of quiet {[0 := ["A1"; "A2"; "A3"]]} 0))
    = Returns prices ∧
    occurrences SellerPrice.offer_id "A1" prices = 1.
Proof.
  destruct (@matched_record_contributes_once quiet
              [feed_row "A1" ">10" "100.00"; feed_row "A2" "1" "50.00"] 0
              (world_of quiet {[0 := ["A1"; "A2"; "A3"]]} 0)
              ["A1"; "A2"; "A3"] (feed_row "A1" ">10" "100.00"))
    as [_ Hprices].
  - reflexivity.
  - left.
  - reflexivity.
  - vm_compute. left.
  - eexists. split; [reflexivity|].
    destruct (Hprices _ _ eq_refl) as (_ & converted & _ & _ & Hone).
    exact Hone.
Defined.

(** The catalog is a set of offer ids; a list that repeats an id is outside
    that contract, and then each occurrence gets a stock entry.  This is why
    the theorem below takes a list without repetition. *)
Lemma duplicate_catalog_id :
  ∃ stocks,
    fst (@Seller.create_stocks quiet [] 0 (world_of quiet {[0 := ["A1"; "A1"]]} 0))
    = Returns stocks ∧
    occurrences SellerStock.offer_id "A1" stocks = 2.
Proof. eexists. split; reflexivity. Qed.



End ReconciliationClaims.

(** ** Runs that share or copy the offer-id list *)

Section Sharing.

Lemma keeps_heap_for_each `{Environment} {A : Type} (lst : list A) (body : A -> M unit) :
  (∀ x, keeps_heap (body x)) -> keeps_heap (for_each lst body).
Proof.
  intros Hbody. induction lst as [|x lst IH]; intros w; [done|].
  simpl. unfold bind. pose proof (Hbody x w) as Hx.
  destruct (body x w) as [[[]|e|] w1]; simpl in *; [|done..].
  by rewrite IH.
Qed.

Lemma keeps_heap_update_stocks `{Environment} (stocks : list SellerStock.t)
    (client_id seller_token : string) :
  keeps_heap (Seller.update_stocks stocks client_id seller_token).
Proof.
  intros w. unfold Seller.update_stocks, bind, request.
  by destruct (http _ (outside w)) as [[r|e] o].
Qed.

Lemma stock_updates_are_no_price_updates `{Environment} (stocks : list SellerStock.t)
    (client_id seller_token : string) :
  only_issues (fun q => is_price_update q = false)
    (Seller.update_stocks stocks client_id seller_token).
Proof.
  unfold Seller.update_stocks. apply only_issues_bind.
  - by apply only_issues_request.
  - intros _. apply only_issues_ret.
Qed.

(** In [main] of seller.py, with a catalog that lists no id twice, the
    price loop has nothing to send. *)
Lemma seller_main_update_sends_no_price `{Environment} (feed : list Watch) (l : loc)
    (client_id seller_token : string) (w : World) (ids : list string) :
  heap w !! l = Some ids ->
  NoDup ids ->
  Forall (fun q => is_price_update q = false)
    (issued (Seller.main_update feed l client_id seller_token) w).
Proof.
  intros Hl Hnd. unfold issued, Seller.main_update, bind at 1.
  destruct (seller_create_stocks_run feed l w ids Hl) as (ids' & Hrun & Hids').
  rewrite Hrun.
  destruct (seller_stocks feed ids) as [stocks|e]; cbn [outcome_of snd];
    [|change (sent (with_content l ids' w)) with (sent w); by rewrite drop_all].
  rewrite (Hids' stocks eq_refl).
  set (w1 := with_content l (unmatched feed ids) w).
  unfold bind at 1.
  destruct (Seller.divide stocks 100) as [chunks|e]; cbn [lift ret raise snd];
    [|change (sent w1) with (sent w); by rewrite drop_all].
  unfold bind at 1.
  pose proof (keeps_heap_for_each chunks
                (fun some_stock => Seller.update_stocks some_stock client_id seller_token)
                (fun x => keeps_heap_update_stocks x client_id seller_token) w1) as Hheap.
  destruct (only_issues_for_each (fun q => is_price_update q = false) chunks
              (fun some_stock => Seller.update_stocks some_stock client_id seller_token)
              (fun x _ => stock_updates_are_no_price_updates x client_id seller_token) w1)
    as (new & Hsent & Hnew).
  change (sent w1) with (sent w) in Hsent.
  destruct (for_each chunks _ w1) as [[[]|e|] w2]; cbn [snd] in *.
  - unfold bind at 1. rewrite seller_create_prices_run.
    rewrite Hheap. unfold w1. rewrite heap_with_content. cbn [default from_option id].
    rewrite seller_prices_after_stocks by done. cbn [outcome_of].
    change (Forall (fun q => is_price_update q = false)
              (drop (length (sent w)) (sent w2))).
    rewrite Hsent. by rewrite drop_app_length.
  - rewrite Hsent. by rewrite drop_app_length.
  - rewrite Hsent. by rewrite drop_app_length.
Qed.

(** C8, as stated, fails for marketplace B: its stock entries carry the
    time of the run, so two runs on the same feed and catalog at different
    seconds give different lists. *)
Lemma market_stocks_carry_the_clock :
  fst (@Market.create_stocks quiet [] 0 "w" (world_of quiet {[0 := ["A1"]]} 0))
  ≠ fst (@Market.create_stocks quiet [] 0 "w" (world_of quiet {[0 := ["A1"]]} 1)).
Proof. vm_compute. discriminate. Qed.

(** A second run on the list object that a first run has consumed, instead
    of on a fresh copy, gives another result. *)
Lemma second_run_on_consumed_list :
  let feed := [feed_row "A1" "5" "10.00"] in
  let w := world_of quiet {[0 := ["A1"]]} 0 in
  fst (@Seller.create_stocks quiet feed 0 w)
  ≠ fst (@Seller.create_stocks quiet feed 0 (snd (@Seller.create_stocks quiet feed 0 w))).
Proof. vm_compute. discriminate. Qed.

(** C8, amended.  Two runs on the same feed, each on a list object that
    holds the same catalog, in whatever worlds, end alike: with the same
    stock list and the same price list for seller.py, the same price list
    for market.py, and stock lists for market.py that are the same up to the
    [updatedAt] field of their entries, and the same altogether when the two
    runs read the same time. *)
Theorem reconciliation_deterministic `{Environment} (feed : list Watch)
    (ids : list string) (warehouse_id : string) (l1 l2 : loc) (w1 w2 : World) :
  heap w1 !! l1 = Some ids ->
  heap w2 !! l2 = Some ids ->
  fst (Seller.create_stocks feed l1 w1) = fst (Seller.create_stocks feed l2 w2) ∧
  fst (Seller.create_prices feed l1 w1) = fst (Seller.create_prices feed l2 w2) ∧
  fst (Market.create_prices feed l1 w1) = fst (Market.create_prices feed l2 w2) ∧
  outcome_map (map without_timestamp) (fst (Market.create_stocks feed l1 warehouse_id w1))
  = outcome_map (map without_timestamp) (fst (Market.create_stocks feed l2 warehouse_id w2)) ∧
  (utcnow (outside w1) = utcnow (outside w2) ->
   fst (Market.create_stocks feed l1 warehouse_id w1)
   = fst (Market.create_stocks feed l2 warehouse_id w2)).
Proof.
  intros Hl1 Hl2.
  destruct (seller_create_stocks_run feed l1 w1 ids Hl1) as (? & Hs1 & _).
  destruct (seller_create_stocks_run feed l2 w2 ids Hl2) as (? & Hs2 & _).
  destruct (market_create_stocks_run feed l1 warehouse_id w1 ids Hl1) as (? & Hm1 & _).
  destruct (market_create_stocks_run feed l2 warehouse_id w2 ids Hl2) as (? & Hm2 & _).
  rewrite Hs1, Hs2, Hm1, Hm2, !seller_create_prices_run, !market_create_prices_run.
  rewrite Hl1, Hl2. simpl. repeat split; try done.
  - by rewrite !market_stocks_blank.
  - by intros ->.
Qed.

Lemma reconciliation_deterministic_witness :
  fst (@Seller.create_stocks quiet [feed_row "A1" "5" "10.00"] 0
         (world_of quiet {[0 := ["A1"; "A2"]]} 0))
  = fst (@Seller.create_stocks quiet [feed_row "A1" "5" "10.00"] 3
           (world_of quiet {[0 := ["A2"]; 3 := ["A1"; "A2"]]} 7)).
Proof.
  destruct (@reconciliation_deterministic quiet [feed_row "A1" "5" "10.00"]
              ["A1"; "A2"] "w" 0 3
              (world_of quiet {[0 := ["A1"; "A2"]]} 0)
              (world_of quiet {[0 := ["A2"]; 3 := ["A1"; "A2"]]} 7))
    as [Hstocks _].
  - reflexivity.
  - reflexivity.
  - exact Hstocks.
Defined.

(** C9, as stated, fails on a catalog that lists an offer id twice: the
    record with the code ["A1"] is matched by [create_stocks], one ["A1"]
    stays in [offer_ids], and [main] goes on to send a price for ["A1"]. *)
Lemma duplicate_catalog_id_still_priced :
  let feed := [feed_row "A1" "5" "10.00"] in
  let w := world_of quiet {[0 := ["A1"; "A1"]]} 0 in
  let after := snd (@Seller.create_stocks quiet feed 0 w) in
  heap after !! 0 = Some ["A1"] ∧
  (∃ price, fst (@Seller.create_prices quiet feed 0 after) = Returns [price] ∧
            SellerPrice.offer_id price = "A1") ∧
  Exists (fun q => is_price_update q = true)
    (issued (@Seller.main_update quiet feed 0 "client" "key") w).
Proof.
  split; [reflexivity|]. split.
  - eexists. split; reflexivity.
  - vm_compute. right. left. reflexivity.
Qed.

(** C9, amended.  When the catalog lists no offer id twice, [create_stocks]
    of seller.py leaves in its caller's [offer_ids] exactly the catalog ids
    that are the code of no feed record, in catalog order, and changes
    nothing else; [create_prices] run on that list returns no entry at all,
    and [main], which does so, sends no price update. *)
Theorem create_stocks_consumes_offer_ids `{Environment} (feed : list Watch) (l : loc)
    (client_id seller_token : string) (w : World) (ids : list string) :
  heap w !! l = Some ids ->
  NoDup ids ->
  (∀ stocks w', Seller.create_stocks feed l w = (Returns stocks, w') ->
     w' = with_content l (filter (fun offer_id => offer_id ∉ codes feed) ids) w ∧
     Seller.create_prices feed l w' = (Returns [], w')) ∧
  Forall (fun q => is_price_update q = false)
    (issued (Seller.main_update feed l client_id seller_token) w).
Proof.
  intros Hl Hnd. split; [|by apply (seller_main_update_sends_no_price _ _ _ _ _ ids)].
  intros stocks w' Hrun.
  destruct (seller_create_stocks_returns feed l w w' ids stocks Hl Hrun) as (-> & _).
  split; [by rewrite unmatched_NoDup|].
  rewrite seller_create_prices_run, heap_with_content. simpl.
  by rewrite seller_prices_after_stocks.
Qed.

Lemma create_stocks_consumes_offer_ids_witness :
  Forall (fun q => is_price_update q = false)
    (issued (@Seller.main_update quiet
               [feed_row "A1" ">10" "100.00"; feed_row "A2" "1" "50.00"] 0
               "client" "key")
       (world_of quiet {[0 := ["A1"; "A2"; "A3"]]} 0)).
Proof.
  apply (@create_stocks_consumes_offer_ids quiet
           [feed_row "A1" ">10" "100.00"; feed_row "A2" "1" "50.00"] 0
           "client" "key" (world_of quiet {[0 := ["A1"; "A2"; "A3"]]} 0)
           ["A1"; "A2"; "A3"]).
  - reflexivity.
  - apply (bool_decide_unpack _). vm_compute. exact I.
Defined.

End Sharing.

(** * Further properties *)

(** ** Reconciliation on any feed and catalog *)

Section MoreMatching.

Lemma without_first_elem_of (x y : string) (lst : list string) :
  y ∈ without_first x lst -> y ∈ lst.
Proof.
  intros Hy. destruct (decide (x ∈ lst)) as [Hx|Hx].
  - rewrite (without_first_perm x lst Hx). by right.
  - unfold without_first in Hy. by rewrite remove_not_elem_of in Hy.
Qed.

Lemma occurrences_without_first (c x : string) (lst : list string) :
  x ∈ lst ->
  occurrences (fun y => y) c lst
  = (if decide (x = c) then 1 else 0) + occurrences (fun y => y) c (without_first x lst).
Proof.
  intros Hx.
  rewrite (occurrences_perm _ c lst (x :: without_first x lst))
    by by apply without_first_perm.
  rewrite occurrences_cons. by destruct (decide (x = c)).
Qed.

Lemma occurrences_not_elem_of (c : string) (lst : list string) :
  c ∉ lst -> occurrences (fun y => y) c lst = 0.
Proof. intros Hc. apply occurrences_zero. by intros y Hy ->. Qed.

(** How many of the feed records with a given code are matched: as many
    as the feed has, up to the number of times the catalog lists the code. *)
Lemma matched_count (feed : list Watch) (ids : list string) (c : string) :
  occurrences code c (matched feed ids)
  = occurrences code c feed `min` occurrences (fun y => y) c ids.
Proof.
  revert ids. induction feed as [|watch rest IH]; intros ids; [done|].
  rewrite (occurrences_cons code c watch rest). simpl.
  destruct (decide (code watch ∈ ids)) as [Hin|Hnot].
  - rewrite occurrences_cons, IH.
    rewrite (occurrences_without_first c (code watch) ids Hin).
    destruct (decide (code watch = c)); lia.
  - rewrite IH. destruct (decide (code watch = c)) as [Hc|Hc]; [|done].
    rewrite Hc in Hnot. rewrite (occurrences_not_elem_of c ids Hnot). lia.
Qed.

Lemma unmatched_count (feed : list Watch) (ids : list string) (c : string) :
  occurrences (fun y => y) c (unmatched feed ids)
  = occurrences (fun y => y) c ids - occurrences code c feed.
Proof.
  pose proof (matched_count feed ids c) as Hm.
  pose proof (occurrences_perm (fun y => y) c _ _ (matched_unmatched_perm feed ids)) as Hp.
  rewrite occurrences_app in Hp. unfold codes in Hp.
  rewrite <- occurrences_keys in Hp. lia.
Qed.

Lemma matched_app (before rest : list Watch) (ids : list string) :
  matched (before ++ rest) ids
  = matched before ids ++ matched rest (unmatched before ids).
Proof.
  revert ids. induction before as [|watch before IH]; intros ids; [done|].
  simpl. destruct (decide (code watch ∈ ids)); [|apply IH].
  simpl. f_equal. apply IH.
Qed.

Lemma unmatched_app (before rest : list Watch) (ids : list string) :
  unmatched (before ++ rest) ids = unmatched rest (unmatched before ids).
Proof.
  revert ids. induction before as [|watch before IH]; intros ids; [done|].
  simpl. destruct (decide (code watch ∈ ids)); apply IH.
Qed.

(** A record whose code the catalog does not have is never matched, so the
    walk over the feed is the walk over the records the catalog knows. *)
Lemma matched_filter (feed : list Watch) (ids ids' : list string) :
  ids' ⊆ ids ->
  matched (filter (fun watch => code watch ∈ ids) feed) ids' = matched feed ids' ∧
  unmatched (filter (fun watch => code watch ∈ ids) feed) ids' = unmatched feed ids'.
Proof.
  revert ids'. induction feed as [|watch rest IH]; intros ids' Hsub; [done|].
  rewrite filter_cons. destruct (decide (code watch ∈ ids)) as [Hin|Hnot].
  - simpl. destruct (decide (code watch ∈ ids')).
    + destruct (IH (without_first (code watch) ids')) as [-> ->]; [|done].
      intros x Hx%without_first_elem_of. by apply Hsub.
    + by apply IH.
  - simpl. destruct (decide (code watch ∈ ids')) as [Hc|_];
      [by destruct Hnot; apply Hsub | by apply IH].
Qed.

Lemma traverse_raise_from {A B : Type} (f : A -> result B) (lst : list A) (e : exn) :
  traverse f lst = Raise e -> ∃ x, x ∈ lst ∧ f x = Raise e.
Proof.
  induction lst as [|x lst IH]; [done|]. simpl.
  destruct (f x) as [y|e'] eqn:Hfx.
  - destruct (traverse f lst) as [ys|e'']; [done|].
    intros [= ->]. destruct (IH eq_refl) as (x' & Hin & Hx').
    exists x'. split; [by right | done].
  - intros [= ->]. exists x. split; [left | done].
Qed.

Lemma traverse_app {A B : Type} (f : A -> result B) (l1 l2 : list A) :
  traverse f (l1 ++ l2)
  = match traverse f l1 with
    | Ok ys1 =>
        match traverse f l2 with
        | Ok ys2 => Ok (ys1 ++ ys2)
        | Raise e => Raise e
        end
    | Raise e => Raise e
    end.
Proof.
  induction l1 as [|x l1 IH]; simpl.
  - by destruct (traverse f l2).
  - destruct (f x); [|done]. rewrite IH.
    destruct (traverse f l1); [|done]. by destruct (traverse f l2).
Qed.

Lemma traverse_length {A B : Type} (f : A -> result B) (lst : list A) (ys : list B) :
  traverse f lst = Ok ys -> length ys = length lst.
Proof.
  revert ys. induction lst as [|x lst IH]; intros ys; simpl.
  - by intros [= <-].
  - destruct (f x); [|done]. destruct (traverse f lst) as [ys'|]; [|done].
    intros [= <-]. simpl. f_equal. by apply IH.
Qed.

End MoreMatching.

Section MoreRuns.
Context `{Environment}.

Lemma seller_create_stocks_feed_filter (feed : list Watch) (l : loc)
    (stocks : list SellerStock.t) (w : World) (ids ids' : list string) :
  heap w !! l = Some ids' -> ids' ⊆ ids ->
  Seller.create_stocks_feed feed l stocks w
  = Seller.create_stocks_feed (filter (fun watch => code watch ∈ ids) feed) l stocks w.
Proof.
  revert stocks w ids'. induction feed as [|watch rest IH]; intros stocks w ids' Hl Hsub;
    [done|].
  rewrite filter_cons, (seller_create_stocks_feed_cons _ _ _ _ _ _ Hl).
  assert (Hsub' : without_first (code watch) ids' ⊆ ids).
  { intros x Hx%without_first_elem_of. by apply Hsub. }
  destruct (decide (code watch ∈ ids)) as [Hin|Hnot].
  - rewrite (seller_create_stocks_feed_cons _ _ _ _ _ _ Hl).
    destruct (decide (code watch ∈ ids')); [|by apply (IH _ _ ids')].
    destruct (stock_count watch); [|done].
    by apply (IH _ _ (without_first (code watch) ids')); [apply heap_with_content|].
  - destruct (decide (code watch ∈ ids')) as [Hc|_];
      [by destruct Hnot; apply Hsub | by apply (IH _ _ ids')].
Qed.

Lemma market_create_stocks_feed_filter (feed : list Watch) (l : loc)
    (warehouse_id date : string) (stocks : list MarketStock.t) (w : World)
    (ids ids' : list string) :
  heap w !! l = Some ids' -> ids' ⊆ ids ->
  Market.create_stocks_feed feed l warehouse_id date stocks w
  = Market.create_stocks_feed (filter (fun watch => code watch ∈ ids) feed) l
      warehouse_id date stocks w.
Proof.
  revert stocks w ids'. induction feed as [|watch rest IH]; intros stocks w ids' Hl Hsub;
    [done|].
  rewrite filter_cons, (market_create_stocks_feed_cons _ _ _ _ _ _ _ _ Hl).
  assert (Hsub' : without_first (code watch) ids' ⊆ ids).
  { intros x Hx%without_first_elem_of. by apply Hsub. }
  destruct (decide (code watch ∈ ids)) as [Hin|Hnot].
  - rewrite (market_create_stocks_feed_cons _ _ _ _ _ _ _ _ Hl).
    destruct (decide (code watch ∈ ids')); [|by apply (IH _ _ ids')].
    destruct (stock_count watch); [|done].
    by apply (IH _ _ (without_first (code watch) ids')); [apply heap_with_content|].
  - destruct (decide (code watch ∈ ids')) as [Hc|_];
      [by destruct Hnot; apply Hsub | by apply (IH _ _ ids')].
Qed.

Lemma filter_filter_same {A : Type} (P : A -> Prop) `{!∀ x, Decision (P x)}
    (lst : list A) :
  filter P (filter P lst) = filter P lst.
Proof. apply filter_all. by intros x [HP _]%list_elem_of_filter. Qed.

Lemma seller_create_stocks_feed_app (before rest : list Watch) (l : loc)
    (stocks : list SellerStock.t) (w : World) (ids : list string) :
  heap w !! l = Some ids ->
  Seller.create_stocks_feed (before ++ rest) l stocks w
  = match Seller.create_stocks_feed before l stocks w with
    | (Returns stocks', w1) => Seller.create_stocks_feed rest l stocks' w1
    | other => other
    end.
Proof.
  revert stocks w ids. induction before as [|watch before IH]; intros stocks w ids Hl;
    [done|].
  change ((watch :: before) ++ rest) with (watch :: (before ++ rest)).
  rewrite !(seller_create_stocks_feed_cons _ _ _ _ _ _ Hl).
  destruct (decide (code watch ∈ ids)); [|by apply (IH _ _ ids)].
  destruct (stock_count watch); [|done].
  by apply (IH _ _ (without_first (code watch) ids)), heap_with_content.
Qed.

Lemma market_create_stocks_feed_app (before rest : list Watch) (l : loc)
    (warehouse_id date : string) (stocks : list MarketStock.t) (w : World)
    (ids : list string) :
  heap w !! l = Some ids ->
  Market.create_stocks_feed (before ++ rest) l warehouse_id date stocks w
  = match Market.create_stocks_feed before l warehouse_id date stocks w with
    | (Returns stocks', w1) =>
        Market.create_stocks_feed rest l warehouse_id date stocks' w1
    | other => other
    end.
Proof.
  revert stocks w ids. induction before as [|watch before IH]; intros stocks w ids Hl;
    [done|].
  change ((watch :: before) ++ rest) with (watch :: (before ++ rest)).
  rewrite !(market_create_stocks_feed_cons _ _ _ _ _ _ _ _ Hl).
  destruct (decide (code watch ∈ ids)); [|by apply (IH _ _ ids)].
  destruct (stock_count watch); [|done].
  by apply (IH _ _ (without_first (code watch) ids)), heap_with_content.
Qed.


End MoreRuns.

Section ReconciliationAtLarge.

(** X1. A feed record whose code the catalog does not list has no effect
    on either computation of either file: the result, the exception raised
    if any, and the list left in [offer_ids] are those of the feed without
    that record, also when its quantity or its price is malformed. *)
Theorem unknown_codes_are_skipped `{Environment} (feed : list Watch) (l : loc)
    (warehouse_id : string) (w : World) (ids : list string) :
  heap w !! l = Some ids ->
  Seller.create_stocks feed l w
  = Seller.create_stocks (filter (fun watch => code watch ∈ ids) feed) l w ∧
  Seller.create_prices feed l w
  = Seller.create_prices (filter (fun watch => code watch ∈ ids) feed) l w ∧
  Market.create_stocks feed l warehouse_id w
  = Market.create_stocks (filter (fun watch => code watch ∈ ids) feed) l warehouse_id w ∧
  Market.create_prices feed l w
  = Market.create_prices (filter (fun watch => code watch ∈ ids) feed) l w.
Proof.
  intros Hl. repeat split.
  - unfold Seller.create_stocks, bind.
    by rewrite (seller_create_stocks_feed_filter feed l [] w ids ids Hl).
  - rewrite !seller_create_prices_run, Hl. unfold seller_prices. simpl.
    by rewrite filter_filter_same.
  - unfold Market.create_stocks, bind at 1 3, clock. unfold bind.
    by rewrite (market_create_stocks_feed_filter feed l _ _ [] w ids ids Hl).
  - rewrite !market_create_prices_run, Hl. unfold market_prices. simpl.
    by rewrite filter_filter_same.
Qed.

Lemma unknown_codes_are_skipped_witness :
  @Seller.create_stocks quiet
    [feed_row "B9" "n/a" "?"; feed_row "A1" "5" "10.00"] 0
    (world_of quiet {[0 := ["A1"]]} 0)
  = @Seller.create_stocks quiet [feed_row "A1" "5" "10.00"] 0
      (world_of quiet {[0 := ["A1"]]} 0).
Proof.
  apply (@unknown_codes_are_skipped quiet
           [feed_row "B9" "n/a" "?"; feed_row "A1" "5" "10.00"] 0 "w"
           (world_of quiet {[0 := ["A1"]]} 0) ["A1"]).
  reflexivity.
Defined.

(** X2. Whatever the feed, and also when the catalog lists an id more than
    once, the stock list that [create_stocks] of either file returns has as
    many entries as the catalog has ids, and the ids of its entries are the
    ids of the catalog in another order. *)
Theorem stock_list_covers_catalog `{Environment} (feed : list Watch) (l : loc)
    (warehouse_id : string) (w : World) (ids : list string) :
  heap w !! l = Some ids ->
  (∀ stocks w', Seller.create_stocks feed l w = (Returns stocks, w') ->
     map SellerStock.offer_id stocks ≡ₚ ids ∧ length stocks = length ids) ∧
  (∀ stocks w', Market.create_stocks feed l warehouse_id w = (Returns stocks, w') ->
     map MarketStock.sku stocks ≡ₚ ids ∧ length stocks = length ids).
Proof.
  intros Hl. split.
  - intros stocks w' Hrun.
    destruct (seller_create_stocks_returns feed l w w' ids stocks Hl Hrun)
      as (_ & entries & Htr & ->).
    assert (Hperm : map SellerStock.offer_id
                      (entries ++ map seller_zero (unmatched feed ids)) ≡ₚ ids)
      by by apply (stock_keys_perm seller_stock seller_zero SellerStock.offer_id
                     feed ids entries seller_stock_key).
    split; [done|]. by rewrite <- (length_map SellerStock.offer_id), Hperm.
  - intros stocks w' Hrun.
    destruct (market_create_stocks_returns feed l warehouse_id w w' ids stocks Hl Hrun)
      as (_ & entries & Htr & ->).
    assert (Hperm : map MarketStock.sku
                      (entries ++
                       map (fun offer_id =>
                              Market.stock_entry offer_id warehouse_id 0
                                (utcnow (outside w) +:+ "Z"))
                           (unmatched feed ids)) ≡ₚ ids)
      by by apply (stock_keys_perm
                     (market_stock warehouse_id (utcnow (outside w) +:+ "Z"))
                     _ MarketStock.sku feed ids entries (market_stock_key _ _)).
    split; [done|]. by rewrite <- (length_map MarketStock.sku), Hperm.
Qed.

Lemma stock_list_covers_catalog_witness :
  ∃ stocks,
    fst (@Seller.create_stocks quiet [feed_row "A1" "5" "10.00"] 0
           (world_of quiet {[0 := ["A1"; "A2"; "A1"]]} 0)) = Returns stocks ∧
    length stocks = 3.
Proof.
  destruct (@stock_list_covers_catalog quiet [feed_row "A1" "5" "10.00"] 0 "w"
              (world_of quiet {[0 := ["A1"; "A2"; "A1"]]} 0) ["A1"; "A2"; "A1"])
    as [Hseller _]; [reflexivity|].
  eexists. split; [reflexivity|].
  by destruct (Hseller _ _ eq_refl) as [_ Hlen].
Defined.

(** X3. [create_stocks] of either file returns exactly when the quantity
    rule succeeds on every record that is matched; when it raises, the
    exception is the one that the rule raises on a matched record.  A
    malformed quantity in a record that is not matched is never looked at. *)
Theorem create_stocks_returns_iff `{Environment} (feed : list Watch) (l : loc)
    (warehouse_id : string) (w : World) (ids : list string) :
  heap w !! l = Some ids ->
  ((∃ stocks w', Seller.create_stocks feed l w = (Returns stocks, w')) <->
   (∀ watch, watch ∈ matched feed ids -> ∃ stock, stock_count watch = Ok stock)) ∧
  (∀ e w', Seller.create_stocks feed l w = (Raises e, w') ->
     ∃ watch, watch ∈ matched feed ids ∧ stock_count watch = Raise e) ∧
  ((∃ stocks w', Market.create_stocks feed l warehouse_id w = (Returns stocks, w')) <->
   (∀ watch, watch ∈ matched feed ids -> ∃ stock, stock_count watch = Ok stock)) ∧
  (∀ e w', Market.create_stocks feed l warehouse_id w = (Raises e, w') ->
     ∃ watch, watch ∈ matched feed ids ∧ stock_count watch = Raise e).
Proof.
  intros Hl.
  destruct (seller_create_stocks_run feed l w ids Hl) as (sids & Hs & _).
  destruct (market_create_stocks_run feed l warehouse_id w ids Hl) as (mids & Hm & _).
  rewrite Hs, Hm. unfold seller_stocks, market_stocks.
  set (date := utcnow (outside w) +:+ "Z").
  assert (Hseller : ∀ watch, (∃ entry, seller_stock watch = Ok entry)
                             <-> ∃ stock, stock_count watch = Ok stock).
  { intros watch. unfold seller_stock. destruct (stock_count watch); split;
      intros [? ?]; try done; by eexists. }
  assert (Hmarket : ∀ watch, (∃ entry, market_stock warehouse_id date watch = Ok entry)
                             <-> ∃ stock, stock_count watch = Ok stock).
  { intros watch. unfold market_stock. destruct (stock_count watch); split;
      intros [? ?]; try done; by eexists. }
  split; [|split; [|split]].
  - destruct (traverse seller_stock (matched feed ids)) as [entries|e] eqn:Htr.
    + split; [|by eexists _, _]. intros _ watch Hin. apply Hseller.
      destruct (traverse_ok_elem_of _ _ _ _ Htr Hin) as (entry & Hentry & _). eauto.
    + split; [by intros (? & ? & ?)|]. intros Hall.
      destruct (traverse_total seller_stock (matched feed ids)) as [ys Hys];
        [|congruence].
      intros watch Hin. by apply Hseller, Hall.
  - intros e w'.
    destruct (traverse seller_stock (matched feed ids)) as [entries|e'] eqn:Htr; [done|].
    intros [= <- _]. destruct (traverse_raise_from _ _ _ Htr) as (watch & Hin & Hraise).
    exists watch. split; [done|]. unfold seller_stock in Hraise.
    by destruct (stock_count watch); simplify_eq.
  - destruct (traverse (market_stock warehouse_id date) (matched feed ids))
      as [entries|e] eqn:Htr.
    + split; [|by eexists _, _]. intros _ watch Hin. apply Hmarket.
      destruct (traverse_ok_elem_of _ _ _ _ Htr Hin) as (entry & Hentry & _). eauto.
    + split; [by intros (? & ? & ?)|]. intros Hall.
      destruct (traverse_total (market_stock warehouse_id date) (matched feed ids))
        as [ys Hys]; [|congruence].
      intros watch Hin. by apply Hmarket, Hall.
  - intros e w'.
    destruct (traverse (market_stock warehouse_id date) (matched feed ids))
      as [entries|e'] eqn:Htr; [done|].
    intros [= <- _]. destruct (traverse_raise_from _ _ _ Htr) as (watch & Hin & Hraise).
    exists watch. split; [done|]. unfold market_stock in Hraise.
    by destruct (stock_count watch); simplify_eq.
Qed.

Lemma create_stocks_returns_iff_witness :
  ∃ stocks w',
    @Seller.create_stocks quiet
      [feed_row "B9" "n/a" "?"; feed_row "A1" "5" "10.00"] 0
      (world_of quiet {[0 := ["A1"]]} 0) = (Returns stocks, w').
Proof.
  destruct (@create_stocks_returns_iff quiet
              [feed_row "B9" "n/a" "?"; feed_row "A1" "5" "10.00"] 0 "w"
              (world_of quiet {[0 := ["A1"]]} 0) ["A1"])
    as [Hseller _]; [reflexivity|].
  apply Hseller. intros watch Hin.
  apply list_elem_of_singleton in Hin as ->. by exists 5%Z.
Defined.

(** X4. When the quantity of a matched record makes [create_stocks] raise,
    the exception is that of the first such record in feed order, and the
    ids that earlier records have matched stay removed from [offer_ids]:
    nothing is put back. *)
Theorem create_stocks_failure_keeps_removals `{Environment}
    (before after : list Watch) (bad : Watch) (e : exn) (l : loc)
    (warehouse_id : string) (w : World) (ids : list string) :
  heap w !! l = Some ids ->
  (∀ watch, watch ∈ matched before ids -> ∃ stock, stock_count watch = Ok stock) ->
  code bad ∈ unmatched before ids ->
  stock_count bad = Raise e ->
  Seller.create_stocks (before ++ bad :: after) l w
  = (Raises e, with_content l (unmatched before ids) w) ∧
  Market.create_stocks (before ++ bad :: after) l warehouse_id w
  = (Raises e, with_content l (unmatched before ids) w).
Proof.
  intros Hl Hgood Hbad Hraise. split.
  - unfold Seller.create_stocks, bind at 1.
    rewrite (seller_create_stocks_feed_app _ _ _ _ _ _ Hl).
    pose proof (seller_create_stocks_feed_run before l [] w ids Hl) as Hrun.
    destruct (traverse_total seller_stock (matched before ids)) as [entries Htr].
    { intros watch Hin. destruct (Hgood watch Hin) as [stock Hstock].
      unfold seller_stock. rewrite Hstock. by eexists. }
    rewrite Htr in Hrun. rewrite Hrun.
    rewrite (seller_create_stocks_feed_cons _ _ _ _ _ _ (heap_with_content _ _ _)).
    by rewrite decide_True, Hraise by done.
  - unfold Market.create_stocks, bind at 1, clock. unfold bind at 1.
    rewrite (market_create_stocks_feed_app _ _ _ _ _ _ _ _ Hl).
    pose proof (market_create_stocks_feed_run before l warehouse_id
                  (utcnow (outside w) +:+ "Z") [] w ids Hl) as Hrun.
    destruct (traverse_total (market_stock warehouse_id (utcnow (outside w) +:+ "Z"))
                (matched before ids)) as [entries Htr].
    { intros watch Hin. destruct (Hgood watch Hin) as [stock Hstock].
      unfold market_stock. rewrite Hstock. by eexists. }
    rewrite Htr in Hrun. rewrite Hrun.
    rewrite (market_create_stocks_feed_cons _ _ _ _ _ _ _ _ (heap_with_content _ _ _)).
    by rewrite decide_True, Hraise by done.
Qed.

Lemma create_stocks_failure_keeps_removals_witness :
  @Seller.create_stocks quiet
    ([feed_row "A1" "5" "10.00"] ++ feed_row "A2" "n/a" "10.00" :: [feed_row "A3" "7" "1"])
    0 (world_of quiet {[0 := ["A1"; "A2"; "A3"]]} 0)
  = (Raises ValueError,
     with_content 0 (unmatched [feed_row "A1" "5" "10.00"] ["A1"; "A2"; "A3"])
       (world_of quiet {[0 := ["A1"; "A2"; "A3"]]} 0)).
Proof.
  apply (@create_stocks_failure_keeps_removals quiet
           [feed_row "A1" "5" "10.00"] [feed_row "A3" "7" "1"]
           (feed_row "A2" "n/a" "10.00") ValueError 0 "w"
           (world_of quiet {[0 := ["A1"; "A2"; "A3"]]} 0) ["A1"; "A2"; "A3"]).
  - reflexivity.
  - intros watch Hin. apply list_elem_of_singleton in Hin as ->. by exists 5%Z.
  - vm_compute. left.
  - reflexivity.
Defined.


(** X6. With repeated codes on either side, the feed records with a given
    code get as many stock entries as there are such records, up to the
    number of times the catalog lists the code; the rest of the catalog's
    occurrences of the code get a zero entry each. *)
Theorem stock_entries_per_code `{Environment} (feed : list Watch) (l : loc)
    (w w' : World) (ids : list string) (stocks : list SellerStock.t) :
  heap w !! l = Some ids ->
  Seller.create_stocks feed l w = (Returns stocks, w') ->
  ∃ from_feed,
    stocks = from_feed ++ map seller_zero (unmatched feed ids) ∧
    ∀ c,
      occurrences SellerStock.offer_id c from_feed
      = occurrences code c feed `min` occurrences (fun y => y) c ids ∧
      occurrences (fun y => y) c (unmatched feed ids)
      = occurrences (fun y => y) c ids - occurrences code c feed.
Proof.
  intros Hl Hrun.
  destruct (seller_create_stocks_returns feed l w w' ids stocks Hl Hrun)
    as (_ & entries & Htr & ->).
  exists entries. split; [done|]. intros c. split; [|apply unmatched_count].
  rewrite occurrences_keys.
  rewrite (traverse_ok_keys seller_stock code SellerStock.offer_id _ _
             seller_stock_key Htr).
  rewrite <- occurrences_keys. apply matched_count.
Qed.

Lemma stock_entries_per_code_witness :
  ∃ from_feed,
    [{| SellerStock.offer_id := "A1"; SellerStock.stock := 5 |};
     {| SellerStock.offer_id := "A1"; SellerStock.stock := 7 |};
     {| SellerStock.offer_id := "A1"; SellerStock.stock := 0 |}]
    = from_feed ++
      map seller_zero
        (unmatched [feed_row "A1" "5" "1"; feed_row "A1" "7" "1"] ["A1"; "A1"; "A1"]) ∧
    occurrences SellerStock.offer_id "A1" from_feed = 2.
Proof.
  destruct (@stock_entries_per_code quiet
              [feed_row "A1" "5" "1"; feed_row "A1" "7" "1"] 0
              (world_of quiet {[0 := ["A1"; "A1"; "A1"]]} 0)
              (world_of quiet {[0 := ["A1"]]} 0)
              ["A1"; "A1"; "A1"]
              [{| SellerStock.offer_id := "A1"; SellerStock.stock := 5 |};
               {| SellerStock.offer_id := "A1"; SellerStock.stock := 7 |};
               {| SellerStock.offer_id := "A1"; SellerStock.stock := 0 |}])
    as (from_feed & Heq & Hcount).
  - reflexivity.
  - reflexivity.
  - exists from_feed. split; [exact Heq|].
    destruct (Hcount "A1") as [-> _]. reflexivity.
Defined.

End ReconciliationAtLarge.

(** ** Cells, quantities and prices *)

Section MoreNormalization.

Lemma all_digits_sub_non_digits (s : string) : all_digits (sub_non_digits s) = true.
Proof.
  induction s as [|c s IH]; [done|].
  simpl. destruct (is_digit c) eqn:Hc; [|done]. simpl. by rewrite Hc.
Qed.

Lemma sub_non_digits_digits (s : string) :
  all_digits s = true -> sub_non_digits s = s.
Proof.
  induction s as [|c s IH]; [done|].
  simpl. intros [Hc Hs]%andb_prop. rewrite Hc. by rewrite IH.
Qed.

Lemma split_head_digits (s : string) :
  all_digits s = true -> split_head "." s = s.
Proof.
  induction s as [|c s IH]; [done|].
  simpl. intros [Hc Hs]%andb_prop.
  destruct (Ascii.eqb_spec c ".") as [->|_]; [done|]. by rewrite IH.
Qed.

Lemma length_sub_non_digits (s : string) :
  String.length (sub_non_digits s) <= String.length s.
Proof.
  induction s as [|c s IH]; [done|].
  simpl. destruct (is_digit c); simpl; lia.
Qed.

Lemma length_split_head (sep : ascii) (s : string) :
  String.length (split_head sep s) <= String.length s.
Proof.
  induction s as [|c s IH]; [done|].
  simpl. destruct (Ascii.eqb c sep); simpl; lia.
Qed.

Lemma digit_value_bounds (c : ascii) :
  is_digit c = true -> (0 <= digit_value c <= 9)%Z.
Proof.
  intros Hc. apply digit_cases in Hc.
  repeat (apply elem_of_cons in Hc as [->|Hc]; [vm_compute; split; discriminate|]).
  by apply elem_of_nil in Hc.
Qed.

Lemma decimal_nonneg (s : string) : all_digits s = true -> (0 <= decimal s)%Z.
Proof.
  induction s as [|c s IH]; [done|].
  simpl. intros [Hc Hs]%andb_prop.
  pose proof (digit_value_bounds c Hc). specialize (IH Hs).
  assert (0 <= 10 ^ Z.of_nat (String.length s))%Z by (apply Z.pow_nonneg; lia).
  nia.
Qed.

Lemma int_of_str_all_digits `{Interpreter} (s : string) :
  all_digits s = true ->
  int_of_str s
  = if decide (s = "") then Raise ValueError
    else if over_limit (String.length s) then Raise ValueError
    else Ok (decimal s).
Proof.
  intros Hs. destruct (decide (s = "")) as [->|Hne]; [done|].
  by apply int_of_str_digits.
Qed.

Lemma pretty_N_go_ne_gt (x : N) (s s' : string) :
  s ≠ ">" +:+ s' -> pretty_N_go x s ≠ ">" +:+ s'.
Proof.
  revert s. induction (N.lt_wf_0 x) as [x _ IH]; intros s Hs.
  assert (x = 0 ∨ 0 < x)%N as [->|Hpos] by lia.
  - by rewrite pretty_N_go_0.
  - rewrite pretty_N_go_step by done. apply IH.
    { by apply N.div_lt. }
    unfold pretty_N_char. by repeat case_match.
Qed.

Lemma pretty_Z_ne_gt (z : Z) (s' : string) : pretty z ≠ ">" +:+ s'.
Proof.
  destruct z as [|p|p]; [done| |done].
  unfold pretty, pretty_Z, pretty, pretty_positive, pretty, pretty_N.
  rewrite decide_False by done. by apply pretty_N_go_ne_gt.
Qed.

(** X7. Whatever the string, [price_conversion] returns a string of ASCII
    digits only, no longer than its argument, on which a second
    [price_conversion] changes nothing; an argument that is no string (an
    integer cell, a missing column) raises AttributeError. *)
Theorem price_conversion_digits_only (s : string) (z : Z) :
  (∃ digits,
     Seller.price_conversion (VStr s) = Ok digits ∧
     all_digits digits = true ∧
     String.length digits <= String.length s ∧
     Seller.price_conversion (VStr digits) = Ok digits) ∧
  Seller.price_conversion (VInt z) = Raise AttributeError ∧
  Seller.price_conversion VNone = Raise AttributeError.
Proof.
  split; [|done].
  exists (sub_non_digits (split_head "." s)).
  pose proof (all_digits_sub_non_digits (split_head "." s)) as Hdigits.
  repeat split; try done.
  - pose proof (length_sub_non_digits (split_head "." s)).
    pose proof (length_split_head "." s). lia.
  - simpl. by rewrite split_head_digits, sub_non_digits_digits.
Qed.

(** X8. Every entry of the price list that [create_prices] of market.py
    returns comes from a feed record whose price is a string with at least
    one digit before the first dot; its value is the number that these
    digits denote, so it is never negative, and its currency is ["RUR"]. *)
Theorem market_price_values `{Environment} (feed : list Watch) (l : loc) (w w' : World)
    (prices : list MarketPrice.t) (price : MarketPrice.t) :
  Market.create_prices feed l w = (Returns prices, w') ->
  price ∈ prices ->
  ∃ watch s,
    watch ∈ feed ∧
    code watch ∈ default [] (heap w !! l) ∧
    Tsena watch = VStr s ∧
    sub_non_digits (split_head "." s) ≠ "" ∧
    MarketPrice.id price = code watch ∧
    MarketPrice.value (MarketPrice.price price)
    = decimal (sub_non_digits (split_head "." s)) ∧
    (0 <= MarketPrice.value (MarketPrice.price price))%Z ∧
    MarketPrice.currencyId (MarketPrice.price price) = "RUR".
Proof.
  rewrite market_create_prices_run. unfold market_prices.
  destruct (traverse market_price _) as [entries|e] eqn:Htr; [|done].
  intros [= <- _] Hin.
  destruct (traverse_ok_from _ _ _ _ Htr Hin) as (watch & Hwatch & Hprice).
  apply list_elem_of_filter in Hwatch as [Hcode Hwatch].
  unfold market_price, Seller.price_conversion in Hprice.
  destruct (Tsena watch) as [s| |] eqn:Hs; try done.
  pose proof (all_digits_sub_non_digits (split_head "." s)) as Hdigits.
  rewrite (int_of_str_all_digits _ Hdigits) in Hprice.
  destruct (decide (sub_non_digits (split_head "." s) = "")) as [|Hne]; [done|].
  destruct (over_limit _); [done|].
  injection Hprice as <-. exists watch, s. simpl.
  repeat split; try done. by apply decimal_nonneg.
Qed.

Lemma market_price_values_witness :
  ∃ watch s,
    watch ∈ [feed_row "A1" "5" "5'990.00 руб."] ∧
    code watch ∈ default [] (heap (world_of quiet {[0 := ["A1"]]} 0) !! 0) ∧
    Tsena watch = VStr s ∧
    sub_non_digits (split_head "." s) ≠ "" ∧
    "A1" = code watch ∧
    5990%Z = decimal (sub_non_digits (split_head "." s)) ∧
    (0 <= 5990)%Z ∧
    "RUR" = "RUR".
Proof.
  apply (@market_price_values quiet [feed_row "A1" "5" "5'990.00 руб."] 0
           (world_of quiet {[0 := ["A1"]]} 0) (world_of quiet {[0 := ["A1"]]} 0)
           [{| MarketPrice.id := "A1";
               MarketPrice.price := {| MarketPrice.value := 5990;
                                       MarketPrice.currencyId := "RUR" |} |}]
           {| MarketPrice.id := "A1";
              MarketPrice.price := {| MarketPrice.value := 5990;
                                      MarketPrice.currencyId := "RUR" |} |}).
  - reflexivity.
  - left.
Defined.

(** X9. The quantity rule on cells that are no strings: an integer cell 1
    reads as the string ["1"] and gives 0, every other integer is taken as
    it is, and a missing quantity raises TypeError. *)
Theorem quantity_of_other_cells `{Interpreter} (watch : Watch) (z : Z) :
  (Kolichestvo watch = VInt z ->
   stock_count watch = Ok (if decide (z = 1%Z) then 0%Z else z)) ∧
  (Kolichestvo watch = VNone -> stock_count watch = Raise TypeError).
Proof.
  split; intros Hq; unfold stock_count; rewrite Hq; simpl; [|done].
  rewrite decide_False by apply (pretty_Z_ne_gt z "10").
  destruct (decide (z = 1%Z)) as [->|Hne]; [done|].
  rewrite decide_False; [done|].
  intros Hone. apply Hne. by apply (inj pretty).
Qed.

Lemma quantity_of_other_cells_witness :
  @stock_count cpython_3_11
    {| Kod := VStr "A1"; Kolichestvo := VInt 1; Tsena := VStr "1" |} = Ok 0%Z ∧
  @stock_count cpython_3_11
    {| Kod := VStr "A1"; Kolichestvo := VInt (-4); Tsena := VStr "1" |}
  = Ok (-4)%Z ∧
  @stock_count cpython_3_11
    {| Kod := VStr "A1"; Kolichestvo := VNone; Tsena := VStr "1" |}
  = Raise TypeError.
Proof.
  split; [|split].
  - by apply (@quantity_of_other_cells cpython_3_11
                {| Kod := VStr "A1"; Kolichestvo := VInt 1; Tsena := VStr "1" |} 1).
  - by apply (@quantity_of_other_cells cpython_3_11
                {| Kod := VStr "A1"; Kolichestvo := VInt (-4); Tsena := VStr "1" |} (-4)).
  - by apply (@quantity_of_other_cells cpython_3_11
                {| Kod := VStr "A1"; Kolichestvo := VNone; Tsena := VStr "1" |} 0).
Defined.

(** X10. All the entries of one stock list of market.py carry the
    warehouse id that the caller passed and a single item of type ["FIT"],
    stamped with the one time read at the start of the run followed by
    ["Z"]. *)
Theorem market_stock_entries_shape `{Environment} (feed : list Watch) (l : loc)
    (warehouse_id : string) (w w' : World) (ids : list string)
    (stocks : list MarketStock.t) (entry : MarketStock.t) :
  heap w !! l = Some ids ->
  Market.create_stocks feed l warehouse_id w = (Returns stocks, w') ->
  entry ∈ stocks ->
  MarketStock.warehouseId entry = warehouse_id ∧
  ∃ count,
    MarketStock.items entry
    = [{| MarketStock.count := count;
          MarketStock.type := "FIT";
          MarketStock.updatedAt := utcnow (outside w) +:+ "Z" |}].
Proof.
  intros Hl Hrun Hin.
  destruct (market_create_stocks_returns feed l warehouse_id w w' ids stocks Hl Hrun)
    as (_ & entries & Htr & ->).
  apply elem_of_app in Hin as [Hin|Hin].
  - destruct (traverse_ok_from _ _ _ _ Htr Hin) as (watch & _ & Hentry).
    unfold market_stock in Hentry. destruct (stock_count watch) as [stock|]; [|done].
    injection Hentry as <-. split; [done | by exists stock].
  - apply list_elem_of_fmap in Hin as (offer_id & -> & _).
    split; [done | by exists 0%Z].
Qed.

Lemma market_stock_entries_shape_witness :
  MarketStock.warehouseId (Market.stock_entry "A1" "w7" 0 "2024-01-01T00:00:00Z") = "w7" ∧
  ∃ count,
    MarketStock.items (Market.stock_entry "A1" "w7" 0 "2024-01-01T00:00:00Z")
    = [{| MarketStock.count := count;
          MarketStock.type := "FIT";
          MarketStock.updatedAt := @utcnow quiet 0 +:+ "Z" |}].
Proof.
  apply (@market_stock_entries_shape quiet [] 0 "w7"
           (world_of quiet {[0 := ["A1"]]} 0) (world_of quiet {[0 := ["A1"]]} 0)
           ["A1"] [Market.stock_entry "A1" "w7" 0 "2024-01-01T00:00:00Z"]).
  - reflexivity.
  - reflexivity.
  - left.
Defined.

End MoreNormalization.

(** ** Push loops, [main] and failures *)

Section MorePushes.

Lemma for_each_request_step `{Environment} {A : Type} (mk : A -> Request)
    (chunk : A) (rest : list A) (w : World) :
  for_each (chunk :: rest) (fun chunk => request (mk chunk) ;; ret tt) w
  = match http (mk chunk) (outside w) with
    | (Ok _, o) =>
        for_each rest (fun chunk => request (mk chunk) ;; ret tt)
          {| heap := heap w; outside := o; sent := sent w ++ [mk chunk] |}
    | (Raise e, o) =>
        (Raises e, {| heap := heap w; outside := o; sent := sent w ++ [mk chunk] |})
    end.
Proof.
  cbn [for_each]. unfold bind at 1. unfold bind at 1. unfold request.
  by destruct (http (mk chunk) (outside w)) as [[r|e] o].
Qed.

Lemma answer_at_first `{Environment} {A : Type} (mk : A -> Request)
    (chunk : A) (rest : list A) (o : Outside) :
  answer_at mk (chunk :: rest) o 0 = Some (fst (http (mk chunk) o)).
Proof. reflexivity. Qed.

Lemma answer_at_next `{Environment} {A : Type} (mk : A -> Request)
    (chunk : A) (rest : list A) (o : Outside) (i : nat) :
  answer_at mk (chunk :: rest) o (S i)
  = answer_at mk rest (snd (http (mk chunk) o)) i.
Proof. reflexivity. Qed.

Lemma pushed_in_order_for_each `{Environment} {A : Type} (mk : A -> Request)
    (chunks : list A) (w : World) :
  pushed_in_order mk chunks
    (for_each chunks (fun chunk => request (mk chunk) ;; ret tt)) w.
Proof.
  revert w. induction chunks as [|chunk rest IH]; intros w.
  - exists 0. split; [lia|]. split; [done|]. left.
    simpl. by rewrite app_nil_r.
  - unfold pushed_in_order. rewrite for_each_request_step.
    destruct (http (mk chunk) (outside w)) as [[r|e] o] eqn:Hhttp.
    + destruct (IH {| heap := heap w; outside := o; sent := sent w ++ [mk chunk] |})
        as (k & Hanswered & Hheap & Hend).
      cbn [heap outside sent] in Hanswered, Hheap, Hend.
      assert (Ho : snd (http (mk chunk) (outside w)) = o) by by rewrite Hhttp.
      exists (S k). split; [|split; [done|]].
      * intros [|i] Hi.
        -- rewrite answer_at_first, Hhttp. by exists r.
        -- rewrite answer_at_next, Ho. apply Hanswered. lia.
      * destruct Hend as [(-> & Hret & Hsent & Hout)
                         | (e & Hfail & Hraise & Hsent & Hout)].
        -- left. repeat split; try done.
           ++ rewrite Hsent, <- app_assoc. done.
           ++ rewrite Hout. cbn [outside_after fold_left]. by rewrite Ho.
        -- right. exists e. repeat split; try done.
           ++ by rewrite answer_at_next, Ho.
           ++ rewrite Hsent, <- app_assoc. done.
           ++ rewrite Hout. unfold outside_after.
              change (take (S (S k)) (chunk :: rest)) with (chunk :: take (S k) rest).
              cbn [fold_left]. by rewrite Ho.
    + exists 0. split; [lia|]. split; [done|]. right. exists e.
      rewrite answer_at_first, Hhttp. repeat split; try done.
      cbn [outside]. unfold outside_after. simpl. by rewrite Hhttp.
Qed.

(** X11. Each of the four push loops sends one request per chunk, in the
    order of the chunks, each after the one before it has been answered,
    and gives up at the first request that fails: the loop then raises the
    exception of that request, the chunks before it have been sent and
    answered, the chunks after it are never sent, and nothing is retried.
    The loop returns exactly when every request has been answered, and
    then every chunk has gone out; it leaves [offer_ids] alone. *)
Theorem push_loops_send_in_order `{Environment} (id token : string) (w : World)
    (seller_stocks_chunks : list (list SellerStock.t))
    (seller_prices_chunks : list (list SellerPrice.t))
    (market_stocks_chunks : list (list MarketStock.t))
    (market_prices_chunks : list (list MarketPrice.t)) :
  pushed_in_order (fun chunk => OzonUpdateStocks chunk id token) seller_stocks_chunks
    (for_each seller_stocks_chunks
       (fun some_stock => Seller.update_stocks some_stock id token)) w ∧
  pushed_in_order (fun chunk => OzonUpdatePrices chunk id token) seller_prices_chunks
    (for_each seller_prices_chunks
       (fun some_price => Seller.update_price some_price id token)) w ∧
  pushed_in_order (fun chunk => MarketUpdateStocks chunk id token) market_stocks_chunks
    (for_each market_stocks_chunks
       (fun some_stock => Market.update_stocks some_stock id token)) w ∧
  pushed_in_order (fun chunk => MarketUpdatePrices chunk id token) market_prices_chunks
    (for_each market_prices_chunks
       (fun some_prices => Market.update_price some_prices id token)) w ∧
  (fst (for_each seller_stocks_chunks
          (fun some_stock => Seller.update_stocks some_stock id token) w) = Returns tt
   <-> ∀ i, i < length seller_stocks_chunks ->
         ∃ r, answer_at (fun chunk => OzonUpdateStocks chunk id token)
                seller_stocks_chunks (outside w) i = Some (Ok r)).
Proof.
  split; [|split; [|split; [|split]]].
  - apply (pushed_in_order_for_each (fun chunk => OzonUpdateStocks chunk id token)).
  - apply (pushed_in_order_for_each (fun chunk => OzonUpdatePrices chunk id token)).
  - apply (pushed_in_order_for_each (fun chunk => MarketUpdateStocks chunk id token)).
  - apply (pushed_in_order_for_each (fun chunk => MarketUpdatePrices chunk id token)).
  - destruct (pushed_in_order_for_each
                (fun chunk => OzonUpdateStocks chunk id token) seller_stocks_chunks w)
      as (k & Hanswered & _ & [(-> & Hret & _) | (e & Hfail & Hraise & _)]).
    + split; [by intros _ | by intros _].
    + unfold Seller.update_stocks. rewrite Hraise. split; [done|].
      intros Hall.
      assert (Hk : k < length seller_stocks_chunks).
      { apply lookup_lt_is_Some. unfold answer_at in Hfail.
        by destruct (seller_stocks_chunks !! k). }
      destruct (Hall k Hk) as [r Hr]. congruence.
Qed.

(** The second of three requests fails: the loop raises its error, the
    first two chunks have gone out and the third has not. *)
Lemma push_loops_send_in_order_witness :
  @for_each second_request_fails _
    [[seller_zero "A1"]; [seller_zero "A2"]; [seller_zero "A3"]]
    (fun some_stock => Seller.update_stocks some_stock "id" "token")
    (world_of second_request_fails ∅ 0)
  = (Raises HTTPError,
     @Build_World second_request_fails ∅ 2
       [OzonUpdateStocks [seller_zero "A1"] "id" "token";
        OzonUpdateStocks [seller_zero "A2"] "id" "token"]).
Proof.
  destruct (@push_loops_send_in_order second_request_fails "id" "token"
              (world_of second_request_fails ∅ 0)
              [[seller_zero "A1"]; [seller_zero "A2"]; [seller_zero "A3"]] [] [] [])
    as ((k & Hanswered & Hheap & Hend) & _).
  destruct Hend as [(_ & Hret & _) | (e & Hfail & Hraise & Hsent & Hout)];
    [discriminate Hret|].
  destruct k as [|[|k]].
  - discriminate Hfail.
  - destruct (for_each _ _ _) as [outcome [h o log]].
    cbn [fst snd heap outside sent] in *.
    injection Hfail as <-. by rewrite Hraise, Hheap, Hsent, Hout.
  - destruct (Hanswered 1 ltac:(lia)) as [r Hr]. discriminate Hr.
Defined.

(** X12. A list that fits in one chunk is sent whole: for a list of 1 to n
    elements [divide] yields the list itself as its only chunk, and for the
    empty list and any non-zero n it yields no chunk, so the push loop then
    sends nothing. *)
Theorem divide_small_lists {A : Type} (lst : list A) (n : Z) :
  ((1 <= Z.of_nat (length lst) <= n)%Z -> Seller.divide lst n = Ok [lst]) ∧
  (n ≠ 0%Z -> Seller.divide (@nil A) n = Ok []).
Proof.
  split.
  - intros Hlen. rewrite divide_positive by lia.
    assert (Hone : ceil_div (Z.of_nat (length lst)) n = 1%Z).
    { unfold ceil_div. symmetry. apply (Z.div_unique _ _ 1 (Z.of_nat (length lst) - 1)); lia. }
    rewrite Hone. simpl. rewrite drop_0, take_ge by lia. done.
  - intros Hn. destruct (Z.lt_total n 0) as [Hneg|[?|Hpos]]; [|done|].
    + by apply divide_negative.
    + rewrite divide_positive by lia. simpl.
      unfold ceil_div. rewrite Z.div_small by lia. done.
Qed.

Lemma divide_small_lists_witness :
  Seller.divide [1; 2; 3] 100 = Ok [[1; 2; 3]] ∧ Seller.divide (@nil nat) (-5) = Ok [].
Proof.
  split.
  - apply (divide_small_lists [1; 2; 3] 100). simpl. lia.
  - apply (divide_small_lists (@nil nat) (-5)). lia.
Defined.









End MorePushes.

Section MoreCatalog.
Context `{Environment}.

Lemma last_cons_default {A B : Type} (f : A -> B) (d : B) (x : A) (lst : list A) :
  default d (f <$> last (x :: lst)) = default (f x) (f <$> last lst).
Proof.
  destruct lst as [|y lst]; [done|].
  change (last (x :: y :: lst)) with (last (y :: lst)).
  destruct (last (y :: lst)) eqn:Hlast; [done|].
  by apply last_None in Hlast.
Qed.

Lemma seller_loop_raises (client_id seller_token : string)
    (pages : list SellerPage.t) (last_id : string)
    (product_list : list SellerPage.item) (w w1 w2 : World) (e : exn) (fuel : nat) :
  seller_pages client_id seller_token last_id w pages w1 ->
  (∀ before p after, pages = before ++ p :: after ->
     SellerPage.total p
     ≠ Z.of_nat (length (product_list ++ seller_items (before ++ [p])))) ->
  Seller.get_product_list (default last_id (SellerPage.last_id <$> last pages))
    client_id seller_token w1 = (Raises e, w2) ->
  length pages < fuel ->
  Seller.get_offer_ids_loop fuel last_id product_list client_id seller_token w
  = (Raises e, w2).
Proof.
  revert last_id product_list w fuel.
  induction pages as [|p pages IH]; intros last_id product_list w fuel Hpages Hgo Hfail Hfuel.
  - inversion Hpages; subst. destruct fuel as [|fuel]; [simpl in Hfuel; lia|].
    cbn [Seller.get_offer_ids_loop]. unfold bind at 1. simpl in Hfail. by rewrite Hfail.
  - inversion Hpages as [|? ? ? w' ? ? Hpage Hrest]; subst.
    destruct fuel as [|fuel]; [simpl in Hfuel; lia|].
    rewrite (seller_loop_step _ _ _ _ _ _ _ _ Hpage).
    rewrite decide_False.
    + apply IH; [done | | | simpl in Hfuel; lia].
      * intros before p' after ->.
        rewrite <- app_assoc, <- seller_items_cons.
        apply (Hgo (p :: before) p' after). done.
      * by rewrite last_cons_default in Hfail.
    + specialize (Hgo [] p pages eq_refl).
      unfold seller_items in Hgo. simpl in Hgo. by rewrite app_nil_r in Hgo.
Qed.

Lemma market_loop_raises (campaign_id market_token : string)
    (pages : list MarketPage.t) (page_token : string)
    (product_list : list MarketPage.entry) (w w1 w2 : World) (e : exn) (fuel : nat) :
  market_pages campaign_id market_token page_token w pages w1 ->
  (∀ p, p ∈ pages -> Market.not_page (MarketPage.nextPageToken p) = false) ->
  Market.get_product_list
    (default page_token
       ((fun p => default "" (MarketPage.nextPageToken p)) <$> last pages))
    campaign_id market_token w1 = (Raises e, w2) ->
  length pages < fuel ->
  Market.get_offer_ids_loop fuel page_token product_list campaign_id market_token w
  = (Raises e, w2).
Proof.
  revert page_token product_list w fuel.
  induction pages as [|p pages IH]; intros page_token product_list w fuel Hpages Hgo Hfail Hfuel.
  - inversion Hpages; subst. destruct fuel as [|fuel]; [simpl in Hfuel; lia|].
    cbn [Market.get_offer_ids_loop]. unfold bind at 1. simpl in Hfail. by rewrite Hfail.
  - inversion Hpages as [|? ? ? w' ? ? Hpage Hrest]; subst.
    destruct fuel as [|fuel]; [simpl in Hfuel; lia|].
    rewrite (market_loop_step _ _ _ _ _ _ _ _ Hpage).
    rewrite (Hgo p) by left.
    apply IH; [done | | | simpl in Hfuel; lia].
    + intros p' Hp'. apply Hgo. by right.
    + by rewrite last_cons_default in Hfail.
Qed.

Lemma market_main_download_only_issues (P : Request -> Prop) (fuel : nat)
    (market_token campaign_fbs_id campaign_dbs_id warehouse_fbs_id warehouse_dbs_id
       : string) :
  P CasioOstatki ->
  (∀ page id token, P (MarketOfferMappingEntries page id token)) ->
  (∀ stocks id token, P (MarketUpdateStocks stocks id token)) ->
  only_issues P
    (Market.main_download fuel market_token campaign_fbs_id campaign_dbs_id
       warehouse_fbs_id warehouse_dbs_id).
Proof.
  intros Hfeed Hpage Hstocks.
  assert (Hcampaign : ∀ feed id warehouse,
            only_issues P (Market.main_campaign fuel feed id market_token warehouse)).
  { intros feed id warehouse. unfold Market.main_campaign.
    apply only_issues_bind; [by apply market_get_offer_ids_issues|]. intros offer_ids.
    apply only_issues_bind; [apply market_create_stocks_issues|]. intros stocks.
    apply only_issues_bind; [apply only_issues_lift|]. intros chunks.
    apply only_issues_for_each. intros chunk _. unfold Market.update_stocks.
    apply only_issues_bind; [by apply only_issues_request|]. intros _.
    apply only_issues_ret. }
  unfold Market.main_download.
  apply only_issues_bind; [by apply download_stock_issues|]. intros feed.
  apply only_issues_try_except.
  apply only_issues_bind; [apply Hcampaign|]. intros _. apply Hcampaign.
Qed.

Lemma market_main_only_issues (P : Request -> Prop) (fuel : nat) :
  P CasioOstatki ->
  (∀ page id token, P (MarketOfferMappingEntries page id token)) ->
  (∀ stocks id token, P (MarketUpdateStocks stocks id token)) ->
  only_issues P (Market.main fuel).
Proof.
  intros Hfeed Hpage Hstocks. unfold Market.main.
  do 5 (apply only_issues_bind; [apply only_issues_env_str|]; intros ?).
  by apply market_main_download_only_issues.
Qed.

End MoreCatalog.

Section MoreCatalogClaims.

(** X14. Nothing is retried while the catalog is fetched: when the request
    for a page fails after some pages that did not end the loop,
    [get_offer_ids] of either file raises that very exception, in the world
    left by the failed request; the pages gathered so far are dropped and
    no list is returned. *)
Theorem catalog_fetch_failure `{Environment} (id token : string) (w w1 w2 : World)
    (e : exn) (fuel : nat) :
  (∀ pages,
     seller_pages id token "" w pages w1 ->
     (∀ before p after, pages = before ++ p :: after -> ¬ seller_stop before p) ->
     Seller.get_product_list (default "" (SellerPage.last_id <$> last pages)) id token w1
     = (Raises e, w2) ->
     length pages < fuel ->
     Seller.get_offer_ids fuel id token w = (Raises e, w2)) ∧
  (∀ pages,
     market_pages id token "" w pages w1 ->
     (∀ p, p ∈ pages -> Market.not_page (MarketPage.nextPageToken p) = false) ->
     Market.get_product_list
       (default "" ((fun p => default "" (MarketPage.nextPageToken p)) <$> last pages))
       id token w1
     = (Raises e, w2) ->
     length pages < fuel ->
     Market.get_offer_ids fuel id token w = (Raises e, w2)).
Proof.
  split.
  - intros pages Hpages Hgo Hfail Hfuel. unfold Seller.get_offer_ids, bind.
    by rewrite (seller_loop_raises id token pages "" [] w w1 w2 e fuel).
  - intros pages Hpages Hgo Hfail Hfuel. unfold Market.get_offer_ids, bind.
    by rewrite (market_loop_raises id token pages "" [] w w1 w2 e fuel).
Qed.

Lemma catalog_fetch_failure_witness :
  @Seller.get_offer_ids
    (scripted (fun n => match n with
                        | 0 => Ok (ProductList (seller_page ["A1"] 3 "p1"))
                        | _ => Raise HTTPError
                        end)
              (fun _ => ""))
    5 "client" "key"
    (world_of (scripted (fun n => match n with
                                  | 0 => Ok (ProductList (seller_page ["A1"] 3 "p1"))
                                  | _ => Raise HTTPError
                                  end)
                        (fun _ => "")) ∅ 0)
  = (Raises HTTPError,
     @Build_World (scripted (fun n => match n with
                                      | 0 => Ok (ProductList (seller_page ["A1"] 3 "p1"))
                                      | _ => Raise HTTPError
                                      end)
                            (fun _ => ""))
       ∅ 2 [OzonProductList "" "client" "key"; OzonProductList "p1" "client" "key"]).
Proof.
  pose (E := scripted (fun n => match n with
                                | 0 => Ok (ProductList (seller_page ["A1"] 3 "p1"))
                                | _ => Raise HTTPError
                                end)
                      (fun _ => "")).
  destruct (@catalog_fetch_failure E "client" "key" (world_of E ∅ 0)
              (@Build_World E ∅ 1 [OzonProductList "" "client" "key"])
              (@Build_World E ∅ 2 [OzonProductList "" "client" "key";
                                   OzonProductList "p1" "client" "key"])
              HTTPError 5) as [Hseller _].
  apply (Hseller [seller_page ["A1"] 3 "p1"]).
  - eapply seller_pages_cons; [reflexivity|]. apply seller_pages_nil.
  - intros [|p0 before] p after Heq; simplify_eq/=.
    + unfold seller_stop. simpl. lia.
    + by destruct before.
  - reflexivity.
  - simpl. lia.
Defined.

(** X15. [main] of market.py never sends a price update: the call
    [upload_prices(...)] in it only creates a coroutine that is never
    awaited, so the requests of a run are the download of the feed, catalog
    pages and stock updates. *)
Theorem market_main_sends_no_price `{Environment} (fuel : nat)
    (token id id' warehouse warehouse' : string) (w : World) :
  Forall (fun q => is_price_update q = false) (issued (Market.main fuel) w) ∧
  Forall (fun q => is_price_update q = false)
    (issued (Market.main_download fuel token id id' warehouse warehouse') w).
Proof.
  split; apply issued_only_issues.
  - by apply market_main_only_issues.
  - by apply market_main_download_only_issues.
Qed.


End MoreCatalogClaims.

Section MoreUploads.


Lemma seller_get_offer_ids_returns `{Environment} (fuel : nat) (id token : string)
    (w w1 : World) (l : loc) :
  Seller.get_offer_ids fuel id token w = (Returns l, w1) ->
  ∃ ids, heap w1 !! l = Some ids.
Proof.
  unfold Seller.get_offer_ids, bind.
  destruct (Seller.get_offer_ids_loop fuel "" [] id token w) as [[items|e|] w0];
    [|done..].
  unfold alloc. intros [= <- <-]. eexists. apply lookup_insert_eq.
Qed.

Lemma market_get_offer_ids_returns `{Environment} (fuel : nat) (id token : string)
    (w w1 : World) (l : loc) :
  Market.get_offer_ids fuel id token w = (Returns l, w1) ->
  ∃ ids, heap w1 !! l = Some ids.
Proof.
  unfold Market.get_offer_ids, bind.
  destruct (Market.get_offer_ids_loop fuel "" [] id token w) as [[items|e|] w0];
    [|done..].
  unfold alloc. intros [= <- <-]. eexists. apply lookup_insert_eq.
Qed.

(** X17. The first list that [upload_stocks] of either file returns holds,
    in order, the entries of the second with a quantity other than 0; each
    of them comes from a feed record with that code whose normalised
    quantity it carries, so an offer that the feed does not have, or has
    with the quantity ["1"], is never in it. *)
Theorem upload_stocks_not_empty `{Environment} (fuel : nat) (feed : list Watch)
    (id token warehouse : string) (w : World) :
  (∀ not_empty stocks w' entry,
     Seller.upload_stocks fuel feed id token w = (Returns (not_empty, stocks), w') ->
     entry ∈ not_empty ->
     entry ∈ stocks ∧
     SellerStock.stock entry ≠ 0%Z ∧
     ∃ watch, watch ∈ feed ∧ code watch = SellerStock.offer_id entry ∧
              stock_count watch = Ok (SellerStock.stock entry)) ∧
  (∀ not_empty stocks w' entry,
     Market.upload_stocks fuel feed id token warehouse w
     = (Returns (not_empty, stocks), w') ->
     entry ∈ not_empty ->
     entry ∈ stocks ∧
     ∃ count date,
       MarketStock.items entry
       = [{| MarketStock.count := count; MarketStock.type := "FIT";
             MarketStock.updatedAt := date |}] ∧
       count ≠ 0%Z ∧
       ∃ watch, watch ∈ feed ∧ code watch = MarketStock.sku entry ∧
                stock_count watch = Ok count).
Proof.
  split.
  - intros not_empty stocks w' entry. unfold Seller.upload_stocks, bind at 1.
    destruct (Seller.get_offer_ids fuel id token w) as [[l|e|] w1] eqn:Hget; [|done..].
    destruct (seller_get_offer_ids_returns _ _ _ _ _ _ Hget) as [ids Hl].
    unfold bind at 1.
    destruct (Seller.create_stocks feed l w1) as [[all|e|] w2] eqn:Hrun; [|done..].
    destruct (seller_create_stocks_returns feed l w1 w2 ids all Hl Hrun)
      as (_ & entries & Htr & Hall).
    unfold bind at 1.
    destruct (lift (Seller.divide all 100) w2) as [[chunks|e|] w3]; [|done..].
    unfold bind at 1.
    destruct (for_each chunks _ w3) as [[[]|e|] w4]; [|done..].
    intros [= <- <- _] [Hnonzero Hin]%list_elem_of_filter.
    split; [done|]. split; [done|].
    rewrite Hall in Hin. apply elem_of_app in Hin as [Hin|Hin].
    + destruct (traverse_ok_from _ _ _ _ Htr Hin) as (watch & Hwatch & Hentry).
      exists watch. split; [by apply (matched_elem_of feed ids)|].
      unfold seller_stock in Hentry.
      destruct (stock_count watch) as [stock|]; [|done]. by injection Hentry as <-.
    + apply list_elem_of_fmap in Hin as (offer_id & -> & _). done.
  - intros not_empty stocks w' entry. unfold Market.upload_stocks, bind at 1.
    destruct (Market.get_offer_ids fuel id token w) as [[l|e|] w1] eqn:Hget; [|done..].
    destruct (market_get_offer_ids_returns _ _ _ _ _ _ Hget) as [ids Hl].
    unfold bind at 1.
    destruct (Market.create_stocks feed l warehouse w1) as [[all|e|] w2] eqn:Hrun;
      [|done..].
    destruct (market_create_stocks_returns feed l warehouse w1 w2 ids all Hl Hrun)
      as (_ & entries & Htr & Hall).
    unfold bind at 1.
    destruct (lift (Seller.divide all 2000) w2) as [[chunks|e|] w3]; [|done..].
    unfold bind at 1.
    destruct (for_each chunks _ w3) as [[[]|e|] w4]; [|done..].
    intros [= <- <- _] [Hnonzero Hin]%list_elem_of_filter.
    split; [done|].
    rewrite Hall in Hin. apply elem_of_app in Hin as [Hin|Hin].
    + destruct (traverse_ok_from _ _ _ _ Htr Hin) as (watch & Hwatch & Hentry).
      unfold market_stock in Hentry.
      destruct (stock_count watch) as [stock|] eqn:Hstock; [|done].
      injection Hentry as <-. simpl in Hnonzero.
      exists stock, (utcnow (outside w1) +:+ "Z"). split; [done|].
      split; [congruence|].
      exists watch. split; [by apply (matched_elem_of feed ids) | done].
    + apply list_elem_of_fmap in Hin as (offer_id & -> & _). done.
Qed.

End MoreUploads.
